(** * SIM, the software similarity tester: forward references, percentages, start-up

    A shallow embedding of the parts of [hash.c], [percentages.c] and [sim.c]
    that build the forward-reference table, aggregate the percentages and
    validate the value options, followed by the properties proved about
    them.

    Conventions of the embedding.
    - A C integer is a [Z]; every operation that can leave the range of its
      C type is followed by the reduction of that type ([size_t], [uint32],
      [int32], [vlong]).
    - A C array reached through a pointer ([Token_Array],
      [forward_reference], [last_index]) is a function from the index to the
      element; its length is the separate variable the source keeps for it.
      An array obtained from [Calloc] is the constant function 0.
    - A pointer [&Token_Array[j]] is the function [fun k => Token_Array (j + k)].
    - A [for] or [while] loop is a recursion on a fuel that bounds its number
      of iterations; running out of fuel is the outcome [OutOfFuel], and the
      theorems show that it does not happen.
    - [fatal] ends the program: it is the outcome [Fatal msg]. *)

From Stdlib Require Import ZArith List Lia Bool String Ascii Sorted.
From Stdlib Require Import Permutation.
From Stdlib Require Import Floats.SpecFloat.
Import ListNotations.

Local Open Scope Z_scope.

(* ================================================================== *)
(** * Part I: definitions *)
(* ================================================================== *)

(** ** Machine integers *)

Module CInt.

(** [size_t]: unsigned, 64 bits. *)
Definition size_t (z : Z) : Z := z mod 2 ^ 64.

(** [uint32_t], the type [HASH_T] of [hash1]. *)
Definition uint32 (z : Z) : Z := z mod 2 ^ 32.

(** [int]: signed, 32 bits, two's complement.  Signed overflow is
    undefined in ISO C; the embedding gives it the wrap-around of the
    usual targets. *)
Definition INT_MIN : Z := - 2 ^ 31.
Definition INT_MAX : Z := 2 ^ 31 - 1.
Definition int32 (z : Z) : Z := (z + 2 ^ 31) mod 2 ^ 32 - 2 ^ 31.

(** Division of two [int]s truncates towards zero. *)
Definition int_div (a b : Z) : Z := int32 (Z.quot a b).

End CInt.
Import CInt.

(** ** Outcomes of a computation that may end the program *)

Inductive outcome (A : Type) : Type :=
| Ret (a : A)              (* normal return *)
| Fatal (msg : string)     (* fatal(msg): message on stderr, exit(1) *)
| OutOfFuel                (* a loop exceeded the bound of the embedding *)
| Undefined.               (* a read outside a constant table *)

Arguments Ret {A} a.
Arguments Fatal {A} msg.
Arguments OutOfFuel {A}.
Arguments Undefined {A}.

Definition bind {A B : Type} (m : outcome A) (k : A -> outcome B) : outcome B :=
  match m with
  | Ret a => k a
  | Fatal msg => Fatal msg
  | OutOfFuel => OutOfFuel
  | Undefined => Undefined
  end.

Notation "x <- m ;; k" := (bind m (fun x => k))
  (at level 61, m at next level, right associativity).

(** ** The interfaces [hash.c] is compiled against

    [token.h], [any_int.h] and [text.h] are not part of the files at hand.
    What [hash.c] uses of them is taken as a parameter: the type [Token]
    with the macros [Token2int] and [May_Be_Start_Of_Run], and the width in
    bits of [vlong_uint]. *)

Class TokenInterface : Type := {
  Token : Type;
  Token2int : Token -> Z;
  May_Be_Start_Of_Run : Token -> bool;
  VLONG_W : Z                            (* (sizeof (vlong_uint))*8 *)
}.

(** [struct text]: the fields the sources at hand use.  [tx_fname] is a
    [const char *]; the sources compare it with [==], so it is modelled by
    the address it holds. *)
Record text : Type := mk_text {
  tx_fname : Z;
  tx_start : Z;
  tx_limit : Z
}.

(** Update of one cell of an array. *)
Definition upd (a : Z -> Z) (i v : Z) : Z -> Z :=
  fun k => if k =? i then v else a k.

(** ** [hash.c] *)

Module Hash.
Section WithTokens.

Context {TI : TokenInterface}.

Definition N_SAMPLES : Z := 24.
Definition HASH_W : Z := 32.

(** The schedule [prime[]] (the entries under [#if 0] are not compiled). *)
Definition prime : list Z :=
  [ 14051; 28111; 56239; 112507; 225023; 450067; 900139; 1800311;
    3600659; 7201351; 14402743; 28805519; 57611039; 115222091;
    230444239; 460888499; 921777067; 1843554151; 3687108307;
    7374216631; 14748433279; 29496866579; 58993733159; 117987466379;
    235974932759; 471949865531; 943899731087 ].

(** The static variables of [hash.c]. *)
Record hash_state : Type := mk_hash_state {
  forward_reference : Z -> Z;
  n_forward_references : Z;
  last_index : Z -> Z;
  last_index_table_size : Z;
  sample_pos : list Z                   (* sample_pos[N_SAMPLES] *)
}.

Definition set_forward_reference (st : hash_state) (i v : Z) : hash_state :=
  mk_hash_state (upd (forward_reference st) i v) (n_forward_references st)
                (last_index st) (last_index_table_size st) (sample_pos st).

Definition set_last_index (st : hash_state) (h v : Z) : hash_state :=
  mk_hash_state (forward_reference st) (n_forward_references st)
                (upd (last_index st) h v) (last_index_table_size st)
                (sample_pos st).

(** What [hash.c] reads and does not own: the token store, the text
    registry and the option [Min_Run_Size] (an [int]). *)
Record input : Type := mk_input {
  Token_Array : Z -> Token;
  Token_Array_Length : Z;
  Text : list text;                     (* Text[0 .. Number_of_Texts) *)
  Min_Run_Size : Z
}.

(** *** [init_hash_table] *)

(** [while (prime[n] < Token_Array_Length()) n++;], from [prime[n]] on.
    Leaving the table is a read outside it. *)
Fixpoint ideal_size (ps : list Z) (n : nat) (len : Z) : outcome nat :=
  match ps with
  | [] => Undefined
  | p :: ps' => if p <? len then ideal_size ps' (S n) len else Ret n
  end.

(** [while (!last_index && n >= 0) { size = prime[n]; TryCalloc; n--; }]
    and the test that follows it.  [try_calloc size] tells whether
    [TryCalloc(size, sizeof (size_t))] returns a block.  The result is the
    value of [last_index_table_size] once a block is obtained. *)
Fixpoint step_down (try_calloc : Z -> bool) (n : nat) : outcome Z :=
  let size := nth n prime 0 in
  if try_calloc size then Ret size
  else match n with
       | O => Fatal "out of memory"
       | S n' => step_down try_calloc n'
       end.

(** The straight-line approximation, computed in [int] and stored in a
    [size_t]. *)
Definition sample_position (mrs n : Z) : Z :=
  size_t
    (int_div
       (int32 (int32 (int32 (2 * n) * int32 (mrs - 1)) + (N_SAMPLES - 1)))
       (int32 (2 * (N_SAMPLES - 1)))).

Definition sample_positions (mrs : Z) : list Z :=
  map (fun n => sample_position mrs (Z.of_nat n)) (seq 0 (Z.to_nat N_SAMPLES)).

(** The first two loops of [init_hash_table]: the value left in
    [last_index_table_size]. *)
Definition table_size (try_calloc : Z -> bool) (len : Z) : outcome Z :=
  n <- ideal_size prime 0 len ;;
  step_down try_calloc n.

(** [init_hash_table]: the table, a zeroed block of the size obtained, and
    the sample positions. *)
Definition init_hash_table (try_calloc : Z -> bool) (inp : input)
           (st : hash_state) : outcome hash_state :=
  size <- table_size try_calloc (Token_Array_Length inp) ;;
  Ret (mk_hash_state (forward_reference st) (n_forward_references st)
                     (fun _ => 0) size
                     (sample_positions (Min_Run_Size inp))).

(** *** [hash1] *)

(** One turn of the loop of [hash1]: the circular shift over the
    [HASH_W-1] right-most bits, then the update with the next sample. *)
Definition hash1_step (h_val : Z) (tk : Z) : Z :=
  let h1 := uint32 (Z.shiftl h_val 1) in
  let h2 :=
    if Z.land h1 (Z.shiftl 1 (HASH_W - 1)) =? 0 then h1
    else uint32 (Z.lxor h1 (Z.lor (Z.shiftl 1 (HASH_W - 1)) 1)) in
  uint32 (Z.lxor h2 (uint32 tk)).

(** [hash1(p)]: [p] is the pointer, [sp] the array [sample_pos]. *)
Definition hash1 (sp : list Z) (p : Z -> Token) : Z :=
  size_t
    (fold_left
       (fun h_val n => hash1_step h_val (Token2int (p (nth n sp 0))))
       (seq 0 (Z.to_nat N_SAMPLES)) 0).

(** *** [hash2] *)

Definition vlong (z : Z) : Z := z mod 2 ^ VLONG_W.

Definition hash2 (sp : list Z) (p : Z -> Token) : Z :=
  let pos_last_sample := N_SAMPLES - 1 in
  let extract_Token (pos : Z) := vlong (Token2int (p (nth (Z.to_nat pos) sp 0))) in
  let shl (v k : Z) := vlong (Z.shiftl v k) in
  let h0 := 0 in
  let h1 := Z.lxor h0 (shl (extract_Token 0) 0) in
  let h2 := Z.lxor h1 (shl (extract_Token pos_last_sample)
                           (Z.quot (VLONG_W * 1) 5)) in
  let h3 := Z.lxor h2 (shl (extract_Token (Z.quot pos_last_sample 2))
                           (Z.quot (VLONG_W * 2) 5)) in
  let h4 := Z.lxor h3 (shl (extract_Token (Z.quot (pos_last_sample * 1) 4))
                           (Z.quot (VLONG_W * 3) 5)) in
  let h5 := Z.lxor h4 (shl (extract_Token (Z.quot (pos_last_sample * 3) 4))
                           (Z.quot (VLONG_W * 4) 5)) in
  h5.

(** *** [make_forward_references_hash1] *)

(** The hash code used as an index: [hash1(&Token_Array[j]) % last_index_table_size].
    The pointer [&Token_Array[j]] is the function [fun k => Token_Array (j + k)];
    [p[sample_pos[n]]] is the cell [j + sample_pos[n]] as long as the
    sample positions lie inside the window, which is the case of the
    inputs that [well_formed] admits. *)
Definition bucket (inp : input) (size : Z) (sp : list Z) (j : Z) : Z :=
  size_t (hash1 sp (fun k => Token_Array inp (j + k)) mod size).

(** The body of the inner [for] loop, at position [j]. *)
Definition thread_position (inp : input) (j : Z) (st : hash_state)
  : hash_state :=
  if May_Be_Start_Of_Run (Token_Array inp j) then
    let h := bucket inp (last_index_table_size st) (sample_pos st) j in
    let st1 :=
      if last_index st h =? 0 then st
      else set_forward_reference st (last_index st h) j in
    set_last_index st1 h j
  else st.

(** [for (j = ...; j + Min_Run_Size - 1 < txt->tx_limit; j++)], entered
    with the current value of [j]. *)
Fixpoint for_positions (fuel : nat) (inp : input) (limit : Z) (j : Z)
         (st : hash_state) : outcome hash_state :=
  if size_t (j + Min_Run_Size inp - 1) <? limit then
    match fuel with
    | O => OutOfFuel
    | S fuel' =>
        for_positions fuel' inp limit (size_t (j + 1)) (thread_position inp j st)
    end
  else Ret st.

(** [for (n = 0; n < Number_of_Texts; n++)], over the texts still to do. *)
Fixpoint for_texts (inp : input) (txts : list text) (st : hash_state)
  : outcome hash_state :=
  match txts with
  | [] => Ret st
  | txt :: txts' =>
      st' <- for_positions (Z.to_nat (tx_limit txt)) inp (tx_limit txt)
                           (tx_start txt) st ;;
      for_texts inp txts' st'
  end.

(** [Free((char * )last_index)] leaves the other variables alone. *)
Definition make_forward_references_hash1 (try_calloc : Z -> bool)
           (inp : input) (st : hash_state) : outcome hash_state :=
  st1 <- init_hash_table try_calloc inp st ;;
  for_texts inp (Text inp) st1.

(** *** [clean_forward_references_hash2] *)

(** [hash2(&Token_Array[j])], with the pointer as in [bucket]. *)
Definition hash2_at (inp : input) (sp : list Z) (j : Z) : Z :=
  hash2 sp (fun k => Token_Array inp (j + k)).

(** [while ((j = forward_reference[j]) && hash2(&Token_Array[j]) != h2) {}]:
    the value of [j] when the loop is left. *)
Fixpoint first_with_hash2 (fuel : nat) (inp : input) (st : hash_state)
         (h2 : Z) (j : Z) : outcome Z :=
  let j' := forward_reference st j in
  if (j' =? 0) || (hash2_at inp (sample_pos st) j' =? h2) then Ret j'
  else match fuel with
       | O => OutOfFuel
       | S fuel' => first_with_hash2 fuel' inp st h2 j'
       end.

(** [for (i = 0; i+Min_Run_Size < Token_Array_Length(); i++)], entered
    with the current value of [i]. *)
Fixpoint for_clean (fuel : nat) (inp : input) (i : Z) (st : hash_state)
  : outcome hash_state :=
  if size_t (i + Min_Run_Size inp) <? Token_Array_Length inp then
    match fuel with
    | O => OutOfFuel
    | S fuel' =>
        let h2 := hash2_at inp (sample_pos st) i in
        j <- first_with_hash2 (Z.to_nat (Token_Array_Length inp)) inp st h2 i ;;
        for_clean fuel' inp (size_t (i + 1)) (set_forward_reference st i j)
    end
  else Ret st.

Definition clean_forward_references_hash2 (inp : input) (st : hash_state)
  : outcome hash_state :=
  for_clean (Z.to_nat (Token_Array_Length inp)) inp 0 st.

(** *** The main entries *)

(** The variables before [Make_Forward_References] is called. *)
Definition initial_state : hash_state :=
  mk_hash_state (fun _ => 0) 0 (fun _ => 0) 0 (repeat 0 (Z.to_nat N_SAMPLES)).

(** [Make_Forward_References]; [Calloc] hands out a zeroed block. *)
Definition Make_Forward_References (try_calloc : Z -> bool) (inp : input)
  : outcome hash_state :=
  let st0 :=
    mk_hash_state (fun _ => 0) (Token_Array_Length inp)
                  (last_index initial_state)
                  (last_index_table_size initial_state)
                  (sample_pos initial_state) in
  st1 <- make_forward_references_hash1 try_calloc inp st0 ;;
  clean_forward_references_hash2 inp st1.

(** [Forward_Reference]. *)
Definition Forward_Reference (st : hash_state) (i : Z) : outcome Z :=
  if (i =? 0) || (n_forward_references st <=? i)
  then Fatal "internal error, bad forward reference"
  else Ret (forward_reference st i).

(** *** Notions used to state the properties *)

(** The positions the first sweep threads: [j] lies in a text, its window
    of [Min_Run_Size] tokens ends before the limit of that text, and a
    run may start on its token. *)
Definition window_inside (inp : input) (txts : list text) (j : Z) : bool :=
  existsb (fun txt => (tx_start txt <=? j)
                      && (j + Min_Run_Size inp - 1 <? tx_limit txt))
          txts.

Definition window_in_text (inp : input) (j : Z) : bool :=
  window_inside inp (Text inp) j.

(** The window at [r] ends before [limit], and a run may start at [r]. *)
Definition may_thread (inp : input) (limit r : Z) : Prop :=
  r + Min_Run_Size inp - 1 < limit
  /\ May_Be_Start_Of_Run (Token_Array inp r) = true.

Definition threaded (inp : input) (j : Z) : bool :=
  May_Be_Start_Of_Run (Token_Array inp j) && window_in_text inp j.

(** The windows at [p] and [q] agree under the primary hash, reduced
    modulo the table size, and under the secondary hash. *)
Definition same_bucket (inp : input) (size : Z) (sp : list Z) (p q : Z)
  : bool :=
  bucket inp size sp p =? bucket inp size sp q.

Definition same_hash2 (inp : input) (sp : list Z) (p q : Z) : bool :=
  hash2_at inp sp p =? hash2_at inp sp q.

Definition hash_match (inp : input) (st : hash_state) (p q : Z) : bool :=
  same_bucket inp (last_index_table_size st) (sample_pos st) p q
  && same_hash2 inp (sample_pos st) p q.

(** [q] is what a forward reference of [p] has to be, when [D] holds of
    the positions that take part and [E] tells which windows agree: 0
    when [p] takes no part or no later window agrees with the one of
    [p], and else the first later position whose window agrees. *)
Definition links_to_next (D : Z -> Prop) (E : Z -> Z -> bool) (p q : Z)
  : Prop :=
  (q = 0 /\ (~ D p \/ forall r, D r -> p < r -> E p r = false))
  \/ (q <> 0 /\ D p /\ D q /\ p < q /\ E p q = true
      /\ forall r, D r -> p < r -> r < q -> E p r = false).

(** What holds between two turns of the loops of the first sweep, [D]
    being the positions threaded so far: [last_index[h]] is the last of
    them with hash code [h], and the forward references link each of
    them to the next one with its hash code. *)
Definition threaded_so_far (inp : input) (size : Z) (sp : list Z)
           (D : Z -> Prop) (st : hash_state) : Prop :=
  last_index_table_size st = size
  /\ sample_pos st = sp
  /\ n_forward_references st = Token_Array_Length inp
  /\ (forall h,
         (last_index st h = 0 /\ forall r, D r -> bucket inp size sp r <> h)
         \/ (last_index st h <> 0 /\ D (last_index st h)
             /\ bucket inp size sp (last_index st h) = h
             /\ forall r, D r -> bucket inp size sp r = h ->
                          r <= last_index st h))
  /\ (forall p, links_to_next D (same_bucket inp size sp) p
                              (forward_reference st p)).

(** What holds between two turns of the loop of the second sweep, when
    it is about to treat position [i]: below [i] the forward references
    are final, from [i] on they are those of the first sweep, [fr1]. *)
Definition cleaned_so_far (inp : input) (size : Z) (sp : list Z)
           (D : Z -> Prop) (fr1 : Z -> Z) (i : Z) (st : hash_state) : Prop :=
  last_index_table_size st = size
  /\ sample_pos st = sp
  /\ n_forward_references st = Token_Array_Length inp
  /\ (forall p, p < i ->
                links_to_next D (fun a b => same_bucket inp size sp a b
                                            && same_hash2 inp sp a b)
                              p (forward_reference st p))
  /\ (forall p, i <= p -> forward_reference st p = fr1 p).

(** The chain [fr[p], fr[fr[p]], ...] up to the first 0, followed for at
    most [fuel] links. *)
Fixpoint chain (fuel : nat) (fr : Z -> Z) (p : Z) : list Z :=
  match fuel with
  | O => []
  | S fuel' =>
      let q := fr p in
      if q =? 0 then [] else q :: chain fuel' fr q
  end.

(** The positions [lo], [lo+1], ... ([n] of them). *)
Fixpoint positions_from (lo : Z) (n : nat) : list Z :=
  match n with
  | O => []
  | S n' => lo :: positions_from (lo + 1) n'
  end.

(** The texts lie one after the other in the token store, from position 1
    on, inside [Token_Array[0 .. Token_Array_Length)]. *)
Fixpoint texts_in_order (lo : Z) (txts : list text) (len : Z) : Prop :=
  match txts with
  | [] => lo <= len
  | txt :: txts' =>
      lo <= tx_start txt /\ tx_start txt <= tx_limit txt
      /\ texts_in_order (tx_limit txt) txts' len
  end.

(** The inputs for which the construction is described: the texts in
    order, the token store inside the schedule of primes, and
    [Min_Run_Size] from 1 to 46684427.  Up to 46684427 the product
    [2 * n * (Min_Run_Size - 1) + (N_SAMPLES - 1)] of [init_hash_table]
    stays inside [int] and every sample position lies inside the window,
    so that [p[sample_pos[n]]] is the cell [Token_Array[j + sample_pos[n]]]
    of the window at [j].  Above it the product leaves [int], a sample
    position becomes [2^64 - x], and the program reads
    [Token_Array[j - x]], in front of the window and, for [j < x], in
    front of the array: that case is left out. *)
Definition well_formed (inp : input) : Prop :=
  texts_in_order 1 (Text inp) (Token_Array_Length inp)
  /\ 1 <= Min_Run_Size inp <= 46684427
  /\ Token_Array_Length inp <= last prime 0.

End WithTokens.

(** [simpl] is not to unfold the 24 turns of the hash functions. *)
Arguments hash1 : simpl never.
Arguments hash2 : simpl never.
Arguments hash2_at : simpl never.
Arguments bucket : simpl never.

End Hash.

(** ** [percentages.c] *)

Module Percentages.

(** [struct chunk] and [struct run] ([runs.h]): the fields
    [percentages.c] reads.  A [struct text *] is the index of the text in
    [Text[]]; pointer equality is equality of the indices. *)
Record chunk : Type := mk_chunk { ch_text : nat }.

Record run : Type := mk_run {
  rn_chunk0 : chunk;
  rn_chunk1 : chunk;
  rn_size : Z
}.

(** [*p] for a [struct text *p]. *)
Definition text_at (Text : list text) (p : nat) : text :=
  nth p Text (mk_text 0 0 0).

(** [struct match]; [ma_next] is the tail of the list. *)
Record match_ : Type := mk_match {
  ma_fname0 : Z;
  ma_fname1 : Z;
  ma_size : Z;                          (* # tokens of file 0 found in file 1 *)
  ma_size0 : Z                          (* # tokens in file 0 *)
}.

(** [do_add_to_precentages], on the list that starts at [*match_hook]. *)
Fixpoint do_add_to_precentages (Text : list text) (ch0 ch1 : chunk)
         (size : Z) (ms : list match_) : list match_ :=
  let text0 := text_at Text (ch_text ch0) in
  let text1 := text_at Text (ch_text ch1) in
  match ms with
  | m :: ms' =>
      if (ma_fname0 m =? tx_fname text0) && (ma_fname1 m =? tx_fname text1)
      then mk_match (ma_fname0 m) (ma_fname1 m)
                    (size_t (ma_size m + size)) (ma_size0 m) :: ms'
      else m :: do_add_to_precentages Text ch0 ch1 size ms'
  | [] =>
      [ mk_match (tx_fname text0) (tx_fname text1) size
                 (size_t (tx_limit text0 - tx_start text0)) ]
  end.

(** [add_to_percentages]: from [match_start] to [match_start]. *)
Definition add_to_percentages (Text : list text) (r : run)
           (match_start : list match_) : list match_ :=
  if Nat.eqb (ch_text (rn_chunk0 r)) (ch_text (rn_chunk1 r)) then match_start
  else
    do_add_to_precentages Text (rn_chunk1 r) (rn_chunk0 r) (rn_size r)
      (do_add_to_precentages Text (rn_chunk0 r) (rn_chunk1 r) (rn_size r)
         match_start).

(** *** Printing *)

(** [float] is IEEE binary32 and [double] IEEE binary64, both rounding to
    nearest even; an expression is evaluated in the precision of its
    type. *)
Definition float_of_size_t (z : Z) : spec_float :=
  binary_normalize 24 128 z 0 false.

Definition double_of_int (z : Z) : spec_float :=
  binary_normalize 53 1024 z 0 false.

(** [(int)x] for a [double] [x]: the fraction is dropped.  Outside the
    range of [int] the conversion is undefined in ISO C; the embedding
    gives it the value the usual conversion instruction delivers,
    [INT_MIN]. *)
Definition int_of_double (x : spec_float) : Z :=
  match x with
  | S754_zero _ => 0
  | S754_finite s m e =>
      let t := if 0 <=? e then Z.pos m * 2 ^ e
               else Z.pos m / 2 ^ (- e) in
      let r := if s then - t else t in
      if (INT_MIN <=? r) && (r <=? INT_MAX) then r else INT_MIN
  | _ => INT_MIN
  end.

(** [match_percentage]. *)
Definition match_percentage (m : match_) : spec_float :=
  SFdiv 24 128 (float_of_size_t (ma_size m)) (float_of_size_t (ma_size0 m)).

(** A line ["%s consists for %d %% of %s material\n"] on [Output_File]. *)
Record line : Type := mk_line {
  ln_fname0 : Z;
  ln_percentage : Z;
  ln_fname1 : Z
}.

(** [(int)(match_percentage(m)*100.0)], the first value of [mp]: the
    [float] is promoted to [double] and multiplied there. *)
Definition truncated_percentage (m : match_) : Z :=
  int_of_double (SFmul 53 1024 (match_percentage m) (double_of_int 100)).

(** [print_perc_info]: what it writes. *)
Definition print_perc_info (Threshold_Percentage : Z) (m : match_)
  : list line :=
  let mp := truncated_percentage m in
  let mp := if 100 <? mp then 100 else mp in
  if Threshold_Percentage <=? mp
  then [ mk_line (ma_fname0 m) mp (ma_fname1 m) ]
  else [].

(** The [while] loop of [print_and_remove_perc_info_for_top_file], on the
    list that starts at [*m_hook]: what it writes and the list it leaves.
    [option_P] is [is_set_option('P')]. *)
Fixpoint remove_contributors (Threshold_Percentage : Z) (option_P : bool)
         (fname : Z) (ms : list match_) : list line * list match_ :=
  match ms with
  | [] => ([], [])
  | m :: ms' =>
      let (out, kept) :=
        remove_contributors Threshold_Percentage option_P fname ms' in
      if ma_fname0 m =? fname then
        ((if option_P then [] else print_perc_info Threshold_Percentage m)
           ++ out, kept)
      else (out, m :: kept)
  end.

(** [print_and_remove_perc_info_for_top_file]; it is called on a list
    that is not empty. *)
Definition print_and_remove_perc_info_for_top_file
           (Threshold_Percentage : Z) (option_P : bool) (ms : list match_)
  : list line * list match_ :=
  match ms with
  | [] => ([], [])
  | m :: ms' =>
      let (out, kept) :=
        remove_contributors Threshold_Percentage option_P (ma_fname0 m) ms' in
      (print_perc_info Threshold_Percentage m ++ out, kept)
  end.

(** [while (match_start) ...] of [print_percentages]: what is written and
    the value of [match_start] at the end. *)
Fixpoint print_loop (fuel : nat) (Threshold_Percentage : Z)
         (option_P : bool) (match_start : list match_)
  : list line * list match_ :=
  match match_start, fuel with
  | [], _ => ([], [])
  | _, O => ([], match_start)
  | _, S fuel' =>
      let (out, kept) :=
        print_and_remove_perc_info_for_top_file
          Threshold_Percentage option_P match_start in
      let (out', final) :=
        print_loop fuel' Threshold_Percentage option_P kept in
      (out ++ out', final)
  end.

Definition print_percentages (Threshold_Percentage : Z) (option_P : bool)
           (match_start : list match_) : list line * list match_ :=
  print_loop (List.length match_start) Threshold_Percentage option_P match_start.

(** [Show_Percentages]; [sort_match_list] is the instance of
    [sortlist.bdy], which is not among the files at hand. *)
Definition Show_Percentages (sort_match_list : list match_ -> list match_)
           (Threshold_Percentage : Z) (option_P : bool)
           (match_start : list match_) : list line * list match_ :=
  print_percentages Threshold_Percentage option_P
                    (sort_match_list match_start).

(** *** Notions used to state the properties *)

(** The line [ln] shows the record [m]: its two names, and as percentage
    the capped value of [mp], which is not below the threshold. *)
Definition shows_record (Threshold_Percentage : Z) (m : match_) (ln : line)
  : Prop :=
  ln = mk_line (ma_fname0 m) (Z.min 100 (truncated_percentage m)) (ma_fname1 m)
  /\ Threshold_Percentage <= ln_percentage ln <= 100.

(** The record of the combination [(fname0, fname1)] that the look-up of
    [do_add_to_precentages] reaches, if there is one. *)
Definition has_names (fname0 fname1 : Z) (m : match_) : bool :=
  (ma_fname0 m =? fname0) && (ma_fname1 m =? fname1).

Definition find_match (ms : list match_) (fname0 fname1 : Z)
  : option match_ :=
  find (has_names fname0 fname1) ms.

End Percentages.

(** ** [sim.c]: the options *)

Module Sim.

(** The state [do_options] leaves ([options.c] is not among the files at
    hand): the options that are set and the strings of the value
    options, [None] for a null pointer. *)
Record options : Type := mk_options {
  set_options : list ascii;
  min_run_string : option string;
  page_width_string : option string;
  threshold_string : option string;
  output_name : option string
}.

Definition is_set_option (c : ascii) (os : options) : bool :=
  existsb (Ascii.eqb c) (set_options os).

Definition set_option (c : ascii) (os : options) : options :=
  mk_options (c :: set_options os) (min_run_string os)
             (page_width_string os) (threshold_string os) (output_name os).

(** [atoi] of the C library: white space, an optional sign, decimal
    digits up to the first character that is none. *)
Definition is_space (c : ascii) : bool :=
  let n := nat_of_ascii c in
  (Nat.eqb n 32 || (Nat.leb 9 n && Nat.leb n 13))%bool.

Definition digit_of (c : ascii) : option Z :=
  let n := Z.of_nat (nat_of_ascii c) in
  if (48 <=? n) && (n <=? 57) then Some (n - 48) else None.

Fixpoint skip_spaces (s : string) : string :=
  match s with
  | String c s' => if is_space c then skip_spaces s' else s
  | EmptyString => s
  end.

Fixpoint atoi_digits (acc : Z) (s : string) : Z :=
  match s with
  | String c s' =>
      match digit_of c with
      | Some d => atoi_digits (10 * acc + d) s'
      | None => acc
      end
  | EmptyString => acc
  end.

Definition atoi (s : string) : Z :=
  int32
    match skip_spaces s with
    | String "-"%char s' => - atoi_digits 0 s'
    | String "+"%char s' => atoi_digits 0 s'
    | s' => atoi_digits 0 s'
    end.

(** [allow_at_most_one_out_of]: the inner loop, then the outer one. *)
Fixpoint incompatible_with (os : options) (first : ascii)
         (seconds : list ascii) : outcome unit :=
  match seconds with
  | [] => Ret tt
  | second :: seconds' =>
      if is_set_option first os && is_set_option second os
      then Fatal ("options -" ++ String first " and -"
                              ++ String second " are incompatible")
      else incompatible_with os first seconds'
  end.

Fixpoint allow_at_most_one_out_of (opts : list ascii) (os : options)
  : outcome unit :=
  match opts with
  | [] => Ret tt
  | first :: opts' =>
      _ <- incompatible_with os first opts' ;;
      allow_at_most_one_out_of opts' os
  end.

(** The parameters [main] has set when the real work starts. *)
Record parameters : Type := mk_parameters {
  Min_Run_Size : Z;
  Page_Width : Z;
  Threshold_Percentage : Z;
  final_options : options
}.

(** How [main] leaves its first part ("Here the real work starts"):
    either it has returned 0 after printing the version, or it goes on to
    read and compare the files. *)
Inductive start : Type :=
| Version_Shown
| Real_Work (ps : parameters).

(** "Treat the value options": a string that is present is converted and
    checked. *)
Definition value_option (s : option string) (default : Z)
           (bad : Z -> bool) (msg : string) : outcome Z :=
  match s with
  | None => Ret default
  | Some str => let v := atoi str in if bad v then Fatal msg else Ret v
  end.

(** [main], up to the real work.  [DEFAULT_MIN_RUN_SIZE] and
    [DEFAULT_PAGE_WIDTH] come from [settings.par]; [argc] counts the
    arguments left after the options; [fopen_ok] tells whether the
    output file can be opened. *)
Definition main (DEFAULT_MIN_RUN_SIZE DEFAULT_PAGE_WIDTH : Z)
           (os : options) (argc : Z) (fopen_ok : bool) : outcome start :=
  (* Check options compatibility *)
  _ <- allow_at_most_one_out_of
         ["d"; "n"; "p"; "P"; "T"]%char os ;;
  _ <- (if is_set_option "t" os
           && negb (is_set_option "p" os) && negb (is_set_option "P" os)
        then Fatal "option -t requires -p or -P" else Ret tt) ;;
  (* Treat the simple options *)
  if is_set_option "v" os then Ret Version_Shown
  else
    let os := if is_set_option "P" os then set_option "p" os else os in
    let os := if is_set_option "p" os
              then set_option "s" (set_option "e" os) else os in
    (* Treat the value options *)
    mrs <- value_option (min_run_string os) DEFAULT_MIN_RUN_SIZE
             (fun v => v =? 0) "bad or zero run size; form is: -r N" ;;
    pw <- value_option (page_width_string os) DEFAULT_PAGE_WIDTH
             (fun v => v <=? 0) "bad or zero page width" ;;
    th <- value_option (threshold_string os) 1
             (fun v => (100 <? v) || (v <=? 0))
             "threshold must be between 1 and 100" ;;
    _ <- match output_name os with
         | Some name =>
             if fopen_ok then Ret tt
             else Fatal ("cannot open output file `" ++ name ++ "'")
         | None => Ret tt
         end ;;
    (* Treat the input-determining options *)
    _ <- (if is_set_option "i" os && negb (argc =? 0)
          then Fatal "-i option conflicts with file arguments"
          else Ret tt) ;;
    Ret (Real_Work (mk_parameters mrs pw th os)).

End Sim.

(** ** Concrete instances and inputs *)

Module Examples.
Import Hash.

(** Tokens of 16 bits; a run may start on each of them but 59, a
    semicolon; a [vlong_uint] of 64 bits. *)
#[export] Instance short_tokens : TokenInterface := {|
  Token := Z;
  Token2int := fun tk => tk mod 2 ^ 16;
  May_Be_Start_Of_Run := fun tk => negb (tk =? 59);
  VLONG_W := 64
|}.

(** The token store that holds [l], the sentinel included. *)
Definition store (l : list Z) : Z -> Z :=
  fun i => if i <? 0 then 0 else nth (Z.to_nat i) l 0.

(** Two texts, [5 6 5] and [6 5 6], with [Min_Run_Size = 2]. *)
Definition two_texts : input :=
  mk_input (store [0; 5; 6; 5; 6; 5; 6]) 7
           [mk_text 1000 1 4; mk_text 2000 4 7] 2.

(** One text, [59 5 59 5 7], with [Min_Run_Size = 2]. *)
Definition one_text : input :=
  mk_input (store [0; 59; 5; 59; 5; 7]) 6 [mk_text 1000 1 6] 2.

(** [&Token_Array[1]]. *)
Definition first_window : Z -> Token :=
  fun k => Token_Array two_texts (1 + k).

(** [TryCalloc] always obtains its block. *)
Definition plenty : Z -> bool := fun _ => true.

(** The variables of [hash.c] once [Make_Forward_References] has
    returned on [two_texts]. *)
Definition two_texts_state : hash_state :=
  match Make_Forward_References plenty two_texts with
  | Ret st => st
  | _ => initial_state
  end.

Definition one_text_state : hash_state :=
  match Make_Forward_References plenty one_text with
  | Ret st => st
  | _ => initial_state
  end.

(** A run of 3 tokens between the two texts, and one inside the first. *)
Definition run_between : Percentages.run :=
  Percentages.mk_run (Percentages.mk_chunk 0) (Percentages.mk_chunk 1) 3.

Definition run_inside : Percentages.run :=
  Percentages.mk_run (Percentages.mk_chunk 0) (Percentages.mk_chunk 0) 3.

(** A file of 100 tokens, 29 of which are found in another file. *)
Definition twenty_nine_of_100 : Percentages.match_ :=
  Percentages.mk_match 1000 2000 29 100.

End Examples.

(** ** [db_forward_reference_check]: the check of the chains *)

(** [db_frw_chain] and [db_forward_reference_check] are compiled under
    [DB_FORW_REF].  What they write to [Debug_File] is kept as the list of
    the lines that report an error; [Calloc] hands out the zeroed array
    [crossed_out]. *)

Module HashDebug.
Import Hash.

(** What [db_forward_reference_check] works on and writes: the array
    [crossed_out], the lines that report an error, and the two counts of
    the last line. *)
Record db_check : Type := mk_db_check {
  crossed_out : Z -> Z;
  complaints : list string;
  n_frw_chains : Z;
  tot_frwc_len : Z
}.

(** The [for] loop of [db_frw_chain], entered with the current [fw]. *)
Fixpoint db_frw_loop (fuel : nat) (fr : Z -> Z) (fw : Z)
         (crossed : Z -> Z) (lines : list string) (n_entries : Z)
  : outcome ((Z -> Z) * list string * Z) :=
  if fw =? 0 then Ret (crossed, lines, n_entries)
  else match fuel with
       | O => OutOfFuel
       | S fuel' =>
           let lines' :=
             if crossed fw =? 0 then lines
             else lines ++ [">>>> error: forward references cross <<<<"%string] in
           db_frw_loop fuel' fr (fr fw) (upd crossed fw 1) lines'
                       (size_t (n_entries + 1))
       end.

(** [db_frw_chain]: the array and the lines after the call, and the chain
    length returned. *)
Definition db_frw_chain (st : hash_state) (n : Z) (crossed : Z -> Z)
           (lines : list string) : outcome ((Z -> Z) * list string * Z) :=
  if forward_reference st n =? 0 then
    Ret (crossed,
         lines ++ [">>>> db_frw_chain() forward_reference[n] == 0 <<<<"%string],
         0)
  else
    r <- db_frw_loop (Z.to_nat (n_forward_references st))
                     (forward_reference st) n crossed lines 0 ;;
    let '(crossed', lines', n_entries) := r in
    Ret (crossed', lines', size_t (n_entries - 1)).

(** [for (n = 1; n < Token_Array_Length(); n++)] of
    [db_forward_reference_check], entered with the current [n]. *)
Fixpoint db_check_loop (fuel : nat) (st : hash_state) (len : Z) (n : Z)
         (chk : db_check) : outcome db_check :=
  if n <? len then
    match fuel with
    | O => OutOfFuel
    | S fuel' =>
        if negb (forward_reference st n =? 0) && (crossed_out chk n =? 0) then
          r <- db_frw_chain st n (crossed_out chk) (complaints chk) ;;
          let '(crossed', lines', chain_length) := r in
          db_check_loop fuel' st len (size_t (n + 1))
                        (mk_db_check crossed' lines'
                                     (size_t (n_frw_chains chk + 1))
                                     (size_t (tot_frwc_len chk + chain_length)))
        else db_check_loop fuel' st len (size_t (n + 1)) chk
    end
  else Ret chk.

(** [db_forward_reference_check]; [len] is [Token_Array_Length()]. *)
Definition db_forward_reference_check (st : hash_state) (len : Z)
  : outcome db_check :=
  let lines :=
    if forward_reference st 0 =? 0 then []
    else [">>>> forward_reference[0] is not zero <<<<"%string] in
  db_check_loop (Z.to_nat len) st len 1 (mk_db_check (fun _ => 0) lines 0 0).

(** [x] lies on the chain that starts at [a], [a] included. *)
Inductive on_chain (fr : Z -> Z) (a : Z) : Z -> Prop :=
| chain_start : on_chain fr a a
| chain_next (y : Z) : on_chain fr a y -> fr y <> 0 -> on_chain fr a (fr y).

(** The number of positions [1 <= x < len] of which [f] holds. *)
Definition count_positions (f : Z -> bool) (len : Z) : Z :=
  Z.of_nat (List.length (filter f (positions_from 1 (Z.to_nat (len - 1))))).

(** The positions crossed out that have a forward reference, and those
    that have none. *)
Definition is_link (fr crossed : Z -> Z) (x : Z) : bool :=
  negb (crossed x =? 0) && negb (fr x =? 0).

Definition is_end (fr crossed : Z -> Z) (x : Z) : bool :=
  negb (crossed x =? 0) && (fr x =? 0).

(** What holds of [crossed_out] and the counts when the loop of
    [db_forward_reference_check] comes to [n]. *)
Definition crossed_below (fr : Z -> Z) (len n : Z) (chk : db_check) : Prop :=
  complaints chk = []
  /\ (forall x, crossed_out chk x <> 0 ->
                exists a, 1 <= a < n /\ fr a <> 0 /\ on_chain fr a x)
  /\ (forall a x, 1 <= a < n -> fr a <> 0 -> on_chain fr a x ->
                  crossed_out chk x <> 0)
  /\ tot_frwc_len chk = count_positions (is_link fr (crossed_out chk)) len
  /\ n_frw_chains chk = count_positions (is_end fr (crossed_out chk)) len.

End HashDebug.

(** ** Runs added one after the other *)

Module Aggregation.
Import Percentages.

(** The runs [rs] handed to [add_to_percentages] one after the other. *)
Definition add_runs (Text : list text) (rs : list run) (ms : list match_)
  : list match_ :=
  fold_left (fun ms r => add_to_percentages Text r ms) rs ms.

(** The two file names of a record. *)
Definition names (m : match_) : Z * Z := (ma_fname0 m, ma_fname1 m).

(** The two directions carry the same number of tokens. *)
Definition same_both_ways (ms : list match_) : Prop :=
  forall f0 f1,
    option_map ma_size (find_match ms f0 f1)
    = option_map ma_size (find_match ms f1 f0).

End Aggregation.

(** ** The order of the lines *)

Module Printing.
Import Percentages.

(** The first file names of the records that are not in [seen], each
    once, in the order in which they first occur in the list. *)
Fixpoint top_files_from (seen : list Z) (ms : list match_) : list Z :=
  match ms with
  | [] => []
  | m :: ms' =>
      if existsb (Z.eqb (ma_fname0 m)) seen then top_files_from seen ms'
      else ma_fname0 m :: top_files_from (ma_fname0 m :: seen) ms'
  end.

Definition top_files (ms : list match_) : list Z := top_files_from [] ms.

(** The records of the file [f] that are shown: all of them in the order
    of the list, or the first one only under [-P]. *)
Definition records_shown (option_P : bool) (f : Z) (ms : list match_)
  : list match_ :=
  let rs := filter (fun r => ma_fname0 r =? f) ms in
  if option_P then firstn 1 rs else rs.

(** The record [r] is of none of the files in [seen]. *)
Definition unseen (seen : list Z) (r : match_) : bool :=
  negb (existsb (Z.eqb (ma_fname0 r)) seen).

End Printing.

(** ** More inputs *)

Module MoreExamples.
Import Hash Examples.

(** One text of two tokens, [5 6], with [Min_Run_Size = 4]: the text is
    shorter than a window. *)
Definition short_text : input :=
  mk_input (store [0; 5; 6]) 3 [mk_text 1000 1 3] 4.

(** [TryCalloc] obtains every block but one of 14051 entries, the
    smallest table. *)
Definition no_small_block : Z -> bool := fun size => negb (size =? 14051).

(** [sim -P -t 25 -r 10 a b]. *)
Definition percent_options : Sim.options :=
  Sim.mk_options ["P"; "t"]%char (Some "10"%string) None (Some "25"%string)
                 None.

Definition percent_parameters : Sim.parameters :=
  Sim.mk_parameters
    10 80 25
    (Sim.set_option "s" (Sim.set_option "e" (Sim.set_option "p" percent_options))).

(** [sim -v -r 0]. *)
Definition version_options : Sim.options :=
  Sim.mk_options ["v"]%char (Some "0"%string) None None None.

(** [sim -v -d -n]. *)
Definition conflicting_options : Sim.options :=
  Sim.mk_options ["v"; "d"; "n"]%char None None None None.

(** [sim -v -t 25]. *)
Definition threshold_only_options : Sim.options :=
  Sim.mk_options ["v"; "t"]%char None None (Some "25"%string) None.

End MoreExamples.

(* ================================================================== *)
(** * Part II: properties *)
(* ================================================================== *)

(** ** Machine integers *)

Lemma size_t_small (z : Z) : 0 <= z < 2 ^ 64 -> size_t z = z.
Proof. intros H. unfold size_t. now apply Z.mod_small. Qed.

Lemma int32_small (z : Z) : INT_MIN <= z <= INT_MAX -> int32 z = z.
Proof.
  unfold int32, INT_MIN, INT_MAX. intros H.
  rewrite Z.mod_small; lia.
Qed.

Lemma upd_same (a : Z -> Z) (i v : Z) : upd a i v i = v.
Proof. unfold upd. now rewrite Z.eqb_refl. Qed.

Lemma upd_other (a : Z -> Z) (i v k : Z) : k <> i -> upd a i v k = a k.
Proof. unfold upd. intros H. apply Z.eqb_neq in H. now rewrite H. Qed.

(** A natural number below [2^n] has no bit at [n] or above. *)
Lemma below_pow2_shiftr (x n : Z) :
  0 <= n -> 0 <= x -> (x < 2 ^ n <-> Z.shiftr x n = 0).
Proof.
  intros Hn Hx. rewrite Z.shiftr_div_pow2 by assumption.
  assert (0 < 2 ^ n) by (apply Z.pow_pos_nonneg; lia).
  split; intros H1.
  - apply Z.div_small. lia.
  - apply Z.div_small_iff in H1; lia.
Qed.

Lemma lxor_below_pow2 (a b n : Z) :
  0 <= n -> 0 <= a < 2 ^ n -> 0 <= b < 2 ^ n -> 0 <= Z.lxor a b < 2 ^ n.
Proof.
  intros Hn [Ha0 Ha] [Hb0 Hb].
  assert (H0 : 0 <= Z.lxor a b) by (apply Z.lxor_nonneg; tauto).
  split; [exact H0|].
  apply below_pow2_shiftr; try assumption.
  rewrite Z.shiftr_lxor.
  apply below_pow2_shiftr in Ha; try assumption.
  apply below_pow2_shiftr in Hb; try assumption.
  now rewrite Ha, Hb.
Qed.

(** ** [hash1]: the left-most bit *)

Section Hash1.
Import Hash.
Context {TI : TokenInterface}.

Lemma hash1_step_below (h tk : Z) :
  0 <= h < 2 ^ 31 -> 0 <= tk < 2 ^ 31 -> 0 <= hash1_step h tk < 2 ^ 31.
Proof.
  intros Hh Htk. unfold hash1_step, uint32, HASH_W.
  change (Z.shiftl 1 (32 - 1)) with (2 ^ 31).
  rewrite Z.shiftl_mul_pow2 by lia. change (2 ^ 1) with 2.
  rewrite (Z.mod_small (h * 2)) by lia.
  rewrite (Z.mod_small tk) by lia.
  set (h1 := h * 2).
  assert (Hrot : 0 <=
    (if Z.land h1 (2 ^ 31) =? 0 then h1
     else Z.lxor h1 (Z.lor (2 ^ 31) 1) mod 2 ^ 32) < 2 ^ 31).
  { destruct (Z.land h1 (2 ^ 31) =? 0) eqn:Hbit.
    - (* bit 31 of h1 is clear *)
      apply Z.eqb_eq in Hbit.
      destruct (Z_lt_ge_dec h1 (2 ^ 31)) as [Hlt|Hge]; [subst h1; lia|].
      exfalso.
      assert (Ht : Z.testbit (Z.land h1 (2 ^ 31)) 31 = true).
      { rewrite Z.land_spec, Z.pow2_bits_true by lia.
        rewrite andb_true_r. apply Z.testbit_true; [lia|].
        replace (h1 / 2 ^ 31) with 1; [reflexivity|].
        apply Z.div_unique with (r := h1 - 2 ^ 31); subst h1; lia. }
      rewrite Hbit, Z.bits_0 in Ht. discriminate.
    - (* bit 31 of h1 is set: it moves to the end *)
      apply Z.eqb_neq in Hbit.
      destruct (Z_lt_ge_dec h1 (2 ^ 31)) as [Hlt|Hge].
      + exfalso. apply Hbit. apply Z.bits_inj'. intros n Hn.
        rewrite Z.land_spec, Z.bits_0.
        destruct (Z.eq_dec n 31) as [->|Hne].
        * assert (Hs : Z.shiftr h1 31 = 0)
            by (apply below_pow2_shiftr; subst h1; lia).
          replace (Z.testbit h1 31) with (Z.testbit (Z.shiftr h1 31) 0)
            by (rewrite Z.shiftr_spec by lia; reflexivity).
          now rewrite Hs.
        * rewrite Z.pow2_bits_false by lia. apply andb_false_r.
      + assert (Hx : 0 <= Z.lxor h1 (Z.lor (2 ^ 31) 1) < 2 ^ 31).
        { assert (0 <= Z.lxor h1 (Z.lor (2 ^ 31) 1))
            by (apply Z.lxor_nonneg; change (Z.lor (2 ^ 31) 1) with 2147483649;
                subst h1; lia).
          split; [assumption|].
          apply below_pow2_shiftr; [lia|assumption|].
          rewrite Z.shiftr_lxor.
          change (Z.shiftr (Z.lor (2 ^ 31) 1) 31) with 1.
          replace (Z.shiftr h1 31) with 1; [reflexivity|].
          rewrite Z.shiftr_div_pow2 by lia.
          apply Z.div_unique with (r := h1 - 2 ^ 31); subst h1; lia. }
        rewrite Z.mod_small; lia. }
  set (h2 := if Z.land h1 (2 ^ 31) =? 0 then h1
             else Z.lxor h1 (Z.lor (2 ^ 31) 1) mod 2 ^ 32) in *.
  pose proof (lxor_below_pow2 h2 tk 31 ltac:(lia) Hrot Htk) as Hx.
  rewrite Z.mod_small; lia.
Qed.

Lemma hash1_loop_below (f : nat -> Z) (ns : list nat) (h : Z) :
  (forall n, 0 <= f n < 2 ^ 31) ->
  0 <= h < 2 ^ 31 ->
  0 <= fold_left (fun h_val n => hash1_step h_val (f n)) ns h < 2 ^ 31.
Proof.
  intros Hf. revert h.
  induction ns as [|n ns IH]; intros h Hh; simpl; [exact Hh|].
  apply IH. now apply hash1_step_below.
Qed.

(** C7.  When [Token2int] yields values of at most 31 bits, as the small
    integers that tokens are do, [hash1] returns a value below
    [2^(HASH_W-1)]: its bit [HASH_W-1] is 0, whatever the tokens and the
    sample positions. *)
Theorem hash1_top_bit_clear (sp : list Z) (p : Z -> Token) :
  (forall tk : Token, 0 <= Token2int tk < 2 ^ 31) ->
  0 <= hash1 sp p < 2 ^ (HASH_W - 1)
  /\ Z.testbit (hash1 sp p) (HASH_W - 1) = false.
Proof.
  intros Hsmall.
  assert (Hb : 0 <= hash1 sp p < 2 ^ 31).
  { unfold hash1.
    pose proof (hash1_loop_below
                  (fun n => Token2int (p (nth n sp 0)))
                  (seq 0 (Z.to_nat N_SAMPLES)) 0
                  (fun n => Hsmall _) ltac:(lia)) as H.
    rewrite size_t_small; lia. }
  split; [exact Hb|].
  unfold HASH_W. change (32 - 1) with 31.
  replace (Z.testbit (hash1 sp p) 31)
    with (Z.testbit (Z.shiftr (hash1 sp p) 31) 0)
    by (rewrite Z.shiftr_spec by lia; reflexivity).
  assert (Hs : Z.shiftr (hash1 sp p) 31 = 0)
    by (apply below_pow2_shiftr; lia).
  now rewrite Hs.
Qed.

End Hash1.

(** The 16-bit tokens of [Examples] satisfy the hypothesis of
    [hash1_top_bit_clear]. *)
Lemma hash1_top_bit_clear_witness :
  0 <= Hash.hash1 (Hash.sample_positions 2) Examples.first_window
    < 2 ^ (Hash.HASH_W - 1)
  /\ Z.testbit (Hash.hash1 (Hash.sample_positions 2) Examples.first_window)
               (Hash.HASH_W - 1) = false.
Proof.
  apply (@hash1_top_bit_clear Examples.short_tokens).
  intros tk. simpl.
  pose proof (Z.mod_pos_bound tk (2 ^ 16) ltac:(lia)). lia.
Defined.

(** ** [init_hash_table]: the sample positions *)

Section SamplePositions.
Import Hash.

Lemma sample_positions_length (mrs : Z) :
  List.length (sample_positions mrs) = Z.to_nat N_SAMPLES.
Proof. unfold sample_positions. now rewrite length_map, length_seq. Qed.

(** As long as [2*n*(Min_Run_Size-1) + (N_SAMPLES-1)] fits in an [int],
    that is up to [Min_Run_Size = 46684427], the position is the one of
    the formula and lies in the window. *)
Lemma sample_position_in_window (mrs n : Z) :
  1 <= mrs <= 46684427 -> 0 <= n < N_SAMPLES ->
  sample_position mrs n
  = (2 * n * (mrs - 1) + (N_SAMPLES - 1)) / (2 * (N_SAMPLES - 1))
  /\ 0 <= sample_position mrs n < mrs.
Proof.
  unfold N_SAMPLES. intros Hm Hn.
  assert (Hq : 0 <= (2 * n * (mrs - 1) + 23) / 46 < mrs).
  { split.
    - apply Z.div_pos; nia.
    - apply Z.div_lt_upper_bound; nia. }
  unfold sample_position, int_div, N_SAMPLES.
  change (2 * (24 - 1)) with 46. change (24 - 1) with 23.
  rewrite (int32_small (2 * n)) by (unfold INT_MIN, INT_MAX; lia).
  rewrite (int32_small (mrs - 1)) by (unfold INT_MIN, INT_MAX; lia).
  rewrite (int32_small (2 * n * (mrs - 1)))
    by (unfold INT_MIN, INT_MAX; nia).
  rewrite (int32_small (2 * n * (mrs - 1) + 23))
    by (unfold INT_MIN, INT_MAX; nia).
  rewrite (int32_small 46) by (unfold INT_MIN, INT_MAX; lia).
  rewrite Z.quot_div_nonneg by nia.
  rewrite int32_small by (unfold INT_MIN, INT_MAX; lia).
  rewrite size_t_small by lia.
  split; [reflexivity|exact Hq].
Qed.

(** C8, at [Min_Run_Size = 50000000]: there are 24 sample positions, but
    for [n = 23] the product [2*n*(Min_Run_Size-1)] leaves the range of
    [int]; the position stored is neither the one of the formula,
    49999999, nor inside the window. *)
Theorem sample_positions_int_overflow :
  List.length (sample_positions 50000000) = 24%nat
  /\ (2 * 23 * (50000000 - 1) + (N_SAMPLES - 1)) / (2 * (N_SAMPLES - 1))
     = 49999999
  /\ nth 23 (sample_positions 50000000) 0 = 18446744073666182762
  /\ ~ nth 23 (sample_positions 50000000) 0 < 50000000.
Proof.
  repeat split; try reflexivity.
  vm_compute. intros H. discriminate H.
Qed.

End SamplePositions.

(** ** [Forward_Reference]: the range check *)

Section Query.
Import Hash.
Context {TI : TokenInterface}.

(** C10.  [Forward_Reference(i)] is fatal for [i = 0] and for
    [i >= n_forward_references]; for [1 <= i < n_forward_references] it
    returns [forward_reference[i]]. *)
Theorem Forward_Reference_range (st : hash_state) (i : Z) :
  (i = 0 \/ n_forward_references st <= i ->
   Forward_Reference st i = Fatal "internal error, bad forward reference")
  /\ (1 <= i < n_forward_references st ->
      Forward_Reference st i = Ret (forward_reference st i)).
Proof.
  unfold Forward_Reference. split.
  - intros [->|Hge].
    + reflexivity.
    + apply Z.leb_le in Hge. rewrite Hge. now rewrite orb_true_r.
  - intros [Hlo Hhi].
    assert (H0 : (i =? 0) = false) by (apply Z.eqb_neq; lia).
    assert (Hn : (n_forward_references st <=? i) = false)
      by (apply Z.leb_gt; lia).
    now rewrite H0, Hn.
Qed.

End Query.

(** ** [main]: the check of the run size *)

Section RunSizeOption.
Import Sim.

(** The test on the run size lets every value but 0 through. *)
Lemma run_size_check (s : string) (default : Z) :
  atoi s <> 0 ->
  value_option (Some s) default (fun v => v =? 0)
               "bad or zero run size; form is: -r N"
  = Ret (atoi s).
Proof.
  intros H. unfold value_option. apply Z.eqb_neq in H. now rewrite H.
Qed.

(** The tests on the page width and on the threshold refuse every value
    that is not positive. *)
Lemma page_width_check (s : string) (default : Z) :
  atoi s <= 0 ->
  value_option (Some s) default (fun v => v <=? 0) "bad or zero page width"
  = Fatal "bad or zero page width".
Proof.
  intros H. unfold value_option. apply Z.leb_le in H. now rewrite H.
Qed.

(** C6, at [-r -5]: [main] reports no error and goes on to the real work
    with [Min_Run_Size = -5], whereas [-r 0] is fatal, and so is the
    negative page width of [-w -5]. *)
Theorem main_accepts_negative_run_size
        (DEFAULT_MIN_RUN_SIZE DEFAULT_PAGE_WIDTH argc : Z) (fopen_ok : bool) :
  let r_minus_5 := mk_options [] (Some "-5"%string) None None None in
  let r_zero := mk_options [] (Some "0"%string) None None None in
  let w_minus_5 := mk_options [] None (Some "-5"%string) None None in
  main DEFAULT_MIN_RUN_SIZE DEFAULT_PAGE_WIDTH r_minus_5 argc fopen_ok
  = Ret (Real_Work (mk_parameters (-5) DEFAULT_PAGE_WIDTH 1 r_minus_5))
  /\ main DEFAULT_MIN_RUN_SIZE DEFAULT_PAGE_WIDTH r_zero argc fopen_ok
     = Fatal "bad or zero run size; form is: -r N"
  /\ main DEFAULT_MIN_RUN_SIZE DEFAULT_PAGE_WIDTH w_minus_5 argc fopen_ok
     = Fatal "bad or zero page width".
Proof.
  repeat split.
Qed.

End RunSizeOption.

(** ** [percentages.c]: adding a run *)

Section AddToPercentages.
Import Percentages.

Variable Text : list text.

Lemma has_names_eq (f0 f1 : Z) (m : match_) :
  has_names f0 f1 m = true <-> ma_fname0 m = f0 /\ ma_fname1 m = f1.
Proof.
  unfold has_names. rewrite andb_true_iff, !Z.eqb_eq. tauto.
Qed.

(** The look-up of the combination that [do_add_to_precentages] serves. *)
Lemma do_add_find_same (ch0 ch1 : chunk) (size : Z) (ms : list match_) :
  let text0 := text_at Text (ch_text ch0) in
  let text1 := text_at Text (ch_text ch1) in
  find_match (do_add_to_precentages Text ch0 ch1 size ms)
             (tx_fname text0) (tx_fname text1)
  = Some match find_match ms (tx_fname text0) (tx_fname text1) with
         | Some m => mk_match (ma_fname0 m) (ma_fname1 m)
                              (size_t (ma_size m + size)) (ma_size0 m)
         | None => mk_match (tx_fname text0) (tx_fname text1) size
                            (size_t (tx_limit text0 - tx_start text0))
         end.
Proof.
  intros text0 text1. unfold find_match.
  induction ms as [|m ms IH]; simpl.
  - fold text0 text1. unfold has_names. simpl. now rewrite !Z.eqb_refl.
  - fold text0 text1.
    change ((ma_fname0 m =? tx_fname text0) && (ma_fname1 m =? tx_fname text1))
      with (has_names (tx_fname text0) (tx_fname text1) m).
    destruct (has_names (tx_fname text0) (tx_fname text1) m) eqn:Hm; simpl.
    + assert (Hk : has_names (tx_fname text0) (tx_fname text1)
                     (mk_match (ma_fname0 m) (ma_fname1 m)
                               (size_t (ma_size m + size)) (ma_size0 m)) = true)
        by exact Hm.
      now rewrite Hk.
    + rewrite Hm. exact IH.
Qed.

(** A predicate that rejects the combination served does not see the
    difference. *)
Lemma do_add_filter (ch0 ch1 : chunk) (size : Z) (P : match_ -> bool)
      (ms : list match_) :
  (forall m, has_names (tx_fname (text_at Text (ch_text ch0)))
                       (tx_fname (text_at Text (ch_text ch1))) m = true ->
             P m = false) ->
  filter P (do_add_to_precentages Text ch0 ch1 size ms) = filter P ms.
Proof.
  intros HP. induction ms as [|m ms IH]; simpl.
  - rewrite HP; [reflexivity|]. unfold has_names. simpl. now rewrite !Z.eqb_refl.
  - change ((ma_fname0 m =? tx_fname (text_at Text (ch_text ch0)))
            && (ma_fname1 m =? tx_fname (text_at Text (ch_text ch1))))
      with (has_names (tx_fname (text_at Text (ch_text ch0)))
                      (tx_fname (text_at Text (ch_text ch1))) m).
    destruct (has_names _ _ m) eqn:Hm; simpl.
    + rewrite (HP m Hm). rewrite HP; [reflexivity|exact Hm].
    + now rewrite IH.
Qed.

(** The look-up of any other combination is not affected. *)
Lemma do_add_find_other (ch0 ch1 : chunk) (size : Z) (ms : list match_)
      (g0 g1 : Z) :
  (g0 <> tx_fname (text_at Text (ch_text ch0))
   \/ g1 <> tx_fname (text_at Text (ch_text ch1))) ->
  find_match (do_add_to_precentages Text ch0 ch1 size ms) g0 g1
  = find_match ms g0 g1.
Proof.
  intros Hne. unfold find_match.
  induction ms as [|m ms IH]; simpl.
  - unfold has_names. simpl.
    destruct Hne as [H|H];
      [ assert (E : (tx_fname (text_at Text (ch_text ch0)) =? g0) = false)
          by (apply Z.eqb_neq; congruence); rewrite E; reflexivity
      | assert (E : (tx_fname (text_at Text (ch_text ch1)) =? g1) = false)
          by (apply Z.eqb_neq; congruence); rewrite E;
        now rewrite andb_false_r ].
  - destruct ((ma_fname0 m =? tx_fname (text_at Text (ch_text ch0)))
              && (ma_fname1 m =? tx_fname (text_at Text (ch_text ch1))))
      eqn:Hm; simpl.
    + apply andb_true_iff in Hm. destruct Hm as [H0 H1].
      apply Z.eqb_eq in H0, H1.
      assert (Hg : has_names g0 g1 m = false).
      { unfold has_names. apply andb_false_iff.
        destruct Hne as [H|H]; [left|right]; apply Z.eqb_neq; congruence. }
      assert (Hg' : has_names g0 g1
                      (mk_match (ma_fname0 m) (ma_fname1 m)
                                (size_t (ma_size m + size)) (ma_size0 m)) = false)
        by exact Hg.
      now rewrite Hg, Hg'.
    + destruct (has_names g0 g1 m); [reflexivity|exact IH].
Qed.

(** C5.  A run inside one text leaves the list of matches as it is.  A
    run between two texts (whose names are distinct pointers) adds its
    size, in [size_t], to the record of [(text_a, text_b)] and to the one
    of [(text_b, text_a)], creating each if it is missing; [ma_size0] is
    [tx_limit - tx_start] of the first text when the record is created
    and is kept when the record exists; the records of every other
    combination are left as they are. *)
Theorem add_to_percentages_two_records (r : run) (match_start : list match_) :
  let text_a := text_at Text (ch_text (rn_chunk0 r)) in
  let text_b := text_at Text (ch_text (rn_chunk1 r)) in
  let after := add_to_percentages Text r match_start in
  (ch_text (rn_chunk0 r) = ch_text (rn_chunk1 r) -> after = match_start)
  /\ (ch_text (rn_chunk0 r) <> ch_text (rn_chunk1 r) ->
      tx_fname text_a <> tx_fname text_b ->
      find_match after (tx_fname text_a) (tx_fname text_b)
      = Some match find_match match_start (tx_fname text_a) (tx_fname text_b) with
             | Some m => mk_match (tx_fname text_a) (tx_fname text_b)
                                  (size_t (ma_size m + rn_size r)) (ma_size0 m)
             | None => mk_match (tx_fname text_a) (tx_fname text_b) (rn_size r)
                                (size_t (tx_limit text_a - tx_start text_a))
             end
      /\ find_match after (tx_fname text_b) (tx_fname text_a)
         = Some match find_match match_start (tx_fname text_b) (tx_fname text_a) with
                | Some m => mk_match (tx_fname text_b) (tx_fname text_a)
                                     (size_t (ma_size m + rn_size r)) (ma_size0 m)
                | None => mk_match (tx_fname text_b) (tx_fname text_a) (rn_size r)
                                   (size_t (tx_limit text_b - tx_start text_b))
                end
      /\ (forall g0 g1,
             (g0, g1) <> (tx_fname text_a, tx_fname text_b) ->
             (g0, g1) <> (tx_fname text_b, tx_fname text_a) ->
             find_match after g0 g1 = find_match match_start g0 g1)
      /\ filter (fun m => negb (has_names (tx_fname text_a) (tx_fname text_b) m)
                          && negb (has_names (tx_fname text_b) (tx_fname text_a) m))
                after
         = filter (fun m => negb (has_names (tx_fname text_a) (tx_fname text_b) m)
                            && negb (has_names (tx_fname text_b) (tx_fname text_a) m))
                  match_start).
Proof.
  intros text_a text_b after. subst after. unfold add_to_percentages. split.
  - intros Heq. apply Nat.eqb_eq in Heq. now rewrite Heq.
  - intros Hne Hnames. apply Nat.eqb_neq in Hne. rewrite Hne.
    repeat split.
    + (* (text_a, text_b): served by the first call, not seen by the second *)
      rewrite do_add_find_other by (left; exact Hnames).
      pose proof (do_add_find_same (rn_chunk0 r) (rn_chunk1 r) (rn_size r)
                                   match_start) as H.
      cbv zeta in H. fold text_a text_b in H. rewrite H.
      destruct (find_match match_start (tx_fname text_a) (tx_fname text_b))
        as [m|] eqn:Hf; [|reflexivity].
      apply find_some in Hf. destruct Hf as [_ Hm].
      apply has_names_eq in Hm. destruct Hm as [-> ->]. reflexivity.
    + (* (text_b, text_a): not seen by the first call, served by the second *)
      pose proof (do_add_find_same (rn_chunk1 r) (rn_chunk0 r) (rn_size r)
                    (do_add_to_precentages Text (rn_chunk0 r) (rn_chunk1 r)
                                           (rn_size r) match_start)) as H.
      cbv zeta in H. fold text_a text_b in H. rewrite H.
      rewrite do_add_find_other by (left; fold text_a text_b; congruence).
      destruct (find_match match_start (tx_fname text_b) (tx_fname text_a))
        as [m|] eqn:Hf; [|reflexivity].
      apply find_some in Hf. destruct Hf as [_ Hm].
      apply has_names_eq in Hm. destruct Hm as [-> ->]. reflexivity.
    + intros g0 g1 Hab Hba.
      rewrite !do_add_find_other; [reflexivity| |]; fold text_a text_b.
      * destruct (Z.eq_dec g0 (tx_fname text_a)) as [->|]; [|now left].
        right. intros ->. now apply Hab.
      * destruct (Z.eq_dec g0 (tx_fname text_b)) as [->|]; [|now left].
        right. intros ->. now apply Hba.
    + rewrite !do_add_filter; [reflexivity| |]; fold text_a text_b;
        intros m Hm; rewrite Hm; simpl; [reflexivity|apply andb_false_r].
Qed.

End AddToPercentages.

(** A run inside the first text of [Examples.two_texts], then a run
    between its two texts, each added to an empty list. *)
Lemma add_to_percentages_two_records_witness :
  Percentages.add_to_percentages
    (Hash.Text Examples.two_texts) Examples.run_inside [] = []
  /\ Percentages.find_match
       (Percentages.add_to_percentages
          (Hash.Text Examples.two_texts) Examples.run_between [])
       1000 2000
     = Some (Percentages.mk_match 1000 2000 3 3).
Proof.
  split.
  - apply (proj1 (add_to_percentages_two_records
                    (Hash.Text Examples.two_texts) Examples.run_inside [])).
    reflexivity.
  - apply (proj2 (add_to_percentages_two_records
                    (Hash.Text Examples.two_texts) Examples.run_between [])).
    + simpl. discriminate.
    + simpl. discriminate.
Defined.

(** A concrete query on the table built for [Examples.two_texts]. *)
Lemma Forward_Reference_range_witness :
  Hash.Forward_Reference Examples.two_texts_state 0
  = Fatal "internal error, bad forward reference"
  /\ Hash.Forward_Reference Examples.two_texts_state 7
     = Fatal "internal error, bad forward reference"
  /\ Hash.Forward_Reference Examples.two_texts_state 1 = Ret 5.
Proof.
  split; [|split].
  - apply (proj1 (Forward_Reference_range Examples.two_texts_state 0)).
    left. reflexivity.
  - apply (proj1 (Forward_Reference_range Examples.two_texts_state 7)).
    right. vm_compute. discriminate.
  - apply (proj2 (Forward_Reference_range Examples.two_texts_state 1)).
    vm_compute. split; [discriminate|reflexivity].
Defined.

(** ** [percentages.c]: printing *)

Section PrintPercentages.
Import Percentages.

Variable Threshold_Percentage : Z.
Variable option_P : bool.

Lemma print_perc_info_line (m : match_) (ln : line) :
  In ln (print_perc_info Threshold_Percentage m) -> shows_record Threshold_Percentage m ln.
Proof.
  unfold print_perc_info, shows_record.
  assert (Hcap : (if 100 <? truncated_percentage m then 100
                  else truncated_percentage m)
                 = Z.min 100 (truncated_percentage m)).
  { destruct (100 <? truncated_percentage m) eqn:H.
    - apply Z.ltb_lt in H. lia.
    - apply Z.ltb_ge in H. lia. }
  rewrite Hcap.
  destruct (Threshold_Percentage <=? Z.min 100 (truncated_percentage m)) eqn:Ht.
  - intros [<-|[]]. apply Z.leb_le in Ht. simpl. split; [reflexivity|lia].
  - intros [].
Qed.

Lemma remove_contributors_lines (fname : Z) (ms : list match_) :
  (forall ln,
      In ln (fst (remove_contributors Threshold_Percentage option_P fname ms)) ->
      exists m, In m ms /\ shows_record Threshold_Percentage m ln)
  /\ (forall m,
         In m (snd (remove_contributors Threshold_Percentage option_P fname ms)) ->
         In m ms)
  /\ (List.length
        (snd (remove_contributors Threshold_Percentage option_P fname ms))
      <= List.length ms)%nat.
Proof.
  induction ms as [|m ms IH]; simpl.
  - repeat split; [intros ln []|intros m []|lia].
  - destruct (remove_contributors Threshold_Percentage option_P fname ms)
      as [out kept] eqn:Hrec.
    simpl in IH. destruct IH as (IHout & IHkept & IHlen).
    destruct (ma_fname0 m =? fname); simpl.
    + repeat split.
      * intros ln Hin. apply in_app_or in Hin. destruct Hin as [Hin|Hin].
        -- exists m. split; [now left|].
           destruct option_P; [destruct Hin|].
           now apply print_perc_info_line.
        -- destruct (IHout ln Hin) as (m' & Hm' & Hl). exists m'. tauto.
      * intros m' Hin. right. now apply IHkept.
      * lia.
    + repeat split.
      * intros ln Hin. destruct (IHout ln Hin) as (m' & Hm' & Hl).
        exists m'. tauto.
      * intros m' [<-|Hin]; [now left|right; now apply IHkept].
      * lia.
Qed.

Lemma print_loop_lines (fuel : nat) (ms : list match_) :
  (List.length ms <= fuel)%nat ->
  snd (print_loop fuel Threshold_Percentage option_P ms) = []
  /\ forall ln,
      In ln (fst (print_loop fuel Threshold_Percentage option_P ms)) ->
      exists m, In m ms /\ shows_record Threshold_Percentage m ln.
Proof.
  revert ms. induction fuel as [|fuel IH]; intros ms Hlen.
  - destruct ms as [|m ms]; [|simpl in Hlen; lia].
    simpl. split; [reflexivity|intros ln []].
  - destruct ms as [|m ms]; [simpl; split; [reflexivity|intros ln []]|].
    simpl.
    pose proof (remove_contributors_lines (ma_fname0 m) ms)
      as (Hout & Hkept & Hl).
    destruct (remove_contributors Threshold_Percentage option_P
                                  (ma_fname0 m) ms) as [out kept].
    simpl in Hout, Hkept, Hl.
    assert (Hfuel : (List.length kept <= fuel)%nat) by (simpl in Hlen; lia).
    destruct (IH kept Hfuel) as [Hfinal Hlines].
    destruct (print_loop fuel Threshold_Percentage option_P kept)
      as [out' final].
    simpl in Hfinal, Hlines. simpl. split; [exact Hfinal|].
    intros ln Hin. apply in_app_or in Hin. destruct Hin as [Hin|Hin].
    + apply in_app_or in Hin. destruct Hin as [Hin|Hin].
      * exists m. split; [now left|now apply print_perc_info_line].
      * destruct (Hout ln Hin) as (m' & Hm' & Hline).
        exists m'. split; [now right|exact Hline].
    + destruct (Hlines ln Hin) as (m' & Hm' & Hline).
      exists m'. split; [right; now apply Hkept|exact Hline].
Qed.

(** C4, as the code has it.  Every line that [print_percentages] writes
    comes from a record [m] of the list and shows
    [P = min(100, (int)(match_percentage(m)*100.0))], the quotient being
    the one of the two sizes rounded to [float]; on every line
    [Threshold_Percentage <= P <= 100]; and the list is empty at the
    end: every record is removed, written or not. *)
Theorem print_percentages_lines (match_start : list match_) :
  snd (print_percentages Threshold_Percentage option_P match_start) = []
  /\ forall ln,
      In ln (fst (print_percentages Threshold_Percentage option_P match_start)) ->
      exists m,
        In m match_start
        /\ ln = mk_line (ma_fname0 m) (Z.min 100 (truncated_percentage m))
                        (ma_fname1 m)
        /\ Threshold_Percentage <= ln_percentage ln <= 100.
Proof.
  unfold print_percentages.
  apply (print_loop_lines (List.length match_start) match_start). lia.
Qed.

End PrintPercentages.

(** C4, as stated, fails: for a file of 100 tokens of which 29 are shared,
    the line shows 28, not [min(100, floor(100*29/100)) = 29]; the [float]
    nearest to 29/100 lies below it. *)
Lemma percentage_is_not_the_floor :
  Percentages.print_percentages 1 false [Examples.twenty_nine_of_100]
  = ([Percentages.mk_line 1000 28 2000], [])
  /\ ~ (forall ln,
         In ln (fst (Percentages.print_percentages
                       1 false [Examples.twenty_nine_of_100])) ->
         exists m,
           In m [Examples.twenty_nine_of_100]
           /\ Percentages.ln_percentage ln
              = Z.min 100 (100 * Percentages.ma_size m / Percentages.ma_size0 m)).
Proof.
  split; [vm_compute; reflexivity|].
  intros H.
  destruct (H (Percentages.mk_line 1000 28 2000)) as (m & Hm & Hp).
  - vm_compute. left. reflexivity.
  - destruct Hm as [<-|[]]. vm_compute in Hp. discriminate Hp.
Qed.

(** ** [make_forward_references_hash1]: the first sweep *)

Lemma links_to_next_ext (D D' : Z -> Prop) (E : Z -> Z -> bool) (p q : Z) :
  (forall r, D r <-> D' r) ->
  Hash.links_to_next D E p q -> Hash.links_to_next D' E p q.
Proof.
  intros HD [[Hq H]|(Hq & Hp & Hdq & Hlt & He & Hbetween)]; [left|right].
  - split; [exact Hq|]. destruct H as [H|H]; [left|right].
    + intros Hd. apply H. now apply HD.
    + intros r Hr. apply H. now apply HD.
  - repeat split; try assumption; try (now apply HD).
    intros r Hr. apply Hbetween. now apply HD.
Qed.

Section FirstSweep.
Import Hash.
Context {TI : TokenInterface}.

Variable inp : input.
Variable size : Z.                      (* last_index_table_size *)
Variable sp : list Z.                   (* sample_pos *)

Lemma threaded_so_far_ext (D D' : Z -> Prop) (st : hash_state) :
  (forall r, D r <-> D' r) ->
  threaded_so_far inp size sp D st -> threaded_so_far inp size sp D' st.
Proof.
  intros HD (Hsize & Hsp & Hn & Hlast & Hfr).
  repeat split; try assumption.
  - intros h. destruct (Hlast h) as [[H0 Hnone]|(H0 & Hd & Hb & Hmax)];
      [left|right].
    + split; [exact H0|]. intros r Hr. apply Hnone. now apply HD.
    + repeat split; try assumption; [now apply HD|].
      intros r Hr. apply Hmax. now apply HD.
  - intros p. now apply (links_to_next_ext D D').
Qed.

(** One turn of the inner loop. *)
Lemma thread_position_step (D : Z -> Prop) (st : hash_state) (j : Z) :
  threaded_so_far inp size sp D st ->
  (forall r, D r -> 1 <= r < j) ->
  1 <= j ->
  threaded_so_far inp size sp
    (fun r => D r \/ (r = j /\ May_Be_Start_Of_Run (Token_Array inp j) = true))
    (thread_position inp j st).
Proof.
  intros (Hsize & Hsp & Hn & Hlast & Hfr) Hbelow Hj.
  unfold thread_position.
  destruct (May_Be_Start_Of_Run (Token_Array inp j)) eqn:Hstart.
  2:{ apply (threaded_so_far_ext D); [|repeat split; assumption].
      intros r. split; [now left|]. intros [H|[_ H]]; [exact H|discriminate]. }
  rewrite Hsize, Hsp.
  set (B := bucket inp size sp) in *.
  set (E1 := same_bucket inp size sp) in *.
  assert (HE1 : forall a b, E1 a b = false <-> B a <> B b)
    by (intros a b; unfold E1, same_bucket; fold B; apply Z.eqb_neq).
  apply (threaded_so_far_ext (fun r => D r \/ r = j));
    [intros r; split; (intros [H|H]; [now left|right; tauto])|].
  assert (Hfields :
    forall st1, last_index_table_size st1 = size -> sample_pos st1 = sp ->
                n_forward_references st1 = Token_Array_Length inp ->
                last_index st1 = last_index st ->
                (forall p, links_to_next (fun r => D r \/ r = j) E1 p
                                         (forward_reference st1 p)) ->
                threaded_so_far inp size sp (fun r => D r \/ r = j)
                                (set_last_index st1 (B j) j)).
  { intros st1 Hs1 Hp1 Hn1 Hl1 Hf1. repeat split; try assumption.
    intros h. simpl. rewrite Hl1. unfold upd. fold B.
    destruct (h =? B j) eqn:Hh.
    - apply Z.eqb_eq in Hh. subst h. right. repeat split.
      + lia.
      + now right.
      + intros r [Hr| ->]; [|lia]. intros _. specialize (Hbelow r Hr). lia.
    - apply Z.eqb_neq in Hh.
      destruct (Hlast h) as [[H0 Hnone]|(H0 & Hd & Hb & Hmax)]; [left|right].
      + split; [exact H0|]. intros r [Hr| ->]; [now apply Hnone|congruence].
      + repeat split; try assumption; [now left|].
        intros r [Hr| ->]; [now apply Hmax|congruence]. }
  (* a forward reference that the turn does not write *)
  assert (Hkeep : forall p q,
             links_to_next D E1 p q ->
             (last_index st (B j) = 0 \/ p <> last_index st (B j)) ->
             links_to_next (fun r => D r \/ r = j) E1 p q).
  { intros p q Hl Hp.
    destruct Hl as [[Hq H]|(Hq & Hdp & Hdq & Hlt & He & Hbetween)].
    - left. split; [exact Hq|].
      destruct (Z.eq_dec p j) as [->|Hpj].
      { right. intros r [Hr| ->]; [specialize (Hbelow r Hr)|]; lia. }
      destruct H as [H|H]; [left; intros [Hd|Hd]; tauto|].
      destruct (Z.eq_dec (B p) (B j)) as [Hb|Hb].
      + destruct (Hlast (B j)) as [[H0 Hnone]|(H0 & Hd & Hbm & Hmax)].
        * left. intros [Hd|Hd]; [exact (Hnone p Hd Hb)|contradiction].
        * destruct (Z_lt_le_dec p (last_index st (B j))) as [Hlt|Hle].
          -- exfalso. apply (proj1 (HE1 p (last_index st (B j)))).
             ++ now apply H.
             ++ congruence.
          -- left. intros [Hd'|Hd']; [|contradiction].
             assert (p <= last_index st (B j)) by now apply Hmax.
             destruct Hp as [Hp|Hp]; [contradiction|lia].
      + right. intros r [Hr| ->]; [now apply H|].
        intros _. now apply HE1.
    - right. repeat split; try assumption; try (now left).
      intros r [Hr| ->]; [now apply Hbetween|].
      specialize (Hbelow q Hdq). lia. }
  destruct (last_index st (B j) =? 0) eqn:Hli.
  - apply Z.eqb_eq in Hli. apply Hfields; try assumption; try reflexivity.
    intros p. apply Hkeep; [apply Hfr|now left].
  - apply Z.eqb_neq in Hli. apply Hfields; try assumption; try reflexivity.
    intros p. simpl. unfold upd.
    destruct (p =? last_index st (B j)) eqn:Hp.
    + apply Z.eqb_eq in Hp. subst p.
      destruct (Hlast (B j)) as [[H0 _]|(_ & Hd & Hbm & Hmax)]; [contradiction|].
      right. repeat split.
      * lia.
      * now left.
      * now right.
      * specialize (Hbelow _ Hd). lia.
      * unfold E1, same_bucket. fold B. apply Z.eqb_eq. exact Hbm.
      * intros r [Hr| ->] Hlo Hhi; [|lia].
        apply HE1. intros Hb.
        assert (r <= last_index st (B j)) by (apply Hmax; congruence). lia.
    + apply Z.eqb_neq in Hp. apply Hkeep; [apply Hfr|now right].
Qed.

Hypothesis Hmrs : 1 <= Min_Run_Size inp <= INT_MAX.

(** The inner loop, entered at [j]: it ends, having threaded the
    positions from [j] on that it may. *)
Lemma for_positions_threads (fuel : nat) :
  forall (limit j : Z) (D : Z -> Prop) (st : hash_state),
    1 <= j <= limit -> limit < 2 ^ 62 ->
    limit - j <= Z.of_nat fuel ->
    threaded_so_far inp size sp D st ->
    (forall r, D r -> 1 <= r < j) ->
    exists st',
      for_positions fuel inp limit j st = Ret st'
      /\ threaded_so_far inp size sp
           (fun r => D r \/ (j <= r /\ may_thread inp limit r)) st'.
Proof.
  assert (Hint : INT_MAX = 2147483647) by reflexivity.
  induction fuel as [|fuel IH]; intros limit j D st Hj Hlim Hfuel Hinv Hbelow.
  - exists st. simpl.
    rewrite size_t_small by lia.
    assert (Hc : (j + Min_Run_Size inp - 1 <? limit) = false)
      by (apply Z.ltb_ge; lia).
    rewrite Hc. split; [reflexivity|].
    apply (threaded_so_far_ext D); [|exact Hinv].
    intros r. split; [now left|]. intros [H|[H1 [H2 _]]]; [exact H|lia].
  - simpl. rewrite size_t_small by lia.
    destruct (j + Min_Run_Size inp - 1 <? limit) eqn:Hc.
    + apply Z.ltb_lt in Hc. rewrite size_t_small by lia.
      pose proof (thread_position_step D st j Hinv Hbelow ltac:(lia)) as Hstep.
      destruct (IH limit (j + 1) _ _ ltac:(lia) Hlim ltac:(lia) Hstep)
        as (st' & Hrun & Hinv').
      { intros r [Hr|[-> _]]; [specialize (Hbelow r Hr)|]; lia. }
      exists st'. split; [exact Hrun|].
      eapply threaded_so_far_ext; [|exact Hinv'].
      intros r. unfold may_thread. split.
      * intros [[Hr|[-> Hs]]|[Hr Hs]]; [now left|right|right];
          (split; [lia|tauto]).
      * intros [Hr|[Hr Hs]]; [left; now left|].
        destruct (Z.eq_dec r j) as [->|Hne].
        -- left. right. tauto.
        -- right. split; [lia|exact Hs].
    + apply Z.ltb_ge in Hc. exists st. split; [reflexivity|].
      apply (threaded_so_far_ext D); [|exact Hinv].
      intros r. split; [now left|]. intros [H|[H1 [H2 _]]]; [exact H|lia].
Qed.

Lemma texts_in_order_le (txts : list text) :
  forall lo len, texts_in_order lo txts len -> lo <= len.
Proof.
  induction txts as [|txt txts IH]; intros lo len H; simpl in H.
  - exact H.
  - destruct H as (H1 & H2 & H3). specialize (IH _ _ H3). lia.
Qed.

(** The outer loop: it ends, having threaded the positions of the texts
    it went through. *)
Lemma for_texts_threads (txts : list text) :
  forall (lo : Z) (D : Z -> Prop) (st : hash_state),
    1 <= lo ->
    texts_in_order lo txts (Token_Array_Length inp) ->
    Token_Array_Length inp < 2 ^ 62 ->
    threaded_so_far inp size sp D st ->
    (forall r, D r -> 1 <= r < lo) ->
    exists st',
      for_texts inp txts st = Ret st'
      /\ threaded_so_far inp size sp
           (fun r => D r
                     \/ (May_Be_Start_Of_Run (Token_Array inp r) = true
                         /\ window_inside inp txts r = true)) st'.
Proof.
  induction txts as [|txt txts IH]; intros lo D st Hlo Hord Hlen Hinv Hbelow.
  - exists st. split; [reflexivity|].
    apply (threaded_so_far_ext D); [|exact Hinv].
    intros r. split; [now left|]. intros [H|[_ H]]; [exact H|discriminate].
  - simpl in Hord. destruct Hord as (Hs & Hl & Hrest).
    pose proof (texts_in_order_le _ _ _ Hrest) as Hle.
    destruct (for_positions_threads (Z.to_nat (tx_limit txt))
                (tx_limit txt) (tx_start txt) D st)
      as (st1 & Hrun1 & Hinv1); try assumption; try lia.
    { intros r Hr. specialize (Hbelow r Hr). lia. }
    destruct (IH (tx_limit txt) _ st1 ltac:(lia) Hrest Hlen Hinv1)
      as (st' & Hrun & Hinv').
    { intros r [Hr|[Hr [Hw _]]]; [specialize (Hbelow r Hr)|]; lia. }
    exists st'. simpl. rewrite Hrun1. simpl. split; [exact Hrun|].
    eapply threaded_so_far_ext; [|exact Hinv'].
    intros r. unfold may_thread, window_inside. simpl.
    rewrite orb_true_iff, andb_true_iff, Z.leb_le, Z.ltb_lt. tauto.
Qed.

End FirstSweep.

(** ** [init_hash_table]: the size of the table *)

Section TableSize.
Import Hash.

Lemma ideal_size_returns (ps : list Z) :
  forall (n : nat) (len : Z),
    ps <> [] -> len <= last ps 0 ->
    exists k, ideal_size ps n len = Ret k.
Proof.
  induction ps as [|p ps IH]; intros n len Hne Hlast; [congruence|].
  simpl. destruct (p <? len) eqn:Hp.
  - apply Z.ltb_lt in Hp.
    destruct ps as [|p' ps']; [simpl in Hlast; lia|].
    apply IH; [discriminate|exact Hlast].
  - now exists n.
Qed.

Lemma step_down_outcome (try_calloc : Z -> bool) (n : nat) :
  (exists size, step_down try_calloc n = Ret size)
  \/ step_down try_calloc n = Fatal "out of memory".
Proof.
  induction n as [|n IH]; simpl.
  - destruct (try_calloc _); [left; eauto|now right].
  - destruct (try_calloc _); [left; eauto|exact IH].
Qed.

(** For a token store that the schedule of primes covers,
    [init_hash_table] obtains a table or ends the program for lack of
    memory. *)
Lemma table_size_outcome (try_calloc : Z -> bool) (len : Z) :
  len <= last prime 0 ->
  (exists size, table_size try_calloc len = Ret size)
  \/ table_size try_calloc len = Fatal "out of memory".
Proof.
  intros Hlen. unfold table_size.
  destruct (ideal_size_returns prime 0 len ltac:(discriminate) Hlen) as [k Hk].
  rewrite Hk. simpl. apply step_down_outcome.
Qed.

End TableSize.

(** ** [clean_forward_references_hash2]: the second sweep *)

Section SecondSweep.
Import Hash.
Context {TI : TokenInterface}.

Variable inp : input.
Variable size : Z.                      (* last_index_table_size *)
Variable sp : list Z.                   (* sample_pos *)
Variable D : Z -> Prop.                 (* the positions threaded *)
Variable fr1 : Z -> Z.                  (* forward_reference after sweep 1 *)

Hypothesis Hmrs : 1 <= Min_Run_Size inp <= INT_MAX.
Hypothesis Hlen : Token_Array_Length inp < 2 ^ 62.
Hypothesis HD :
  forall r, D r -> 1 <= r /\ r + Min_Run_Size inp <= Token_Array_Length inp.
Hypothesis Hfr1 :
  forall p, links_to_next D (same_bucket inp size sp) p (fr1 p).

Lemma first_with_hash2_eq (fuel : nat) (st : hash_state) (h2 j : Z) :
  first_with_hash2 fuel inp st h2 j
  = if (forward_reference st j =? 0)
       || (hash2_at inp (sample_pos st) (forward_reference st j) =? h2)
    then Ret (forward_reference st j)
    else match fuel with
         | O => OutOfFuel
         | S fuel' => first_with_hash2 fuel' inp st h2 (forward_reference st j)
         end.
Proof. destruct fuel; reflexivity. Qed.

Lemma for_clean_eq (fuel : nat) (i : Z) (st : hash_state) :
  for_clean fuel inp i st
  = if size_t (i + Min_Run_Size inp) <? Token_Array_Length inp then
      match fuel with
      | O => OutOfFuel
      | S fuel' =>
          j <- first_with_hash2 (Z.to_nat (Token_Array_Length inp)) inp st
                                (hash2_at inp (sample_pos st) i) i ;;
          for_clean fuel' inp (size_t (i + 1)) (set_forward_reference st i j)
      end
    else Ret st.
Proof. destruct fuel; reflexivity. Qed.

Lemma same_bucket_trans (a b c : Z) :
  same_bucket inp size sp a b = true ->
  same_bucket inp size sp a c = same_bucket inp size sp b c.
Proof.
  unfold same_bucket. intros H. apply Z.eqb_eq in H. now rewrite H.
Qed.

(** The [while] loop of the second sweep, entered with [j] on the chain of
    [i]: it ends on the first later position that agrees with [i] under
    both hash codes, or on 0. *)
Lemma first_with_hash2_finds (fuel : nat) :
  forall (st : hash_state) (i j : Z),
    sample_pos st = sp ->
    (forall p, i <= p -> forward_reference st p = fr1 p) ->
    D i -> D j -> i <= j ->
    same_bucket inp size sp i j = true ->
    (forall r, D r -> i < r -> r <= j ->
               same_bucket inp size sp i r && same_hash2 inp sp i r = false) ->
    Token_Array_Length inp - j <= Z.of_nat fuel ->
    exists q,
      first_with_hash2 fuel inp st (hash2_at inp sp i) j = Ret q
      /\ links_to_next D (fun a b => same_bucket inp size sp a b
                                     && same_hash2 inp sp a b) i q.
Proof.
  induction fuel as [|fuel IH];
    intros st i j Hsp Hfr Hi Hj Hij Hb Hnone Hfuel.
  - pose proof (HD j Hj). lia.
  - rewrite first_with_hash2_eq, Hsp, (Hfr j Hij).
    destruct (Hfr1 j) as [[Hq H]|(Hq & _ & Hdq & Hlt & He & Hbetween)].
    + (* the chain ends at j *)
      rewrite Hq. rewrite Z.eqb_refl, orb_true_l. exists 0.
      split; [reflexivity|].
      left. split; [reflexivity|]. right. intros r Hr Hlo.
      destruct (Z_le_gt_dec r j) as [Hle|Hgt]; [now apply Hnone|].
      destruct H as [H|H]; [contradiction|].
      rewrite (same_bucket_trans i j r Hb), (H r Hr) by lia. reflexivity.
    + assert (Hq0 : (fr1 j =? 0) = false) by now apply Z.eqb_neq.
      rewrite Hq0, orb_false_l.
      assert (Hbq : same_bucket inp size sp i (fr1 j) = true)
        by now rewrite (same_bucket_trans i j (fr1 j) Hb).
      assert (Hbetween' :
        forall r, D r -> i < r -> r < fr1 j ->
                  same_bucket inp size sp i r && same_hash2 inp sp i r = false).
      { intros r Hr Hlo Hhi.
        destruct (Z_le_gt_dec r j) as [Hle|Hgt]; [now apply Hnone|].
        rewrite (same_bucket_trans i j r Hb), (Hbetween r Hr) by lia.
        reflexivity. }
      destruct (hash2_at inp sp (fr1 j) =? hash2_at inp sp i) eqn:Hh.
      * (* the first position with the hash code of i *)
        exists (fr1 j). split; [reflexivity|].
        right. repeat split; try assumption; [lia|].
        unfold same_hash2 at 1. rewrite Z.eqb_sym, Hh, Hbq. reflexivity.
      * destruct fuel as [|fuel'].
        { pose proof (HD _ Hdq). lia. }
        apply (IH st i (fr1 j)); try assumption; try lia.
        intros r Hr Hlo Hhi.
        destruct (Z.eq_dec r (fr1 j)) as [->|Hne].
        -- unfold same_hash2. rewrite Z.eqb_sym, Hh. apply andb_false_r.
        -- apply Hbetween'; [assumption|lia|lia].
Qed.

(** One turn of the [for] loop of the second sweep. *)
Lemma clean_step (st : hash_state) (i : Z) :
  0 <= i ->
  cleaned_so_far inp size sp D fr1 i st ->
  exists q,
    first_with_hash2 (Z.to_nat (Token_Array_Length inp)) inp st
                     (hash2_at inp (sample_pos st) i) i = Ret q
    /\ cleaned_so_far inp size sp D fr1 (i + 1) (set_forward_reference st i q).
Proof.
  intros Hi (Hsize & Hsp & Hn & Hdone & Htodo).
  assert (Hq : exists q,
    first_with_hash2 (Z.to_nat (Token_Array_Length inp)) inp st
                     (hash2_at inp sp i) i = Ret q
    /\ links_to_next D (fun a b => same_bucket inp size sp a b
                                   && same_hash2 inp sp a b) i q).
  { destruct (Hfr1 i) as [[Hq [H|H]]|(Hq & Hdi & _)].
    - (* i is not threaded: its forward reference is 0 *)
      exists 0. split.
      + rewrite first_with_hash2_eq, (Htodo i ltac:(lia)), Hq.
        now rewrite Z.eqb_refl.
      + left. split; [reflexivity|now left].
    - exists 0. split.
      + rewrite first_with_hash2_eq, (Htodo i ltac:(lia)), Hq.
        now rewrite Z.eqb_refl.
      + left. split; [reflexivity|]. right. intros r Hr Hlo.
        now rewrite (H r Hr Hlo).
    - apply first_with_hash2_finds; try assumption; try lia.
      unfold same_bucket. apply Z.eqb_refl. }
  destruct Hq as (q & Hrun & Hlink).
  exists q. rewrite Hsp. split; [exact Hrun|].
  repeat split; try assumption.
  - intros p Hp. cbn [forward_reference set_forward_reference]. unfold upd.
    destruct (p =? i) eqn:Hpi.
    + apply Z.eqb_eq in Hpi. now subst p.
    + apply Z.eqb_neq in Hpi. apply Hdone. lia.
  - intros p Hp. cbn [forward_reference set_forward_reference].
    rewrite upd_other by lia. apply Htodo. lia.
Qed.

(** The [for] loop of the second sweep, entered at [i]: it ends, and every
    forward reference then links a threaded position to the next one that
    agrees with it under both hash codes. *)
Lemma for_clean_cleans (fuel : nat) :
  forall (i : Z) (st : hash_state),
    0 <= i <= Token_Array_Length inp ->
    Token_Array_Length inp - i <= Z.of_nat fuel ->
    cleaned_so_far inp size sp D fr1 i st ->
    exists st',
      for_clean fuel inp i st = Ret st'
      /\ last_index_table_size st' = size
      /\ sample_pos st' = sp
      /\ n_forward_references st' = Token_Array_Length inp
      /\ forall p,
          links_to_next D (fun a b => same_bucket inp size sp a b
                                      && same_hash2 inp sp a b)
                        p (forward_reference st' p).
Proof.
  assert (Hint : INT_MAX = 2147483647) by reflexivity.
  assert (Hexit : forall i st,
    Token_Array_Length inp <= i + Min_Run_Size inp ->
    cleaned_so_far inp size sp D fr1 i st ->
    forall p,
      links_to_next D (fun a b => same_bucket inp size sp a b
                                  && same_hash2 inp sp a b)
                    p (forward_reference st p)).
  { intros i st Hend (_ & _ & _ & Hdone & Htodo) p.
    destruct (Z_lt_le_dec p i) as [Hlt|Hle]; [now apply Hdone|].
    rewrite (Htodo p Hle).
    destruct (Hfr1 p) as [[Hq H]|(Hq & _ & Hdq & Hlt & _)].
    - rewrite Hq. left. split; [reflexivity|].
      destruct H as [H|H]; [now left|right].
      intros r Hr Hlo. now rewrite (H r Hr Hlo).
    - pose proof (HD _ Hdq). lia. }
  induction fuel as [|fuel IH]; intros i st Hi Hfuel Hinv.
  - exists st. rewrite for_clean_eq, size_t_small by lia.
    assert (Hc : (i + Min_Run_Size inp <? Token_Array_Length inp) = false)
      by (apply Z.ltb_ge; lia).
    rewrite Hc. split; [reflexivity|].
    pose proof (Hexit i st ltac:(lia) Hinv) as Hall.
    destruct Hinv as (Hsize & Hsp & Hn & _). tauto.
  - rewrite for_clean_eq, size_t_small by lia.
    destruct (i + Min_Run_Size inp <? Token_Array_Length inp) eqn:Hc.
    + apply Z.ltb_lt in Hc.
      destruct (clean_step st i ltac:(lia) Hinv) as (q & Hrun & Hinv').
      rewrite Hrun. unfold bind. rewrite size_t_small by lia.
      apply IH; [lia|lia|exact Hinv'].
    + apply Z.ltb_ge in Hc. exists st. split; [reflexivity|].
      pose proof (Hexit i st ltac:(lia) Hinv) as Hall.
      destruct Hinv as (Hsize & Hsp & Hn & _). tauto.
Qed.

End SecondSweep.

(** ** [Make_Forward_References]: the table it builds *)

Lemma links_to_next_agree (D : Z -> Prop) (E E' : Z -> Z -> bool) (p q : Z) :
  (forall a b, E a b = E' a b) ->
  Hash.links_to_next D E p q -> Hash.links_to_next D E' p q.
Proof.
  intros HE [[Hq H]|(Hq & Hp & Hdq & Hlt & He & Hbetween)]; [left|right].
  - split; [exact Hq|]. destruct H as [H|H]; [now left|right].
    intros r Hr Hlo. rewrite <- HE. now apply H.
  - repeat split; try assumption; [now rewrite <- HE|].
    intros r Hr Hlo Hhi. rewrite <- HE. now apply Hbetween.
Qed.

Section Construction.
Import Hash.
Context {TI : TokenInterface}.

Variable try_calloc : Z -> bool.
Variable inp : input.
Variable size : Z.

Hypothesis Hwf : well_formed inp.
Hypothesis Hsize : table_size try_calloc (Token_Array_Length inp) = Ret size.

Lemma length_below_2_62 : Token_Array_Length inp < 2 ^ 62.
Proof.
  destruct Hwf as (_ & _ & H). change (last prime 0) with 943899731087 in H. lia.
Qed.

Lemma window_inside_range (txts : list text) :
  forall lo r,
    texts_in_order lo txts (Token_Array_Length inp) ->
    window_inside inp txts r = true ->
    lo <= r /\ r + Min_Run_Size inp - 1 < Token_Array_Length inp.
Proof.
  induction txts as [|txt txts IH]; intros lo r Hord Hin; simpl in Hin.
  - discriminate.
  - simpl in Hord. destruct Hord as (Hs & Hl & Hrest).
    pose proof (texts_in_order_le _ _ _ Hrest) as Hle.
    apply orb_true_iff in Hin. destruct Hin as [Hin|Hin].
    + apply andb_true_iff in Hin. destruct Hin as [H1 H2].
      apply Z.leb_le in H1. apply Z.ltb_lt in H2. lia.
    + destruct (IH _ r Hrest Hin). lia.
Qed.

(** A threaded position is a position of the token store, the sentinel
    apart, and so is the last token of its window. *)
Lemma threaded_range (r : Z) :
  threaded inp r = true ->
  1 <= r /\ r + Min_Run_Size inp <= Token_Array_Length inp.
Proof.
  unfold threaded, window_in_text. intros H.
  apply andb_true_iff in H. destruct H as [_ H].
  destruct Hwf as (Hord & _ & _).
  destruct (window_inside_range _ _ _ Hord H). lia.
Qed.

(** The first sweep returns, and has threaded the positions that
    [threaded] tells. *)
Lemma first_sweep_threads (fr0 : Z -> Z) (li0 : Z -> Z) (size0 : Z)
      (sp0 : list Z) :
  (forall p, fr0 p = 0) ->
  exists st1,
    make_forward_references_hash1
      try_calloc inp
      (mk_hash_state fr0 (Token_Array_Length inp) li0 size0 sp0) = Ret st1
    /\ threaded_so_far inp size (sample_positions (Min_Run_Size inp))
                       (fun r => threaded inp r = true) st1.
Proof.
  intros Hfr0. unfold make_forward_references_hash1, init_hash_table.
  rewrite Hsize. unfold bind at 2. unfold bind.
  destruct Hwf as (Hord & Hsmall & Hlen).
  assert (Hmrs : 1 <= Min_Run_Size inp <= INT_MAX) by (unfold INT_MAX; lia).
  assert (Hstart :
    threaded_so_far inp size (sample_positions (Min_Run_Size inp))
      (fun _ => False)
      (mk_hash_state fr0 (Token_Array_Length inp) (fun _ => 0) size
                     (sample_positions (Min_Run_Size inp)))).
  { repeat split; cbn [last_index forward_reference].
    - intros h. left. split; [reflexivity|]. intros r [].
    - intros p. left. split; [apply Hfr0|]. left. intros []. }
  destruct (for_texts_threads inp size (sample_positions (Min_Run_Size inp))
              Hmrs (Text inp) 1 (fun _ => False) _
              ltac:(lia) Hord length_below_2_62 Hstart
              (fun r (F : False) => match F with end))
    as (st1 & Hrun & Hinv).
  exists st1. cbn [forward_reference n_forward_references].
  split; [exact Hrun|].
  eapply threaded_so_far_ext; [|exact Hinv].
  intros r. unfold threaded, window_in_text.
  rewrite andb_true_iff. tauto.
Qed.

(** [Make_Forward_References] returns; the table size and the sample
    positions are those of [init_hash_table], and every forward reference
    links a threaded position to the next threaded position whose window
    agrees under both hash codes, or is 0. *)
Lemma forward_references_built :
  exists st,
    Make_Forward_References try_calloc inp = Ret st
    /\ last_index_table_size st = size
    /\ sample_pos st = sample_positions (Min_Run_Size inp)
    /\ n_forward_references st = Token_Array_Length inp
    /\ forall p,
        links_to_next (fun r => threaded inp r = true) (hash_match inp st)
                      p (forward_reference st p).
Proof.
  unfold Make_Forward_References.
  destruct (first_sweep_threads
              (fun _ => 0) (last_index initial_state)
              (last_index_table_size initial_state) (sample_pos initial_state)
              (fun _ => eq_refl))
    as (st1 & Hrun1 & Hinv1).
  rewrite Hrun1. unfold bind, clean_forward_references_hash2.
  destruct Hwf as (Hord & Hsmall & Hlen).
  assert (Hmrs : 1 <= Min_Run_Size inp <= INT_MAX) by (unfold INT_MAX; lia).
  destruct Hinv1 as (Hs1 & Hsp1 & Hn1 & _ & Hfr1).
  destruct (for_clean_cleans inp size (sample_positions (Min_Run_Size inp))
              (fun r => threaded inp r = true) (forward_reference st1)
              Hmrs length_below_2_62 threaded_range Hfr1
              (Z.to_nat (Token_Array_Length inp)) 0 st1)
    as (st & Hrun & Hs & Hsp & Hn & Hlinks).
  - pose proof (texts_in_order_le _ _ _ Hord). lia.
  - lia.
  - repeat split; try assumption; try reflexivity.
    intros p Hp. destruct (Hfr1 p) as [[Hq _]|(_ & Hd & _)].
    + rewrite Hq. left. split; [reflexivity|]. left. intros Hd.
      destruct (threaded_range p Hd). lia.
    + destruct (threaded_range p Hd). lia.
  - exists st. repeat split; try assumption.
    intros p. eapply links_to_next_agree; [|apply Hlinks].
    intros a b. unfold hash_match. now rewrite Hs, Hsp.
Qed.

End Construction.

(** ** The forward references after construction *)

Section Chains.
Import Hash.
Context {TI : TokenInterface}.

Variable inp : input.

Lemma hash_match_common (st : hash_state) (a b c : Z) :
  hash_match inp st a c = true ->
  hash_match inp st b c = true ->
  hash_match inp st a b = true.
Proof.
  unfold hash_match, same_bucket, same_hash2.
  rewrite !andb_true_iff, !Z.eqb_eq. intros [H1 H2] [H3 H4]. split; congruence.
Qed.

Lemma hash_match_shift (st : hash_state) (a b c : Z) :
  hash_match inp st a b = true ->
  hash_match inp st a c = hash_match inp st b c.
Proof.
  unfold hash_match, same_bucket, same_hash2.
  rewrite andb_true_iff, !Z.eqb_eq. intros [H1 H2]. now rewrite H1, H2.
Qed.

Lemma threaded_iff (j : Z) :
  threaded inp j = true
  <-> May_Be_Start_Of_Run (Token_Array inp j) = true
      /\ exists txt, In txt (Text inp)
                     /\ tx_start txt <= j
                     /\ j + Min_Run_Size inp - 1 < tx_limit txt.
Proof.
  unfold threaded, window_in_text, window_inside.
  rewrite andb_true_iff, existsb_exists.
  split; intros [Hs (txt & Hin & H)]; (split; [exact Hs|]); exists txt;
    (split; [exact Hin|]).
  - apply andb_true_iff in H. now rewrite Z.leb_le, Z.ltb_lt in H.
  - apply andb_true_iff. now rewrite Z.leb_le, Z.ltb_lt.
Qed.

Lemma in_positions_from (n : nat) :
  forall lo r, In r (positions_from lo n) <-> lo <= r < lo + Z.of_nat n.
Proof.
  induction n as [|n IH]; intros lo r.
  - simpl. lia.
  - cbn [positions_from In]. rewrite IH. lia.
Qed.

Lemma positions_from_app (n m : nat) :
  forall lo,
    positions_from lo (n + m)
    = positions_from lo n ++ positions_from (lo + Z.of_nat n) m.
Proof.
  induction n as [|n IH]; intros lo.
  - simpl. now rewrite Z.add_0_r.
  - cbn [positions_from Nat.add app]. rewrite IH. do 3 f_equal. lia.
Qed.

Lemma last_nonempty {A : Type} (l : list A) :
  forall (x d d' : A), last (x :: l) d = last (x :: l) d'.
Proof.
  induction l as [|y l IH]; intros x d d'; [reflexivity|].
  change (last (y :: l) d = last (y :: l) d'). apply IH.
Qed.

Lemma filter_none {A : Type} (f : A -> bool) (l : list A) :
  (forall x, In x l -> f x = false) -> filter f l = [].
Proof.
  induction l as [|x l IH]; intros H; simpl; [reflexivity|].
  rewrite (H x (or_introl eq_refl)). apply IH. intros y Hy. apply H. now right.
Qed.

Variable st : hash_state.

Hypothesis Hrange :
  forall r, threaded inp r = true ->
            1 <= r /\ r + Min_Run_Size inp <= Token_Array_Length inp.
Hypothesis Hmrs : 1 <= Min_Run_Size inp.
Hypothesis Hlinks :
  forall p, links_to_next (fun r => threaded inp r = true) (hash_match inp st)
                          p (forward_reference st p).

(** Followed from any position, the chain reaches a 0. *)
Lemma chain_ends (fuel : nat) :
  forall p,
    Token_Array_Length inp - p <= Z.of_nat fuel ->
    forward_reference st (last (chain fuel (forward_reference st) p) p) = 0.
Proof.
  induction fuel as [|fuel IH]; intros p Hfuel.
  - simpl. destruct (Hlinks p) as [[Hq _]|(_ & Hd & _)]; [exact Hq|].
    destruct (Hrange p Hd). lia.
  - cbn [chain].
    destruct (forward_reference st p =? 0) eqn:Hq.
    + apply Z.eqb_eq in Hq. exact Hq.
    + destruct (Hlinks p) as [[Hq0 _]|(_ & _ & _ & Hlt & _)].
      * rewrite Hq0 in Hq. discriminate.
      * specialize (IH (forward_reference st p) ltac:(lia)).
        destruct (chain fuel (forward_reference st) (forward_reference st p))
          as [|q l] eqn:Hc; [exact IH|].
        change (last (forward_reference st p :: q :: l) p) with (last (q :: l) p).
        rewrite (last_nonempty l q p (forward_reference st p)).
        exact IH.
Qed.

(** The chain of a threaded position lists, in ascending order, the later
    threaded positions that agree with it under both hash codes. *)
Lemma chain_of_threaded (fuel : nat) :
  forall p,
    threaded inp p = true ->
    Token_Array_Length inp - p <= Z.of_nat fuel ->
    chain fuel (forward_reference st) p
    = filter (fun q => threaded inp q && hash_match inp st p q)
             (positions_from (p + 1)
                             (Z.to_nat (Token_Array_Length inp - p - 1))).
Proof.
  induction fuel as [|fuel IH]; intros p Hp Hfuel.
  - destruct (Hrange p Hp). lia.
  - cbn [chain].
    destruct (Hlinks p) as [[Hq H]|(Hq & _ & Hdq & Hlt & He & Hbetween)].
    + rewrite Hq, Z.eqb_refl. symmetry. apply filter_none.
      intros r Hr. apply in_positions_from in Hr.
      destruct H as [H|H]; [congruence|].
      destruct (threaded inp r) eqn:Hd; [|reflexivity].
      rewrite (H r Hd) by lia. reflexivity.
    + apply Z.eqb_neq in Hq. rewrite Hq.
      set (q := forward_reference st p) in *.
      destruct (Hrange q Hdq) as [Hq1 Hq2].
      rewrite (IH q Hdq) by lia.
      replace (Z.to_nat (Token_Array_Length inp - p - 1))
        with (Z.to_nat (q - p - 1)
              + (1 + Z.to_nat (Token_Array_Length inp - q - 1)))%nat by lia.
      rewrite positions_from_app, filter_app.
      rewrite (filter_none (fun r => threaded inp r && hash_match inp st p r)
                           (positions_from (p + 1) (Z.to_nat (q - p - 1)))).
      2:{ intros r Hr. apply in_positions_from in Hr.
          destruct (threaded inp r) eqn:Hd; [|reflexivity].
          rewrite (Hbetween r Hd) by lia. reflexivity. }
      replace (p + 1 + Z.of_nat (Z.to_nat (q - p - 1))) with q by lia.
      cbn [Nat.add positions_from app filter].
      rewrite Hdq, He. cbn [andb]. f_equal.
      apply filter_ext. intros r.
      now rewrite (hash_match_shift st p q r He).
Qed.

(** A position that is not threaded has an empty chain. *)
Lemma chain_of_other (fuel : nat) (p : Z) :
  threaded inp p = false -> chain fuel (forward_reference st) p = [].
Proof.
  intros Hp. destruct fuel as [|fuel]; [reflexivity|]. cbn [chain].
  destruct (Hlinks p) as [[Hq _]|(_ & Hd & _)]; [|congruence].
  now rewrite Hq.
Qed.

(** No two forward references meet. *)
Lemma forward_references_injective (i1 i2 : Z) :
  forward_reference st i1 = forward_reference st i2 ->
  forward_reference st i1 <> 0 ->
  i1 = i2.
Proof.
  intros Heq Hne.
  assert (Hlt : forall a b,
             forward_reference st a = forward_reference st b ->
             forward_reference st a <> 0 -> ~ a < b).
  { intros a b Hab Ha Hlt.
    destruct (Hlinks a) as [[Hq _]|(_ & _ & _ & _ & Hea & Hbetween)];
      [contradiction|].
    destruct (Hlinks b) as [[Hq _]|(_ & Hdb & _ & Hltb & Heb & _)];
      [congruence|].
    rewrite <- Hab in Heb, Hltb.
    pose proof (hash_match_common st a b _ Hea Heb) as Hm.
    rewrite (Hbetween b Hdb Hlt Hltb) in Hm. discriminate. }
  destruct (Z.lt_trichotomy i1 i2) as [H|[H|H]]; [|exact H|].
  - exfalso. exact (Hlt i1 i2 Heq Hne H).
  - exfalso. apply (Hlt i2 i1); [congruence|congruence|exact H].
Qed.

End Chains.

(** ** The table of forward references: main theorems *)

Section ForwardReferences.
Import Hash.
Context {TI : TokenInterface}.

Variable try_calloc : Z -> bool.
Variable inp : input.
Variable size : Z.

(** C3.  For texts laid in order from position 1 on, once
    [init_hash_table] has its table, [Make_Forward_References] returns
    with [forward_reference[0] = 0] and, for every [p > 0],
    [forward_reference[p] = 0] or [forward_reference[p] > p]; followed
    from any position, the chain reaches a 0 within
    [Token_Array_Length()] links.
    Stated for the inputs of [well_formed]: the texts in order and
    [1 <= Min_Run_Size <= 46684427], where every sample position lies
    inside the window. *)
Theorem chains_increase_and_end :
  well_formed inp ->
  table_size try_calloc (Token_Array_Length inp) = Ret size ->
  exists st,
    Make_Forward_References try_calloc inp = Ret st
    /\ forward_reference st 0 = 0
    /\ (forall p, 0 < p ->
                  forward_reference st p = 0 \/ p < forward_reference st p)
    /\ (forall p, 0 <= p ->
          forward_reference st
            (last (chain (Z.to_nat (Token_Array_Length inp))
                         (forward_reference st) p) p) = 0).
Proof.
  intros Hwf Hsize.
  destruct (forward_references_built try_calloc inp size Hwf Hsize)
    as (st & Hrun & _ & _ & _ & Hlinks).
  exists st. split; [exact Hrun|].
  pose proof (threaded_range inp Hwf) as Hrange.
  repeat split.
  - destruct (Hlinks 0) as [[Hq _]|(_ & Hd & _)]; [exact Hq|].
    destruct (Hrange 0 Hd). lia.
  - intros p Hp.
    destruct (Hlinks p) as [[Hq _]|(_ & _ & _ & Hlt & _)]; [now left|now right].
  - intros p Hp. destruct Hwf as (_ & Hmrs & _).
    apply (chain_ends inp st); try assumption; lia.
Qed.

(** C2.  After both sweeps no two positions have the same forward
    reference, unless it is 0: a position lies on one chain at most.
    Stated for the inputs of [well_formed]: the texts in order and
    [1 <= Min_Run_Size <= 46684427], where every sample position lies
    inside the window. *)
Theorem chains_are_disjoint :
  well_formed inp ->
  table_size try_calloc (Token_Array_Length inp) = Ret size ->
  exists st,
    Make_Forward_References try_calloc inp = Ret st
    /\ forall i1 i2,
        forward_reference st i1 = forward_reference st i2 ->
        forward_reference st i1 <> 0 ->
        i1 = i2.
Proof.
  intros Hwf Hsize.
  destruct (forward_references_built try_calloc inp size Hwf Hsize)
    as (st & Hrun & _ & _ & _ & Hlinks).
  exists st. split; [exact Hrun|].
  intros i1 i2. apply (forward_references_injective inp st); assumption.
Qed.

(** C9.  After construction, a position [p] with a forward reference
    that is not 0, and the position it refers to, are positions [j] on
    whose token a run may start and whose window ends inside a text:
    [tx_start <= j] and [j + Min_Run_Size - 1 < tx_limit] for one of the
    texts.
    Stated for the inputs of [well_formed]: the texts in order and
    [1 <= Min_Run_Size <= 46684427], where every sample position lies
    inside the window. *)
Theorem chains_stay_inside_texts :
  well_formed inp ->
  table_size try_calloc (Token_Array_Length inp) = Ret size ->
  exists st,
    Make_Forward_References try_calloc inp = Ret st
    /\ forall p j,
        forward_reference st p <> 0 ->
        j = p \/ j = forward_reference st p ->
        May_Be_Start_Of_Run (Token_Array inp j) = true
        /\ exists txt,
            In txt (Text inp)
            /\ tx_start txt <= j
            /\ j + Min_Run_Size inp - 1 < tx_limit txt.
Proof.
  intros Hwf Hsize.
  destruct (forward_references_built try_calloc inp size Hwf Hsize)
    as (st & Hrun & _ & _ & _ & Hlinks).
  exists st. split; [exact Hrun|].
  intros p j Hne Hj. apply threaded_iff.
  destruct (Hlinks p) as [[Hq _]|(_ & Hdp & Hdq & _)]; [contradiction|].
  destruct Hj as [->| ->]; assumption.
Qed.

(** C1, as the code has it.  After both sweeps the chain of a threaded
    position [p] (a run may start on its token, and its window ends
    inside its text) lists, in ascending order, exactly the threaded
    positions [q > p] whose window agrees with the one of [p] under
    [hash1] modulo the table size and under [hash2]; the chain of any
    other position is empty.
    Stated for the inputs of [well_formed]: the texts in order and
    [1 <= Min_Run_Size <= 46684427], where every sample position lies
    inside the window. *)
Theorem chain_lists_threaded_matches :
  well_formed inp ->
  table_size try_calloc (Token_Array_Length inp) = Ret size ->
  exists st,
    Make_Forward_References try_calloc inp = Ret st
    /\ last_index_table_size st = size
    /\ forall p,
        chain (Z.to_nat (Token_Array_Length inp)) (forward_reference st) p
        = if threaded inp p
          then filter (fun q => threaded inp q && hash_match inp st p q)
                      (positions_from
                         (p + 1) (Z.to_nat (Token_Array_Length inp - p - 1)))
          else [].
Proof.
  intros Hwf Hsize.
  destruct (forward_references_built try_calloc inp size Hwf Hsize)
    as (st & Hrun & Hs & _ & _ & Hlinks).
  exists st. split; [exact Hrun|]. split; [exact Hs|].
  pose proof (threaded_range inp Hwf) as Hrange.
  intros p. destruct (threaded inp p) eqn:Hd.
  - destruct Hwf as (_ & Hmrs & _). destruct (Hrange p Hd).
    apply (chain_of_threaded inp st); try assumption; lia.
  - apply (chain_of_other inp st); assumption.
Qed.

End ForwardReferences.

(** The two texts of [Examples.two_texts] are laid in order, and the
    table of 14051 entries is obtained. *)
Lemma chains_increase_and_end_witness :
  exists st,
    Hash.Make_Forward_References Examples.plenty Examples.two_texts = Ret st
    /\ Hash.forward_reference st 0 = 0
    /\ (forall p, 0 < p ->
                  Hash.forward_reference st p = 0
                  \/ p < Hash.forward_reference st p)
    /\ (forall p, 0 <= p ->
          Hash.forward_reference st
            (last (Hash.chain
                     (Z.to_nat (Hash.Token_Array_Length Examples.two_texts))
                     (Hash.forward_reference st) p) p) = 0).
Proof.
  apply (chains_increase_and_end Examples.plenty Examples.two_texts 14051).
  - unfold Hash.well_formed, INT_MAX. cbn. lia.
  - reflexivity.
Defined.

Lemma chains_are_disjoint_witness :
  exists st,
    Hash.Make_Forward_References Examples.plenty Examples.two_texts = Ret st
    /\ forall i1 i2,
        Hash.forward_reference st i1 = Hash.forward_reference st i2 ->
        Hash.forward_reference st i1 <> 0 ->
        i1 = i2.
Proof.
  apply (chains_are_disjoint Examples.plenty Examples.two_texts 14051).
  - unfold Hash.well_formed, INT_MAX. cbn. lia.
  - reflexivity.
Defined.

Lemma chains_stay_inside_texts_witness :
  exists st,
    Hash.Make_Forward_References Examples.plenty Examples.two_texts = Ret st
    /\ forall p j,
        Hash.forward_reference st p <> 0 ->
        j = p \/ j = Hash.forward_reference st p ->
        May_Be_Start_Of_Run (Hash.Token_Array Examples.two_texts j) = true
        /\ exists txt,
            In txt (Hash.Text Examples.two_texts)
            /\ tx_start txt <= j
            /\ j + Hash.Min_Run_Size Examples.two_texts - 1 < tx_limit txt.
Proof.
  apply (chains_stay_inside_texts Examples.plenty Examples.two_texts 14051).
  - unfold Hash.well_formed, INT_MAX. cbn. lia.
  - reflexivity.
Defined.

Lemma chain_lists_threaded_matches_witness :
  exists st,
    Hash.Make_Forward_References Examples.plenty Examples.two_texts = Ret st
    /\ Hash.last_index_table_size st = 14051
    /\ forall p,
        Hash.chain (Z.to_nat (Hash.Token_Array_Length Examples.two_texts))
                   (Hash.forward_reference st) p
        = if Hash.threaded Examples.two_texts p
          then filter (fun q => Hash.threaded Examples.two_texts q
                                && Hash.hash_match Examples.two_texts st p q)
                      (Hash.positions_from
                         (p + 1)
                         (Z.to_nat (Hash.Token_Array_Length Examples.two_texts
                                    - p - 1)))
          else [].
Proof.
  apply (chain_lists_threaded_matches Examples.plenty Examples.two_texts 14051).
  - unfold Hash.well_formed, INT_MAX. cbn. lia.
  - reflexivity.
Defined.

(** C1, as stated, fails twice.  On [Examples.two_texts] ([5 6 5] and
    [6 5 6], [Min_Run_Size = 2]) the window at position 3 holds the tokens
    [5 6] of the window at position 1 and has its hash codes, but it runs
    past the limit of the first text: the first sweep does not thread
    position 3, and the chain of position 1 is [5] alone.  On
    [Examples.one_text] ([59 5 59 5 7]) the windows at positions 1 and 3
    are the same, [59 5], and lie inside the text, but no run may start
    on the token 59: neither position is threaded, and the chain of
    position 1 is empty. *)
Lemma chain_misses_a_matching_window :
  (exists st,
      Hash.Make_Forward_References Examples.plenty Examples.two_texts = Ret st
      /\ Hash.hash_match Examples.two_texts st 1 3 = true
      /\ Hash.chain 7 (Hash.forward_reference st) 1 = [5]
      /\ ~ (forall p q,
               In q (Hash.chain 7 (Hash.forward_reference st) p)
               <-> (p < q
                    /\ q + Hash.Min_Run_Size Examples.two_texts
                       <= Hash.Token_Array_Length Examples.two_texts
                    /\ Hash.hash_match Examples.two_texts st p q = true)))
  /\ (exists st,
         Hash.Make_Forward_References Examples.plenty Examples.one_text = Ret st
         /\ Hash.hash_match Examples.one_text st 1 3 = true
         /\ Hash.chain 6 (Hash.forward_reference st) 1 = []
         /\ ~ (forall p q,
                  In q (Hash.chain 6 (Hash.forward_reference st) p)
                  <-> (p < q
                       /\ q + Hash.Min_Run_Size Examples.one_text
                          <= Hash.Token_Array_Length Examples.one_text
                       /\ Hash.hash_match Examples.one_text st p q = true))).
Proof.
  split.
  - exists Examples.two_texts_state.
    split; [vm_compute; reflexivity|].
    split; [vm_compute; reflexivity|].
    split; [vm_compute; reflexivity|].
    intros H.
    destruct (H 1 3) as [_ Hback].
    assert (Hpre :
      1 < 3
      /\ 3 + Hash.Min_Run_Size Examples.two_texts
         <= Hash.Token_Array_Length Examples.two_texts
      /\ Hash.hash_match Examples.two_texts Examples.two_texts_state 1 3 = true).
    { split; [reflexivity|].
      split; [vm_compute; discriminate|vm_compute; reflexivity]. }
    specialize (Hback Hpre). vm_compute in Hback.
    destruct Hback as [Hb|[]]. discriminate Hb.
  - exists Examples.one_text_state.
    split; [vm_compute; reflexivity|].
    split; [vm_compute; reflexivity|].
    split; [vm_compute; reflexivity|].
    intros H.
    destruct (H 1 3) as [_ Hback].
    assert (Hpre :
      1 < 3
      /\ 3 + Hash.Min_Run_Size Examples.one_text
         <= Hash.Token_Array_Length Examples.one_text
      /\ Hash.hash_match Examples.one_text Examples.one_text_state 1 3 = true).
    { split; [reflexivity|].
      split; [vm_compute; discriminate|vm_compute; reflexivity]. }
    specialize (Hback Hpre). vm_compute in Hback. exact Hback.
Qed.

(* ------------------------------------------------------------------ *)
(** ** More of [hash.c]: what the table holds *)

Section BuiltTable.
Import Hash.
Context {TI : TokenInterface}.

Variable try_calloc : Z -> bool.
Variable inp : input.
Variable size : Z.

(** X2.  After [Make_Forward_References], [n_forward_references] is the
    length of the token store; a forward reference that is not 0 leads
    from a position [p >= 1] to a later position whose window of
    [Min_Run_Size] tokens ends inside the store; a position whose window
    reaches the end of the store has the forward reference 0; and
    [Forward_Reference(i)] is not fatal for [1 <= i < Token_Array_Length()]:
    it returns 0 or a position between [i] and the length.
    Stated for the inputs of [well_formed]: the texts in order and
    [1 <= Min_Run_Size <= 46684427], where every sample position lies
    inside the window. *)
Theorem forward_references_in_range :
  well_formed inp ->
  table_size try_calloc (Token_Array_Length inp) = Ret size ->
  exists st,
    Make_Forward_References try_calloc inp = Ret st
    /\ n_forward_references st = Token_Array_Length inp
    /\ (forall p,
           forward_reference st p <> 0 ->
           1 <= p < forward_reference st p
           /\ forward_reference st p + Min_Run_Size inp
              <= Token_Array_Length inp)
    /\ (forall p,
           Token_Array_Length inp <= p + Min_Run_Size inp ->
           forward_reference st p = 0)
    /\ (forall i,
           1 <= i < Token_Array_Length inp ->
           exists v,
             Forward_Reference st i = Ret v
             /\ (v = 0 \/ i < v < Token_Array_Length inp)).
Proof.
  intros Hwf Hsize.
  destruct (forward_references_built try_calloc inp size Hwf Hsize)
    as (st & Hrun & _ & _ & Hn & Hlinks).
  pose proof (threaded_range inp Hwf) as Hrange.
  assert (Hmrs : 1 <= Min_Run_Size inp) by (destruct Hwf as (_ & H & _); lia).
  assert (Hin : forall p,
             forward_reference st p <> 0 ->
             1 <= p < forward_reference st p
             /\ forward_reference st p + Min_Run_Size inp
                <= Token_Array_Length inp).
  { intros p Hne.
    destruct (Hlinks p) as [[Hq _]|(_ & Hdp & Hdq & Hlt & _)]; [contradiction|].
    destruct (Hrange _ Hdp), (Hrange _ Hdq). lia. }
  exists st. split; [exact Hrun|]. split; [exact Hn|].
  split; [exact Hin|]. split.
  - intros p Hp.
    destruct (Z.eq_dec (forward_reference st p) 0) as [H0|Hne]; [exact H0|].
    specialize (Hin p Hne). lia.
  - intros i Hi. exists (forward_reference st i). split.
    + unfold Forward_Reference. rewrite Hn.
      assert (E0 : (i =? 0) = false) by (apply Z.eqb_neq; lia).
      assert (E1 : (Token_Array_Length inp <=? i) = false)
        by (apply Z.leb_gt; lia).
      rewrite E0, E1. reflexivity.
    + destruct (Z.eq_dec (forward_reference st i) 0) as [H0|Hne]; [now left|].
      right. specialize (Hin i Hne). lia.
Qed.

End BuiltTable.

Section SampleEnds.
Import Hash.

Lemma nth_sample_positions (mrs : Z) (n : nat) :
  (n < 24)%nat ->
  nth n (sample_positions mrs) 0 = sample_position mrs (Z.of_nat n).
Proof.
  intros Hn. unfold sample_positions.
  change (Z.to_nat N_SAMPLES) with 24%nat.
  rewrite (nth_indep _ 0 (sample_position mrs (Z.of_nat 0)))
    by (rewrite length_map, length_seq; exact Hn).
  rewrite (map_nth (fun k => sample_position mrs (Z.of_nat k)) (seq 0 24) 0%nat n).
  now rewrite seq_nth.
Qed.

Lemma sample_position_values (mrs : Z) (n : nat) :
  1 <= mrs <= 46684427 ->
  (n < 24)%nat ->
  nth n (sample_positions mrs) 0 = (2 * Z.of_nat n * (mrs - 1) + 23) / 46
  /\ 0 <= nth n (sample_positions mrs) 0 < mrs.
Proof.
  intros Hm Hn. rewrite nth_sample_positions by exact Hn.
  apply (sample_position_in_window mrs (Z.of_nat n) Hm).
  unfold N_SAMPLES. lia.
Qed.

(** X5.  For [1 <= Min_Run_Size <= 46684427], where the product of the
    formula stays inside [int], the sample positions that
    [init_hash_table] stores begin with 0, end with [Min_Run_Size - 1],
    do not decrease, and all lie inside the window. *)
Theorem sample_positions_span_window (mrs : Z) :
  1 <= mrs <= 46684427 ->
  nth 0 (sample_positions mrs) 0 = 0
  /\ nth 23 (sample_positions mrs) 0 = mrs - 1
  /\ (forall n m : nat,
         (n <= m < 24)%nat ->
         nth n (sample_positions mrs) 0 <= nth m (sample_positions mrs) 0)
  /\ (forall n : nat,
         (n < 24)%nat -> 0 <= nth n (sample_positions mrs) 0 < mrs).
Proof.
  intros Hm.
  pose proof (fun n => sample_position_values mrs n Hm) as Hf.
  split; [|split; [|split]].
  - rewrite (proj1 (Hf 0%nat ltac:(lia))). reflexivity.
  - rewrite (proj1 (Hf 23%nat ltac:(lia))).
    change (Z.of_nat 23) with 23.
    replace (2 * 23 * (mrs - 1) + 23) with (23 + (mrs - 1) * 46) by lia.
    rewrite Z.div_add by lia. reflexivity.
  - intros n m Hnm.
    rewrite (proj1 (Hf n ltac:(lia))), (proj1 (Hf m ltac:(lia))).
    apply Z.div_le_mono; [lia|nia].
  - intros n Hn. apply (Hf n Hn).
Qed.

End SampleEnds.

Section EqualWindows.
Import Hash.
Context {TI : TokenInterface}.

Lemma fold_left_agree {A B : Type} (f g : A -> B -> A) (l : list B) :
  (forall a x, In x l -> f a x = g a x) ->
  forall a, fold_left f l a = fold_left g l a.
Proof.
  induction l as [|x l IH]; intros H a; [reflexivity|].
  cbn [fold_left]. rewrite (H a x (or_introl eq_refl)).
  apply IH. intros b y Hy. apply H. now right.
Qed.

(** [hash1] and [hash2] read the tokens at the sample positions only. *)
Lemma hash1_same_samples (sp : list Z) (p q : Z -> Token) :
  (forall n : nat, (n < 24)%nat ->
                   Token2int (p (nth n sp 0)) = Token2int (q (nth n sp 0))) ->
  hash1 sp p = hash1 sp q.
Proof.
  intros H. unfold hash1. apply (f_equal size_t). apply fold_left_agree.
  intros a n Hn. apply in_seq in Hn.
  change (Z.to_nat N_SAMPLES) with 24%nat in Hn.
  rewrite (H n) by lia. reflexivity.
Qed.

Lemma hash2_same_samples (sp : list Z) (p q : Z -> Token) :
  (forall n : nat, (n < 24)%nat ->
                   Token2int (p (nth n sp 0)) = Token2int (q (nth n sp 0))) ->
  hash2 sp p = hash2 sp q.
Proof.
  intros H. unfold hash2. cbv zeta.
  change (Z.to_nat 0) with 0%nat.
  change (Z.to_nat (N_SAMPLES - 1)) with 23%nat.
  change (Z.to_nat (Z.quot (N_SAMPLES - 1) 2)) with 11%nat.
  change (Z.to_nat (Z.quot ((N_SAMPLES - 1) * 1) 4)) with 5%nat.
  change (Z.to_nat (Z.quot ((N_SAMPLES - 1) * 3) 4)) with 17%nat.
  rewrite (H 0%nat), (H 23%nat), (H 11%nat), (H 5%nat), (H 17%nat) by lia.
  reflexivity.
Qed.

Variable try_calloc : Z -> bool.
Variable inp : input.
Variable size : Z.

(** X1.  No true match is lost.  When two threaded positions [p < q] hold
    the same [Min_Run_Size] tokens (under [Token2int]), [q] is on the
    chain of [p] after the two sweeps: [hash1] and [hash2] read the window
    at the sample positions only, which lie inside it. *)
Theorem equal_windows_are_chained :
  well_formed inp ->
  Min_Run_Size inp <= 46684427 ->
  table_size try_calloc (Token_Array_Length inp) = Ret size ->
  exists st,
    Make_Forward_References try_calloc inp = Ret st
    /\ forall p q,
        threaded inp p = true -> threaded inp q = true -> p < q ->
        (forall k, 0 <= k < Min_Run_Size inp ->
                   Token2int (Token_Array inp (p + k))
                   = Token2int (Token_Array inp (q + k))) ->
        In q (chain (Z.to_nat (Token_Array_Length inp))
                    (forward_reference st) p).
Proof.
  intros Hwf Hbig Hsize.
  destruct (forward_references_built try_calloc inp size Hwf Hsize)
    as (st & Hrun & Hs & Hsp & _ & Hlinks).
  pose proof (threaded_range inp Hwf) as Hrange.
  assert (Hmrs : 1 <= Min_Run_Size inp) by (destruct Hwf as (_ & H & _); lia).
  exists st. split; [exact Hrun|].
  intros p q Hp Hq Hlt Hwin.
  destruct (Hrange p Hp), (Hrange q Hq).
  rewrite (chain_of_threaded inp st) by (try assumption; lia).
  apply filter_In. split.
  - apply in_positions_from. lia.
  - rewrite Hq. cbn [andb].
    assert (Hsamples : forall n : nat, (n < 24)%nat ->
      Token2int (Token_Array inp (p + nth n (sample_positions (Min_Run_Size inp)) 0))
      = Token2int (Token_Array inp (q + nth n (sample_positions (Min_Run_Size inp)) 0))).
    { intros n Hn. apply Hwin.
      apply (sample_position_values (Min_Run_Size inp) n ltac:(lia) Hn). }
    unfold hash_match, same_bucket, same_hash2, bucket, hash2_at.
    rewrite Hs, Hsp.
    rewrite (hash1_same_samples _ (fun k => Token_Array inp (p + k))
                                (fun k => Token_Array inp (q + k)) Hsamples).
    rewrite (hash2_same_samples _ (fun k => Token_Array inp (p + k))
                                (fun k => Token_Array inp (q + k)) Hsamples).
    rewrite !Z.eqb_refl. reflexivity.
Qed.

End EqualWindows.

Section EdgeCases.
Import Hash.
Context {TI : TokenInterface}.

Variable try_calloc : Z -> bool.
Variable inp : input.
Variable size : Z.

(** X3.  When no run may start on any token, or when every text is
    shorter than [Min_Run_Size], the two sweeps leave every forward
    reference 0.
    Stated for the inputs of [well_formed]: the texts in order and
    [1 <= Min_Run_Size <= 46684427], where every sample position lies
    inside the window. *)
Theorem nothing_to_thread :
  well_formed inp ->
  table_size try_calloc (Token_Array_Length inp) = Ret size ->
  (forall j, May_Be_Start_Of_Run (Token_Array inp j) = false)
  \/ (forall txt, In txt (Text inp) ->
                  tx_limit txt - tx_start txt < Min_Run_Size inp) ->
  exists st,
    Make_Forward_References try_calloc inp = Ret st
    /\ forall p, forward_reference st p = 0.
Proof.
  intros Hwf Hsize Hnone.
  destruct (forward_references_built try_calloc inp size Hwf Hsize)
    as (st & Hrun & _ & _ & _ & Hlinks).
  exists st. split; [exact Hrun|].
  assert (Hno : forall p, threaded inp p = false).
  { intros p. unfold threaded. destruct Hnone as [Hskip|Hshort].
    - rewrite Hskip. reflexivity.
    - apply andb_false_iff. right.
      unfold window_in_text, window_inside.
      destruct (existsb _ (Text inp)) eqn:He; [|reflexivity].
      apply existsb_exists in He. destruct He as (txt & Hin & Hw).
      apply andb_true_iff in Hw. destruct Hw as [H1 H2].
      apply Z.leb_le in H1. apply Z.ltb_lt in H2.
      specialize (Hshort txt Hin). lia. }
  intros p.
  destruct (Hlinks p) as [[Hq _]|(_ & Hd & _)]; [exact Hq|].
  rewrite Hno in Hd. discriminate Hd.
Qed.

End EdgeCases.

Section TableSizeMore.
Import Hash.

Lemma ideal_size_index (ps : list Z) :
  forall (n k : nat) (len : Z),
    ideal_size ps n len = Ret k ->
    (n <= k < n + List.length ps)%nat
    /\ len <= nth (k - n) ps 0
    /\ forall i, (i < k - n)%nat -> nth i ps 0 < len.
Proof.
  induction ps as [|p ps IH]; intros n k len H; cbn [ideal_size] in H.
  - discriminate H.
  - destruct (p <? len) eqn:Hp.
    + apply Z.ltb_lt in Hp.
      destruct (IH _ _ _ H) as (Hk & Hge & Hlt).
      replace (k - n)%nat with (S (k - S n)) by lia.
      cbn [List.length nth]. split; [lia|]. split; [exact Hge|].
      intros i Hi. destruct i as [|i]; [exact Hp|]. apply Hlt. lia.
    + apply Z.ltb_ge in Hp. injection H as <-.
      rewrite Nat.sub_diag. cbn [List.length nth].
      split; [lia|]. split; [exact Hp|]. intros i Hi. lia.
Qed.

Lemma step_down_eq (try_calloc : Z -> bool) (n : nat) :
  step_down try_calloc n
  = if try_calloc (nth n prime 0) then Ret (nth n prime 0)
    else match n with
         | O => Fatal "out of memory"
         | S n' => step_down try_calloc n'
         end.
Proof. destruct n; reflexivity. Qed.

Lemma step_down_granted (try_calloc : Z -> bool) (n : nat) (size : Z) :
  step_down try_calloc n = Ret size ->
  exists j, (j <= n)%nat
            /\ size = nth j prime 0
            /\ try_calloc size = true
            /\ forall i, (j < i <= n)%nat ->
                         try_calloc (nth i prime 0) = false.
Proof.
  induction n as [|n IH]; rewrite step_down_eq;
    destruct (try_calloc (nth _ prime 0)) eqn:Hn; intros H.
  - injection H as <-. exists 0%nat. repeat split; try assumption; lia.
  - discriminate H.
  - injection H as <-. exists (S n). repeat split; try assumption; lia.
  - destruct (IH H) as (j & Hj & Hs & Ht & Hf).
    exists j. repeat split; try assumption; [lia|].
    intros i Hi. destruct (Nat.eq_dec i (S n)) as [->|Hne]; [exact Hn|].
    apply Hf. lia.
Qed.

Lemma step_down_refused (try_calloc : Z -> bool) (n : nat) :
  (forall i, (i <= n)%nat -> try_calloc (nth i prime 0) = false) ->
  step_down try_calloc n = Fatal "out of memory".
Proof.
  induction n as [|n IH]; intros H; rewrite step_down_eq, (H _ (le_n _)).
  - reflexivity.
  - apply IH. intros i Hi. apply H. lia.
Qed.

Lemma table_size_steps (try_calloc : Z -> bool) (len size : Z) :
  table_size try_calloc len = Ret size ->
  exists j k : nat,
    (j <= k < List.length prime)%nat
    /\ size = nth j prime 0
    /\ try_calloc size = true
    /\ len <= nth k prime 0
    /\ (forall i, (i < k)%nat -> nth i prime 0 < len)
    /\ (forall i, (j < i <= k)%nat -> try_calloc (nth i prime 0) = false).
Proof.
  unfold table_size. intros H.
  destruct (ideal_size prime 0 len) as [k| | |] eqn:Hk; try discriminate H.
  cbn [bind] in H.
  destruct (ideal_size_index _ _ _ _ Hk) as (Hrange & Hge & Hlt).
  rewrite Nat.sub_0_r in Hge, Hlt.
  destruct (step_down_granted _ _ _ H) as (j & Hj & Hs & Ht & Hf).
  exists j, k. repeat split; try assumption; lia.
Qed.

(** X6.  The size [init_hash_table] leaves in [last_index_table_size] is
    an entry [prime[j]] for which [TryCalloc] returned a block; the search
    started at [prime[k]], the first entry that is not below the length of
    the token store, and every size from [prime[k]] down to [prime[j+1]]
    was refused; when [prime[k]] itself is granted the table is not
    smaller than the token store. *)
Theorem table_size_granted (try_calloc : Z -> bool) (len size : Z) :
  table_size try_calloc len = Ret size ->
  exists j k : nat,
    (j <= k < List.length prime)%nat
    /\ size = nth j prime 0
    /\ try_calloc size = true
    /\ len <= nth k prime 0
    /\ (forall i, (i < k)%nat -> nth i prime 0 < len)
    /\ (forall i, (j < i <= k)%nat -> try_calloc (nth i prime 0) = false)
    /\ (try_calloc (nth k prime 0) = true -> len <= size).
Proof.
  intros H.
  destruct (table_size_steps _ _ _ H)
    as (j & k & Hjk & Hs & Ht & Hge & Hlt & Hf).
  exists j, k.
  split; [exact Hjk|]. split; [exact Hs|]. split; [exact Ht|].
  split; [exact Hge|]. split; [exact Hlt|]. split; [exact Hf|].
  intros Hk. destruct (Nat.eq_dec j k) as [->|Hne]; [now rewrite Hs|].
  rewrite Hf in Hk by lia. discriminate Hk.
Qed.

Lemma step_down_fatal (try_calloc : Z -> bool) (n : nat) (msg : string) :
  step_down try_calloc n = Fatal msg ->
  forall i, (i <= n)%nat -> try_calloc (nth i prime 0) = false.
Proof.
  induction n as [|n IH]; rewrite step_down_eq;
    destruct (try_calloc (nth _ prime 0)) eqn:Hn; intros H i Hi;
    try discriminate H.
  - replace i with 0%nat by lia. exact Hn.
  - destruct (Nat.eq_dec i (S n)) as [->|Hne]; [exact Hn|].
    apply (IH H). lia.
Qed.

Lemma table_size_refused (try_calloc : Z -> bool) (len : Z) (k : nat) :
  ideal_size prime 0 len = Ret k ->
  (forall i, (i <= k)%nat -> try_calloc (nth i prime 0) = false) ->
  table_size try_calloc len = Fatal "out of memory".
Proof.
  intros Hk Hno. unfold table_size. rewrite Hk. cbn [bind].
  apply step_down_refused. exact Hno.
Qed.

(** X8.  For a token store that the schedule of primes covers, the first
    loop of [init_hash_table] stops at the first entry [prime[k]] that is
    not below the length, and [init_hash_table] is fatal with
    "out of memory" exactly when [TryCalloc] refuses every size from
    [prime[k]] down to [prime[0]]; it knows no other fatal error. *)
Theorem table_size_out_of_memory (try_calloc : Z -> bool) (len : Z) :
  len <= last prime 0 ->
  exists k : nat,
    ideal_size prime 0 len = Ret k
    /\ (k < List.length prime)%nat
    /\ len <= nth k prime 0
    /\ (forall i, (i < k)%nat -> nth i prime 0 < len)
    /\ (table_size try_calloc len = Fatal "out of memory"
        <-> forall i, (i <= k)%nat -> try_calloc (nth i prime 0) = false)
    /\ (forall msg, table_size try_calloc len = Fatal msg ->
                    msg = "out of memory"%string).
Proof.
  intros Hlen.
  destruct (ideal_size_returns prime 0 len ltac:(discriminate) Hlen) as [k Hk].
  destruct (ideal_size_index _ _ _ _ Hk) as (Hrange & Hge & Hlt).
  rewrite Nat.sub_0_r in Hge, Hlt.
  exists k. split; [exact Hk|]. split; [lia|]. split; [exact Hge|].
  split; [exact Hlt|]. split; [split|].
  - unfold table_size. rewrite Hk. cbn [bind]. apply step_down_fatal.
  - apply table_size_refused. exact Hk.
  - intros msg H.
    destruct (table_size_outcome try_calloc len Hlen) as [[size Hs]|Hf];
      congruence.
Qed.

End TableSizeMore.

Section OutOfMemory.
Import Hash.
Context {TI : TokenInterface}.

(** X9.  When [TryCalloc] refuses every size from the ideal one down to
    the smallest, [Make_Forward_References] ends in the fatal error
    "out of memory" of [init_hash_table], before any forward reference
    is set. *)
Theorem Make_Forward_References_out_of_memory
        (try_calloc : Z -> bool) (inp : input) (k : nat) :
  ideal_size prime 0 (Token_Array_Length inp) = Ret k ->
  (forall i, (i <= k)%nat -> try_calloc (nth i prime 0) = false) ->
  Make_Forward_References try_calloc inp = Fatal "out of memory".
Proof.
  intros Hk Hno.
  unfold Make_Forward_References, make_forward_references_hash1,
    init_hash_table.
  rewrite (table_size_refused try_calloc _ k Hk Hno). reflexivity.
Qed.

End OutOfMemory.

Section FirstSweepAlone.
Import Hash.
Context {TI : TokenInterface}.

Variable try_calloc : Z -> bool.
Variable inp : input.
Variable size : Z.

(** X4.  The first sweep alone: when the loops of
    [make_forward_references_hash1] end, the forward reference of a
    threaded position is the next threaded position with the same hash
    code [hash1 % last_index_table_size], or 0 when there is none, and
    that of another position is 0; [last_index[h]], just before the table
    is freed, is 0 when no threaded position has the hash code [h], and
    else the last threaded position that has it.
    Stated for the inputs of [well_formed]: the texts in order and
    [1 <= Min_Run_Size <= 46684427], where every sample position lies
    inside the window. *)
Theorem first_sweep_links_same_hash_code :
  well_formed inp ->
  table_size try_calloc (Token_Array_Length inp) = Ret size ->
  exists st1,
    make_forward_references_hash1
      try_calloc inp
      (mk_hash_state (fun _ => 0) (Token_Array_Length inp)
                     (last_index initial_state)
                     (last_index_table_size initial_state)
                     (sample_pos initial_state)) = Ret st1
    /\ (forall p,
           links_to_next (fun r => threaded inp r = true)
                         (same_bucket inp size
                                      (sample_positions (Min_Run_Size inp)))
                         p (forward_reference st1 p))
    /\ (forall h,
           (last_index st1 h = 0
            /\ forall r, threaded inp r = true ->
                         bucket inp size (sample_positions (Min_Run_Size inp)) r
                         <> h)
           \/ (threaded inp (last_index st1 h) = true
               /\ bucket inp size (sample_positions (Min_Run_Size inp))
                         (last_index st1 h) = h
               /\ forall r, threaded inp r = true ->
                            bucket inp size
                                   (sample_positions (Min_Run_Size inp)) r = h ->
                            r <= last_index st1 h)).
Proof.
  intros Hwf Hsize.
  destruct (first_sweep_threads try_calloc inp size Hwf Hsize
              (fun _ => 0) (last_index initial_state)
              (last_index_table_size initial_state) (sample_pos initial_state)
              (fun _ => eq_refl))
    as (st1 & Hrun & _ & _ & _ & Hlast & Hfr).
  exists st1. split; [exact Hrun|]. split; [exact Hfr|].
  intros h. destruct (Hlast h) as [H|(_ & H)]; [left; exact H|right; exact H].
Qed.

End FirstSweepAlone.

Section TableSizeBounds.
Import Hash.

Lemma prime_more_than_doubles (k : nat) :
  (S k < List.length prime)%nat ->
  2 * nth k prime 0 < nth (S k) prime 0 <= 2 * nth k prime 0 + 69.
Proof.
  intros Hk. unfold prime in *. cbn [List.length] in Hk.
  do 26 (destruct k as [|k]; [cbn [nth]; lia|]).
  lia.
Qed.

(** X7.  When [TryCalloc] never fails, the table has a size of the
    schedule that is not below the length of the token store, and it is
    the smallest size, 14051, or at most [2 * Token_Array_Length() + 67]:
    each prime of the schedule is a little more than twice the one
    before it. *)
Theorem table_size_with_memory (try_calloc : Z -> bool) (len : Z) :
  len <= last prime 0 ->
  (forall s, In s prime -> try_calloc s = true) ->
  exists size,
    table_size try_calloc len = Ret size
    /\ In size prime
    /\ len <= size
    /\ (size = 14051 \/ size <= 2 * len + 67).
Proof.
  intros Hlen Hmem.
  destruct (table_size_outcome try_calloc len Hlen) as [[size Hs]|Hf].
  - exists size. split; [exact Hs|].
    destruct (table_size_steps _ _ _ Hs)
      as (j & k & Hjk & Hsize & _ & Hge & Hlt & Hno).
    assert (Hj : j = k).
    { destruct (Nat.eq_dec j k) as [E|Hne]; [exact E|].
      pose proof (Hno k ltac:(lia)) as Hk'.
      rewrite Hmem in Hk' by (apply nth_In; lia). discriminate Hk'. }
    subst j. split; [rewrite Hsize; apply nth_In; lia|].
    split; [rewrite Hsize; exact Hge|].
    destruct k as [|k]; [left; exact Hsize|right].
    pose proof (prime_more_than_doubles k ltac:(lia)).
    pose proof (Hlt k ltac:(lia)). lia.
  - exfalso. unfold table_size in Hf.
    destruct (ideal_size_returns prime 0 len ltac:(discriminate) Hlen) as [k Hk].
    rewrite Hk in Hf. cbn [bind] in Hf.
    destruct (ideal_size_index _ _ _ _ Hk) as (Hrange & _).
    rewrite step_down_eq, Hmem in Hf by (apply nth_In; lia). discriminate Hf.
Qed.

End TableSizeBounds.

(** ** More of [percentages.c]: the list of matches and its printing *)

Section MatchList.
Import Percentages Aggregation.

Variable Text : list text.

(** The names in the list after [do_add_to_precentages]. *)
Lemma do_add_names (ch0 ch1 : chunk) (size : Z) (ms : list match_) :
  let f0 := tx_fname (text_at Text (ch_text ch0)) in
  let f1 := tx_fname (text_at Text (ch_text ch1)) in
  map names (do_add_to_precentages Text ch0 ch1 size ms)
  = if existsb (has_names f0 f1) ms then map names ms
    else map names ms ++ [(f0, f1)].
Proof.
  intros f0 f1. induction ms as [|m ms IH]; [reflexivity|].
  cbn [do_add_to_precentages existsb map]. fold f0 f1.
  change ((ma_fname0 m =? f0) && (ma_fname1 m =? f1)) with (has_names f0 f1 m).
  destruct (has_names f0 f1 m) eqn:Hm; cbn [orb map].
  - reflexivity.
  - rewrite IH. destruct (existsb (has_names f0 f1) ms); reflexivity.
Qed.

Lemma do_add_unique (ch0 ch1 : chunk) (size : Z) (ms : list match_) :
  NoDup (map names ms) ->
  NoDup (map names (do_add_to_precentages Text ch0 ch1 size ms)).
Proof.
  intros H. rewrite do_add_names. cbv zeta.
  destruct (existsb _ ms) eqn:He; [exact H|].
  apply NoDup_app; [exact H|repeat constructor; intros []|].
  intros k Hk [<-|[]].
  apply in_map_iff in Hk. destruct Hk as (m & Hm & Hin).
  assert (Ht : existsb (has_names (tx_fname (text_at Text (ch_text ch0)))
                                  (tx_fname (text_at Text (ch_text ch1)))) ms
               = true).
  { apply existsb_exists. exists m. split; [exact Hin|].
    apply has_names_eq. unfold names in Hm. now inversion Hm. }
  rewrite Ht in He. discriminate He.
Qed.

Lemma add_to_percentages_unique (r : run) (ms : list match_) :
  NoDup (map names ms) ->
  NoDup (map names (add_to_percentages Text r ms)).
Proof.
  intros H. unfold add_to_percentages.
  destruct (Nat.eqb _ _); [exact H|]. now apply do_add_unique, do_add_unique.
Qed.

Lemma do_add_length (ch0 ch1 : chunk) (size : Z) (ms : list match_) :
  (List.length ms <= List.length (do_add_to_precentages Text ch0 ch1 size ms)
   <= S (List.length ms))%nat.
Proof.
  induction ms as [|m ms IH]; cbn [do_add_to_precentages List.length]; [lia|].
  destruct (_ && _); cbn [List.length]; lia.
Qed.

Lemma add_to_percentages_both_ways (r : run) (ms : list match_) :
  same_both_ways ms -> same_both_ways (add_to_percentages Text r ms).
Proof.
  intros Hsym. unfold add_to_percentages.
  destruct (Nat.eqb _ _); [exact Hsym|].
  set (ca := rn_chunk0 r). set (cb := rn_chunk1 r). set (sz := rn_size r).
  set (fa := tx_fname (text_at Text (ch_text ca))).
  set (fb := tx_fname (text_at Text (ch_text cb))).
  pose proof (do_add_find_same Text ca cb sz ms) as Hab. cbv zeta in Hab.
  pose proof (do_add_find_same Text cb ca sz
                (do_add_to_precentages Text ca cb sz ms)) as Hba.
  cbv zeta in Hba. fold fa fb in Hab, Hba.
  intros g0 g1.
  destruct (Z.eq_dec g0 g1) as [->|Hg]; [reflexivity|].
  (* is (g0, g1) one of the two combinations of the run? *)
  destruct (Z.eq_dec g0 fa) as [E0|N0]; destruct (Z.eq_dec g1 fb) as [E1|N1];
    destruct (Z.eq_dec g0 fb) as [E2|N2]; destruct (Z.eq_dec g1 fa) as [E3|N3];
    subst;
    try (exfalso; congruence);
    try (rewrite !do_add_find_other by (fold fa fb; tauto); apply Hsym).
  - (* (fa, fb) and its mirror *)
    rewrite Hba.
    rewrite (do_add_find_other Text cb ca sz _ fa fb) by (fold fa fb; tauto).
    rewrite Hab.
    rewrite (do_add_find_other Text ca cb sz ms fb fa) by (fold fa fb; tauto).
    specialize (Hsym fa fb).
    destruct (find_match ms fa fb), (find_match ms fb fa);
      simpl in *; congruence.
  - rewrite Hba.
    rewrite (do_add_find_other Text cb ca sz _ fa fb) by (fold fa fb; tauto).
    rewrite Hab.
    rewrite (do_add_find_other Text ca cb sz ms fb fa) by (fold fa fb; tauto).
    specialize (Hsym fa fb).
    destruct (find_match ms fa fb), (find_match ms fb fa);
      simpl in *; congruence.
Qed.

(** X11.  Whatever runs [add_to_percentages] is given, starting from the
    empty list: no two records of the list have the same pair of file
    names, there are at most two records to a run, and the record of
    [(f0, f1)] exists exactly when the one of [(f1, f0)] does and then
    holds the same number of shared tokens. *)
Theorem add_runs_keeps_list_sound (rs : list run) :
  let ms := add_runs Text rs [] in
  NoDup (map names ms)
  /\ (List.length ms <= 2 * List.length rs)%nat
  /\ forall f0 f1,
      option_map ma_size (find_match ms f0 f1)
      = option_map ma_size (find_match ms f1 f0).
Proof.
  cbv zeta. unfold add_runs.
  assert (H : forall ms,
    NoDup (map names ms) -> same_both_ways ms ->
    NoDup (map names (fold_left (fun ms r => add_to_percentages Text r ms) rs ms))
    /\ (List.length
          (fold_left (fun ms r => add_to_percentages Text r ms) rs ms)
        <= List.length ms + 2 * List.length rs)%nat
    /\ same_both_ways
         (fold_left (fun ms r => add_to_percentages Text r ms) rs ms)).
  { induction rs as [|r rs' IH]; intros ms Hu Hs; cbn [fold_left List.length].
    - repeat split; try assumption. lia.
    - destruct (IH (add_to_percentages Text r ms)
                   (add_to_percentages_unique r ms Hu)
                   (add_to_percentages_both_ways r ms Hs)) as (H1 & H2 & H3).
      repeat split; try assumption.
      assert (List.length (add_to_percentages Text r ms)
              <= 2 + List.length ms)%nat.
      { unfold add_to_percentages. destruct (Nat.eqb _ _); [lia|].
        pose proof (do_add_length (rn_chunk0 r) (rn_chunk1 r) (rn_size r) ms).
        pose proof (do_add_length (rn_chunk1 r) (rn_chunk0 r) (rn_size r)
                      (do_add_to_precentages Text (rn_chunk0 r) (rn_chunk1 r)
                                             (rn_size r) ms)).
        lia. }
      lia. }
  destruct (H [] (NoDup_nil _) (fun _ _ => eq_refl)) as (H1 & H2 & H3).
  repeat split; assumption.
Qed.

End MatchList.

Section PrintingMore.
Import Percentages Aggregation.

Variable Threshold_Percentage : Z.

(** The loop of [print_and_remove_perc_info_for_top_file] writes the lines
    of the records of the file [fname], in their order, unless [-P] is
    set, and leaves the other records, in their order. *)
Lemma remove_contributors_filter (option_P : bool) (fname : Z)
      (ms : list match_) :
  remove_contributors Threshold_Percentage option_P fname ms
  = (if option_P then []
     else flat_map (print_perc_info Threshold_Percentage)
                   (filter (fun m => ma_fname0 m =? fname) ms),
     filter (fun m => negb (ma_fname0 m =? fname)) ms).
Proof.
  induction ms as [|m ms IH]; cbn [remove_contributors filter flat_map].
  - destruct option_P; reflexivity.
  - rewrite IH.
    destruct (ma_fname0 m =? fname); cbn [negb flat_map];
      destruct option_P; reflexivity.
Qed.

Lemma filter_split_permutation {A : Type} (f : A -> bool) (l : list A) :
  Permutation (filter f l ++ filter (fun x => negb (f x)) l) l.
Proof.
  induction l as [|x l IH]; cbn [filter]; [constructor|].
  destruct (f x); cbn [negb app].
  - now constructor.
  - apply Permutation_sym, Permutation_cons_app, Permutation_sym, IH.
Qed.

Lemma flat_map_permutation {A B : Type} (f : A -> list B) (l l' : list A) :
  Permutation l l' -> Permutation (flat_map f l) (flat_map f l').
Proof.
  induction 1; cbn [flat_map].
  - constructor.
  - now apply Permutation_app_head.
  - rewrite !app_assoc. apply Permutation_app_tail, Permutation_app_comm.
  - etransitivity; eassumption.
Qed.

Lemma print_loop_all_records (fuel : nat) :
  forall ms,
    (List.length ms <= fuel)%nat ->
    Permutation (fst (print_loop fuel Threshold_Percentage false ms))
                (flat_map (print_perc_info Threshold_Percentage) ms).
Proof.
  induction fuel as [|fuel IH]; intros ms Hlen.
  - destruct ms; [constructor|cbn [List.length] in Hlen; lia].
  - destruct ms as [|m ms]; [constructor|].
    cbn [print_loop print_and_remove_perc_info_for_top_file].
    rewrite remove_contributors_filter.
    set (same := filter (fun r => ma_fname0 r =? ma_fname0 m) ms).
    set (other := filter (fun r => negb (ma_fname0 r =? ma_fname0 m)) ms).
    assert (Hother : (List.length other <= fuel)%nat).
    { pose proof (filter_length_le
                    (fun r => negb (ma_fname0 r =? ma_fname0 m)) ms).
      cbn [List.length] in Hlen. subst other. lia. }
    specialize (IH other Hother).
    destruct (print_loop fuel Threshold_Percentage false other)
      as [out' final].
    cbn [fst] in *. cbn [flat_map]. rewrite <- app_assoc.
    apply Permutation_app_head.
    transitivity (flat_map (print_perc_info Threshold_Percentage)
                           (same ++ other)).
    + rewrite flat_map_app. now apply Permutation_app_head.
    + apply flat_map_permutation. apply filter_split_permutation.
Qed.

(** X12.  Without [-P], [print_percentages] writes the lines of all
    records, each record once: what is written is a rearrangement of the
    lines of the records taken in the order of the list. *)
Theorem print_percentages_every_record (match_start : list match_) :
  Permutation
    (fst (print_percentages Threshold_Percentage false match_start))
    (flat_map (print_perc_info Threshold_Percentage) match_start).
Proof.
  unfold print_percentages. apply print_loop_all_records. lia.
Qed.

Lemma find_filter {A : Type} (p q : A -> bool) (l : list A) :
  (forall x, p x = true -> q x = true) ->
  find p (filter q l) = find p l.
Proof.
  intros H. induction l as [|x l IH]; [reflexivity|].
  cbn [filter find].
  destruct (q x) eqn:Hq; cbn [find].
  - now rewrite IH.
  - destruct (p x) eqn:Hp; [|exact IH].
    rewrite (H x Hp) in Hq. discriminate Hq.
Qed.

Lemma print_perc_info_fname0 (m : match_) (ln : line) :
  In ln (print_perc_info Threshold_Percentage m) ->
  ln_fname0 ln = ma_fname0 m.
Proof.
  unfold print_perc_info. destruct (_ <=? _); [|intros []].
  intros [<-|[]]. reflexivity.
Qed.

Lemma print_perc_info_one_line (m : match_) :
  (List.length (print_perc_info Threshold_Percentage m) <= 1)%nat.
Proof.
  unfold print_perc_info. destruct (_ <=? _); cbn [List.length]; lia.
Qed.

Lemma print_loop_main_contributors (fuel : nat) :
  forall ms,
    (List.length ms <= fuel)%nat ->
    NoDup (map ln_fname0 (fst (print_loop fuel Threshold_Percentage true ms)))
    /\ forall ln,
        In ln (fst (print_loop fuel Threshold_Percentage true ms)) ->
        exists m,
          find (fun r => ma_fname0 r =? ln_fname0 ln) ms = Some m
          /\ In ln (print_perc_info Threshold_Percentage m).
Proof.
  induction fuel as [|fuel IH]; intros ms Hlen.
  - destruct ms; [|cbn [List.length] in Hlen; lia].
    cbn. split; [constructor|intros ln []].
  - destruct ms as [|m ms]; [cbn; split; [constructor|intros ln []]|].
    cbn [print_loop print_and_remove_perc_info_for_top_file].
    rewrite remove_contributors_filter.
    set (other := filter (fun r => negb (ma_fname0 r =? ma_fname0 m)) ms).
    assert (Hother : (List.length other <= fuel)%nat).
    { pose proof (filter_length_le
                    (fun r => negb (ma_fname0 r =? ma_fname0 m)) ms).
      cbn [List.length] in Hlen. subst other. lia. }
    destruct (IH other Hother) as [Hnodup Hlines].
    destruct (print_loop fuel Threshold_Percentage true other)
      as [out' final].
    cbn [fst] in *. rewrite app_nil_r.
    assert (Hrest : forall ln, In ln out' ->
              ln_fname0 ln <> ma_fname0 m
              /\ exists m',
                  find (fun r => ma_fname0 r =? ln_fname0 ln) (m :: ms)
                  = Some m'
                  /\ In ln (print_perc_info Threshold_Percentage m')).
    { intros ln Hin. destruct (Hlines ln Hin) as (m' & Hfind & Hln).
      pose proof (find_some _ _ Hfind) as [Hin' Hname].
      apply Z.eqb_eq in Hname.
      subst other. apply filter_In in Hin'. destruct Hin' as [_ Hne].
      apply negb_true_iff, Z.eqb_neq in Hne.
      split; [congruence|]. exists m'. split; [|exact Hln].
      cbn [find].
      assert (E : (ma_fname0 m =? ln_fname0 ln) = false)
        by (apply Z.eqb_neq; congruence).
      rewrite E. rewrite <- Hfind. symmetry. apply find_filter.
      intros x Hx. apply Z.eqb_eq in Hx.
      apply negb_true_iff, Z.eqb_neq. congruence. }
    split.
    + rewrite map_app. apply NoDup_app; [|exact Hnodup|].
      * pose proof (print_perc_info_one_line m) as H1.
        destruct (print_perc_info Threshold_Percentage m) as [|l1 [|l2 t]];
          [constructor|repeat constructor; intros []|cbn [List.length] in H1; lia].
      * intros f Hf Hf'.
        apply in_map_iff in Hf. destruct Hf as (ln & <- & Hln).
        apply in_map_iff in Hf'. destruct Hf' as (ln' & Heq & Hln').
        destruct (Hrest ln' Hln') as [Hne _].
        rewrite (print_perc_info_fname0 m ln Hln) in Heq. congruence.
    + intros ln Hin. apply in_app_or in Hin. destruct Hin as [Hin|Hin].
      * exists m. split; [|exact Hin]. cbn [find].
        rewrite (print_perc_info_fname0 m ln Hin), Z.eqb_refl. reflexivity.
      * apply (Hrest ln Hin).
Qed.

(** X13.  With [-P], [print_percentages] writes at most one line to a
    file: no two lines have the same first file name, and a line written
    for a file is the line of the first record of that file in the list,
    its main contributor once the list is sorted. *)
Theorem print_percentages_main_contributor_only (match_start : list match_) :
  NoDup (map ln_fname0
             (fst (print_percentages Threshold_Percentage true match_start)))
  /\ forall ln,
      In ln (fst (print_percentages Threshold_Percentage true match_start)) ->
      exists m,
        find (fun r => ma_fname0 r =? ln_fname0 ln) match_start = Some m
        /\ In ln (print_perc_info Threshold_Percentage m).
Proof.
  unfold print_percentages. apply print_loop_main_contributors. lia.
Qed.

End PrintingMore.

Section PrintingOrder.
Import Percentages Printing.

Variable Threshold_Percentage : Z.

Lemma top_files_from_in (ms : list match_) :
  forall (seen : list Z) (f : Z),
    In f (top_files_from seen ms)
    <-> existsb (Z.eqb f) seen = false
        /\ exists r, In r ms /\ ma_fname0 r = f.
Proof.
  induction ms as [|m ms IH]; intros seen f; cbn [top_files_from].
  - split; [intros []|intros (_ & r & [] & _)].
  - destruct (existsb (Z.eqb (ma_fname0 m)) seen) eqn:Hs.
    + rewrite IH. split.
      * intros (Hf & r & Hr & E). split; [exact Hf|].
        exists r. split; [now right|exact E].
      * intros (Hf & r & [->|Hr] & E).
        -- rewrite E in Hs. congruence.
        -- split; [exact Hf|]. exists r. split; assumption.
    + cbn [In]. rewrite IH. cbn [existsb]. split.
      * intros [<-|(Hf & r & Hr & E)].
        -- split; [exact Hs|]. exists m. split; [now left|reflexivity].
        -- apply orb_false_iff in Hf. split; [apply Hf|].
           exists r. split; [now right|exact E].
      * intros (Hf & r & [->|Hr] & E); [now left|].
        destruct (Z.eq_dec (ma_fname0 m) f) as [Heq|Hne]; [now left|right].
        split.
        -- apply orb_false_iff. split; [|exact Hf].
           apply Z.eqb_neq. congruence.
        -- exists r. split; assumption.
Qed.

Lemma top_files_from_nodup (ms : list match_) :
  forall seen, NoDup (top_files_from seen ms).
Proof.
  induction ms as [|m ms IH]; intros seen; cbn [top_files_from].
  - constructor.
  - destruct (existsb (Z.eqb (ma_fname0 m)) seen); [apply IH|].
    constructor; [|apply IH].
    intros Hin. apply top_files_from_in in Hin. destruct Hin as [Hf _].
    cbn [existsb] in Hf. rewrite Z.eqb_refl in Hf. discriminate Hf.
Qed.

Lemma filter_filter_and {A : Type} (f g : A -> bool) (l : list A) :
  filter f (filter g l) = filter (fun x => g x && f x) l.
Proof.
  induction l as [|x l IH]; cbn [filter]; [reflexivity|].
  destruct (g x); cbn [andb filter]; [destruct (f x)|]; now rewrite IH.
Qed.

Lemma filter_all {A : Type} (f : A -> bool) (l : list A) :
  (forall x, In x l -> f x = true) -> filter f l = l.
Proof.
  induction l as [|x l IH]; intros H; cbn [filter]; [reflexivity|].
  rewrite (H x (or_introl eq_refl)), IH; [reflexivity|].
  intros y Hy. apply H. now right.
Qed.

Lemma flat_map_agree {A B : Type} (f g : A -> list B) (l : list A) :
  (forall x, In x l -> f x = g x) -> flat_map f l = flat_map g l.
Proof.
  induction l as [|x l IH]; intros H; cbn [flat_map]; [reflexivity|].
  rewrite (H x (or_introl eq_refl)), IH; [reflexivity|].
  intros y Hy. apply H. now right.
Qed.

(** A record of another file changes nothing to what is shown of [f]. *)
Lemma records_shown_other (option_P : bool) (f : Z) (m : match_)
      (ms : list match_) :
  ma_fname0 m <> f ->
  records_shown option_P f (m :: ms) = records_shown option_P f ms.
Proof.
  intros Hne. unfold records_shown. cbn [filter].
  apply Z.eqb_neq in Hne. rewrite Hne. reflexivity.
Qed.

Lemma print_loop_nil (fuel : nat) (option_P : bool) :
  print_loop fuel Threshold_Percentage option_P [] = ([], []).
Proof. destruct fuel; reflexivity. Qed.

Lemma print_loop_groups (option_P : bool) (ms : list match_) :
  forall (fuel : nat) (seen : list Z),
    (List.length (filter (unseen seen) ms) <= fuel)%nat ->
    fst (print_loop fuel Threshold_Percentage option_P
                    (filter (unseen seen) ms))
    = flat_map (fun f => flat_map (print_perc_info Threshold_Percentage)
                                  (records_shown option_P f ms))
               (top_files_from seen ms).
Proof.
  induction ms as [|m ms IH]; intros fuel seen Hlen.
  - cbn [filter top_files_from flat_map]. now rewrite print_loop_nil.
  - cbn [filter top_files_from] in *. unfold unseen at 1 in Hlen.
    unfold unseen at 1.
    destruct (existsb (Z.eqb (ma_fname0 m)) seen) eqn:Hs; cbn [negb] in *.
    + rewrite (IH fuel seen Hlen). apply flat_map_agree.
      intros f Hf. apply top_files_from_in in Hf. destruct Hf as [Hf _].
      rewrite records_shown_other; [reflexivity|].
      intros E. rewrite E in Hs. congruence.
    + destruct fuel as [|fuel]; [cbn [List.length] in Hlen; lia|].
      cbn [print_loop print_and_remove_perc_info_for_top_file].
      rewrite remove_contributors_filter.
      rewrite !filter_filter_and.
      assert (Hkept :
        filter (fun x => unseen seen x
                         && negb (ma_fname0 x =? ma_fname0 m)) ms
        = filter (unseen (ma_fname0 m :: seen)) ms).
      { apply filter_ext. intros r. unfold unseen. cbn [existsb].
        rewrite negb_orb. apply andb_comm. }
      assert (Hsame :
        filter (fun x => unseen seen x && (ma_fname0 x =? ma_fname0 m)) ms
        = filter (fun r => ma_fname0 r =? ma_fname0 m) ms).
      { apply filter_ext. intros r. unfold unseen.
        destruct (ma_fname0 r =? ma_fname0 m) eqn:E; [|apply andb_false_r].
        apply Z.eqb_eq in E. rewrite E, Hs. reflexivity. }
      rewrite Hkept, Hsame.
      assert (Hfuel :
        (List.length (filter (unseen (ma_fname0 m :: seen)) ms) <= fuel)%nat).
      { rewrite <- Hkept, <- filter_filter_and.
        pose proof (filter_length_le
                      (fun x => negb (ma_fname0 x =? ma_fname0 m))
                      (filter (unseen seen) ms)).
        cbn [List.length] in Hlen. lia. }
      specialize (IH fuel (ma_fname0 m :: seen) Hfuel).
      destruct (print_loop fuel Threshold_Percentage option_P
                           (filter (unseen (ma_fname0 m :: seen)) ms))
        as [out' final].
      cbn [fst] in *. cbn [flat_map]. rewrite IH. f_equal.
      * unfold records_shown. cbn [filter]. rewrite Z.eqb_refl.
        destruct option_P; cbn [firstn flat_map];
          [now rewrite app_nil_r|reflexivity].
      * apply flat_map_agree.
        intros f Hf. apply top_files_from_in in Hf. destruct Hf as [Hf _].
        cbn [existsb] in Hf. apply orb_false_iff in Hf.
        rewrite records_shown_other; [reflexivity|].
        intros E. rewrite E, Z.eqb_refl in Hf. destruct Hf. discriminate.
Qed.

(** X17.  The order of the lines: [print_percentages] takes the files
    in the order in which they first occur as first file of a record,
    each file once, and for each of them writes the lines of its
    records in the order of the list, or the line of its first record
    only under [-P]. *)
Theorem print_percentages_groups_by_file (option_P : bool)
        (match_start : list match_) :
  fst (print_percentages Threshold_Percentage option_P match_start)
  = flat_map (fun f => flat_map (print_perc_info Threshold_Percentage)
                                (records_shown option_P f match_start))
             (top_files match_start)
  /\ NoDup (top_files match_start)
  /\ (forall f, In f (top_files match_start)
                <-> exists r, In r match_start /\ ma_fname0 r = f).
Proof.
  split; [|split].
  - unfold print_percentages, top_files.
    assert (Hall : filter (unseen []) match_start = match_start)
      by (apply filter_all; reflexivity).
    rewrite <- Hall at 2.
    apply print_loop_groups. rewrite Hall. lia.
  - apply top_files_from_nodup.
  - intros f. unfold top_files. rewrite top_files_from_in. cbn [existsb].
    split; [intros [_ H]; exact H|intros H; split; [reflexivity|exact H]].
Qed.

End PrintingOrder.

(** ** More of [sim.c]: the options *)

Section Options.
Import Sim.

Lemma incompatible_with_ok (os : options) (first : ascii) (seconds : list ascii) :
  incompatible_with os first seconds = Ret tt
  <-> (is_set_option first os = false
       \/ filter (fun c => is_set_option c os) seconds = []).
Proof.
  induction seconds as [|second seconds IH]; cbn [incompatible_with filter].
  - split; [now right|reflexivity].
  - destruct (is_set_option first os) eqn:Hf; cbn [andb].
    + destruct (is_set_option second os) eqn:Hs.
      * split; [discriminate|]. intros [H|H]; discriminate H.
      * exact IH.
    + rewrite IH. split; intros _; now left.
Qed.

Lemma incompatible_with_fatal (os : options) (first : ascii)
      (seconds : list ascii) (msg : string) :
  incompatible_with os first seconds = Fatal msg ->
  exists second,
    In second seconds
    /\ is_set_option first os = true /\ is_set_option second os = true
    /\ msg = ("options -" ++ String first " and -"
                          ++ String second " are incompatible")%string.
Proof.
  induction seconds as [|second seconds IH]; cbn [incompatible_with].
  - discriminate.
  - destruct (is_set_option first os && is_set_option second os) eqn:Hb.
    + intros H. injection H as <-. apply andb_true_iff in Hb.
      exists second. repeat split; [now left|tauto|tauto].
    + intros H. destruct (IH H) as (s & Hin & Hrest).
      exists s. split; [now right|exact Hrest].
Qed.

Lemma incompatible_with_outcome (os : options) (first : ascii)
      (seconds : list ascii) :
  incompatible_with os first seconds = Ret tt
  \/ exists msg, incompatible_with os first seconds = Fatal msg.
Proof.
  induction seconds as [|second seconds IH]; cbn [incompatible_with].
  - now left.
  - destruct (_ && _); [right; eauto|exact IH].
Qed.

Lemma allow_at_most_one_out_of_ok (opts : list ascii) (os : options) :
  allow_at_most_one_out_of opts os = Ret tt
  <-> (List.length (filter (fun c => is_set_option c os) opts) <= 1)%nat.
Proof.
  induction opts as [|first opts IHok].
  - cbn. split; [lia|reflexivity].
  - cbn [allow_at_most_one_out_of filter].
    destruct (incompatible_with_outcome os first opts) as [Hok|[m Hm]].
    + rewrite Hok. cbn [bind].
      rewrite IHok. apply incompatible_with_ok in Hok.
      destruct (is_set_option first os); cbn [List.length].
      * destruct Hok as [H|H]; [discriminate H|]. rewrite H. cbn. lia.
      * lia.
    + rewrite Hm. cbn [bind].
      split; [discriminate|]. intros Hlen.
      destruct (incompatible_with_fatal _ _ _ _ Hm) as (s & Hin & Hf & Hs & _).
      rewrite Hf in Hlen. cbn [List.length] in Hlen.
      assert (Hin' : In s (filter (fun c => is_set_option c os) opts))
        by (apply filter_In; tauto).
      destruct (filter (fun c => is_set_option c os) opts);
        [destruct Hin'|cbn [List.length] in Hlen; lia].
Qed.

Lemma allow_at_most_one_out_of_fatal (opts : list ascii) (os : options)
      (msg : string) :
  allow_at_most_one_out_of opts os = Fatal msg ->
  exists first second,
    In first opts /\ In second opts
    /\ is_set_option first os = true
    /\ is_set_option second os = true
    /\ msg = ("options -" ++ String first " and -"
                          ++ String second " are incompatible")%string.
Proof.
  revert msg.
  induction opts as [|first opts IHfatal]; [discriminate|].
  cbn [allow_at_most_one_out_of].
  destruct (incompatible_with_outcome os first opts) as [Hok|[m Hm]].
  - rewrite Hok. cbn [bind].
    intros msg H. destruct (IHfatal msg H) as (a & b & Ha & Hb & Hrest).
    exists a, b. split; [now right|]. split; [now right|exact Hrest].
  - rewrite Hm. cbn [bind].
    intros msg H. injection H as <-.
    destruct (incompatible_with_fatal _ _ _ _ Hm) as (s & Hin & Hf & Hs & E).
    exists first, s. split; [now left|]. split; [now right|tauto].
Qed.

Lemma allow_at_most_one_out_of_outcome (opts : list ascii) (os : options) :
  allow_at_most_one_out_of opts os = Ret tt
  \/ exists msg, allow_at_most_one_out_of opts os = Fatal msg.
Proof.
  induction opts as [|first opts IH]; [now left|].
  cbn [allow_at_most_one_out_of].
  destruct (incompatible_with_outcome os first opts) as [Hok|[m Hm]].
  - rewrite Hok. cbn [bind]. exact IH.
  - rewrite Hm. cbn [bind]. right. now exists m.
Qed.

(** X14.  [allow_at_most_one_out_of] returns exactly when at most one of
    the options is set, and when it is fatal its message names two of the
    options that are both set. *)
Theorem allow_at_most_one_out_of_spec (opts : list ascii) (os : options) :
  (allow_at_most_one_out_of opts os = Ret tt
   <-> (List.length (filter (fun c => is_set_option c os) opts) <= 1)%nat)
  /\ (forall msg,
         allow_at_most_one_out_of opts os = Fatal msg ->
         exists first second,
           In first opts /\ In second opts
           /\ is_set_option first os = true
           /\ is_set_option second os = true
           /\ msg = ("options -" ++ String first " and -"
                                 ++ String second " are incompatible")%string).
Proof.
  split.
  - apply allow_at_most_one_out_of_ok.
  - intros msg. apply allow_at_most_one_out_of_fatal.
Qed.

Lemma value_option_checked (s : option string) (default : Z)
      (bad : Z -> bool) (msg : string) (v : Z) :
  value_option s default bad msg = Ret v ->
  (s = None /\ v = default)
  \/ (exists str, s = Some str /\ v = atoi str /\ bad v = false).
Proof.
  unfold value_option. destruct s as [str|].
  - destruct (bad (atoi str)) eqn:Hb; [discriminate|].
    intros H. injection H as <-. right. eauto.
  - intros H. injection H as <-. now left.
Qed.

Lemma is_set_option_set (c d : ascii) (os : options) :
  is_set_option c (set_option d os)
  = (Ascii.eqb c d || is_set_option c os)%bool.
Proof. reflexivity. Qed.

Lemma bind_ret {A B : Type} (m : outcome A) (k : A -> outcome B) (b : B) :
  bind m k = Ret b -> exists a, m = Ret a /\ k a = Ret b.
Proof. destruct m; cbn [bind]; intros H; try discriminate H. eauto. Qed.

(** X15.  When [main] goes on to the real work, the checks have
    established: a run size given with [-r] is not 0 and a page width
    given with [-w] is positive, the defaults standing otherwise; the
    threshold lies between 1 and 100; at most one of [-d -n -p -P -T] is
    set; [-v] is not set; [-t] comes with [-p] or [-P]; [-P] or [-p] has
    set [-p], [-e] and [-s]; no option has been cleared; [-i] comes with
    no file argument; and an output file that was asked for is open. *)
Theorem main_starts_with_checked_parameters
        (DEFAULT_MIN_RUN_SIZE DEFAULT_PAGE_WIDTH : Z)
        (os : options) (argc : Z) (fopen_ok : bool) (ps : parameters) :
  main DEFAULT_MIN_RUN_SIZE DEFAULT_PAGE_WIDTH os argc fopen_ok
  = Ret (Real_Work ps) ->
  (* the value options *)
  match min_run_string os with
  | Some str => Min_Run_Size ps = atoi str /\ Min_Run_Size ps <> 0
  | None => Min_Run_Size ps = DEFAULT_MIN_RUN_SIZE
  end
  /\ match page_width_string os with
     | Some str => Page_Width ps = atoi str /\ 0 < Page_Width ps
     | None => Page_Width ps = DEFAULT_PAGE_WIDTH
     end
  /\ 1 <= Threshold_Percentage ps <= 100
  (* the options *)
  /\ (List.length (filter (fun c => is_set_option c os)
                          ["d"; "n"; "p"; "P"; "T"]%char) <= 1)%nat
  /\ is_set_option "v" os = false
  /\ (is_set_option "t" os = true ->
      is_set_option "p" os = true \/ is_set_option "P" os = true)
  /\ (is_set_option "P" os = true \/ is_set_option "p" os = true ->
      is_set_option "p" (final_options ps) = true
      /\ is_set_option "e" (final_options ps) = true
      /\ is_set_option "s" (final_options ps) = true)
  /\ (forall c, is_set_option c os = true ->
                is_set_option c (final_options ps) = true)
  /\ (is_set_option "i" os = true -> argc = 0)
  /\ (output_name os <> None -> fopen_ok = true).
Proof.
  unfold main. intros H.
  apply bind_ret in H. destruct H as ([] & Hallow & H).
  apply bind_ret in H. destruct H as ([] & Ht & H).
  destruct (is_set_option "v" os) eqn:Hv; [discriminate H|].
  set (os1 := if is_set_option "P" os then set_option "p" os else os) in *.
  set (os2 := if is_set_option "p" os1
              then set_option "s" (set_option "e" os1) else os1) in *.
  assert (Hstrings : min_run_string os2 = min_run_string os
                     /\ page_width_string os2 = page_width_string os
                     /\ threshold_string os2 = threshold_string os
                     /\ output_name os2 = output_name os).
  { subst os2 os1. destruct (is_set_option "P" os);
      [|destruct (is_set_option "p" os)]; repeat split. }
  assert (Hkept : forall c, is_set_option c os = true ->
                            is_set_option c os2 = true).
  { intros c Hc. subst os2 os1.
    destruct (is_set_option "P" os) eqn:HP.
    - change (is_set_option "p" (set_option "p" os)) with true. cbv iota.
      rewrite !is_set_option_set, Hc. now rewrite !orb_true_r.
    - destruct (is_set_option "p" os); [|exact Hc].
      rewrite !is_set_option_set, Hc. now rewrite !orb_true_r. }
  assert (Hpes : is_set_option "P" os = true \/ is_set_option "p" os = true ->
                 is_set_option "p" os2 = true
                 /\ is_set_option "e" os2 = true
                 /\ is_set_option "s" os2 = true).
  { intros Hor. subst os2 os1.
    destruct (is_set_option "P" os) eqn:HP.
    - change (is_set_option "p" (set_option "p" os)) with true. cbv iota.
      repeat split.
    - destruct Hor as [Hor|Hor]; [discriminate Hor|]. rewrite Hor.
      rewrite !is_set_option_set, Hor. repeat split. }
  destruct Hstrings as (E1 & E2 & E3 & E4). rewrite E1, E2, E3, E4 in H.
  apply bind_ret in H. destruct H as (mrs & Hmrs & H).
  apply bind_ret in H. destruct H as (pw & Hpw & H).
  apply bind_ret in H. destruct H as (th & Hth & H).
  apply bind_ret in H. destruct H as ([] & Hout & H).
  apply bind_ret in H. destruct H as ([] & Hi & H).
  injection H as <-.
  cbn [Min_Run_Size Page_Width Threshold_Percentage final_options].
  apply value_option_checked in Hmrs, Hpw, Hth.
  split.
  { destruct Hmrs as [[-> ->]|(str & -> & -> & Hb)]; [reflexivity|].
    apply Z.eqb_neq in Hb. split; [reflexivity|exact Hb]. }
  split.
  { destruct Hpw as [[-> ->]|(str & -> & -> & Hb)]; [reflexivity|].
    apply Z.leb_gt in Hb. split; [reflexivity|exact Hb]. }
  split.
  { destruct Hth as [[_ ->]|(str & _ & -> & Hb)]; [lia|].
    apply orb_false_iff in Hb. destruct Hb as [Hb1 Hb2].
    apply Z.leb_gt in Hb2. apply Z.ltb_ge in Hb1. lia. }
  split.
  { apply (proj1 (allow_at_most_one_out_of_ok _ os)). exact Hallow. }
  split; [reflexivity|].
  split.
  { intros Hset. rewrite Hset in Ht. cbn [andb] in Ht.
    destruct (is_set_option "p" os); [now left|].
    destruct (is_set_option "P" os); [now right|]. discriminate Ht. }
  split; [exact Hpes|].
  split; [exact Hkept|].
  split.
  { intros Hset. rewrite (Hkept _ Hset) in Hi. cbn [andb] in Hi.
    destruct (argc =? 0) eqn:Ha; [now apply Z.eqb_eq|discriminate Hi]. }
  intros Hname. destruct (output_name os); [|contradiction].
  destruct fopen_ok; [reflexivity|discriminate Hout].
Qed.

(** X16.  With [-v], once the options are compatible, [main] shows the
    version and returns 0 before it looks at the value options: a bad run
    size, page width or threshold goes unreported. *)
Theorem main_shows_version_first
        (DEFAULT_MIN_RUN_SIZE DEFAULT_PAGE_WIDTH : Z)
        (os : options) (argc : Z) (fopen_ok : bool) :
  is_set_option "v" os = true ->
  (List.length (filter (fun c => is_set_option c os)
                       ["d"; "n"; "p"; "P"; "T"]%char) <= 1)%nat ->
  (is_set_option "t" os = true ->
   is_set_option "p" os = true \/ is_set_option "P" os = true) ->
  main DEFAULT_MIN_RUN_SIZE DEFAULT_PAGE_WIDTH os argc fopen_ok
  = Ret Version_Shown.
Proof.
  intros Hv Hone Ht. unfold main.
  rewrite (proj2 (allow_at_most_one_out_of_ok _ os) Hone).
  cbn [bind].
  assert (E : is_set_option "t" os && negb (is_set_option "p" os)
              && negb (is_set_option "P" os) = false).
  { destruct (is_set_option "t" os); [|reflexivity].
    destruct (Ht eq_refl) as [-> | ->]; [reflexivity|].
    now rewrite andb_false_r. }
  rewrite E. cbn [bind]. now rewrite Hv.
Qed.

(** X20.  [main] reports a conflict between options before anything
    else, whether [-v] is set or not and whatever the value options
    hold: with two of [-d -n -p -P -T] set it is fatal with the message
    that names two of them that are set, and with [-t] but neither [-p]
    nor [-P] it is fatal with "option -t requires -p or -P". *)
Theorem main_reports_option_conflicts_first
        (DEFAULT_MIN_RUN_SIZE DEFAULT_PAGE_WIDTH : Z)
        (os : options) (argc : Z) (fopen_ok : bool) :
  ((2 <= List.length (filter (fun c => is_set_option c os)
                             ["d"; "n"; "p"; "P"; "T"]%char))%nat ->
   exists first second,
     In first ["d"; "n"; "p"; "P"; "T"]%char
     /\ In second ["d"; "n"; "p"; "P"; "T"]%char
     /\ is_set_option first os = true
     /\ is_set_option second os = true
     /\ main DEFAULT_MIN_RUN_SIZE DEFAULT_PAGE_WIDTH os argc fopen_ok
        = Fatal ("options -" ++ String first " and -"
                             ++ String second " are incompatible"))
  /\ ((List.length (filter (fun c => is_set_option c os)
                           ["d"; "n"; "p"; "P"; "T"]%char) <= 1)%nat ->
      is_set_option "t" os = true ->
      is_set_option "p" os = false ->
      is_set_option "P" os = false ->
      main DEFAULT_MIN_RUN_SIZE DEFAULT_PAGE_WIDTH os argc fopen_ok
      = Fatal "option -t requires -p or -P").
Proof.
  split.
  - intros Hlen.
    destruct (allow_at_most_one_out_of_outcome
                ["d"; "n"; "p"; "P"; "T"]%char os) as [Hok|[msg Hmsg]].
    + apply allow_at_most_one_out_of_ok in Hok. lia.
    + destruct (allow_at_most_one_out_of_fatal _ _ _ Hmsg)
        as (first & second & H1 & H2 & Hs1 & Hs2 & E).
      exists first, second.
      split; [exact H1|]. split; [exact H2|].
      split; [exact Hs1|]. split; [exact Hs2|].
      unfold main. rewrite Hmsg. cbn [bind]. now rewrite E.
  - intros Hone Ht Hp HP.
    unfold main.
    rewrite (proj2 (allow_at_most_one_out_of_ok _ os) Hone).
    cbn [bind]. rewrite Ht, Hp, HP. reflexivity.
Qed.

End Options.

(** ** [db_forward_reference_check] on the table built *)

Section DebugCheck.
Import Hash HashDebug.

Variable fr : Z -> Z.
Variable len : Z.

Hypothesis Hup : forall p, fr p <> 0 -> 1 <= p < fr p /\ fr p < len.
Hypothesis Hinj : forall a b, fr a = fr b -> fr a <> 0 -> a = b.

Lemma on_chain_le (a x : Z) : on_chain fr a x -> a <= x.
Proof.
  induction 1 as [|y _ IH Hy]; [lia|]. destruct (Hup y Hy). lia.
Qed.

Lemma on_chain_trans (a b x : Z) :
  on_chain fr a b -> on_chain fr b x -> on_chain fr a x.
Proof.
  intros Hab Hbx. induction Hbx as [|y _ IH Hy]; [exact Hab|].
  now apply chain_next.
Qed.

Lemma on_chain_first (a x : Z) :
  on_chain fr a x -> a = x \/ (fr a <> 0 /\ on_chain fr (fr a) x).
Proof.
  induction 1 as [|y Hay IH Hy]; [now left|]. right.
  destruct IH as [->|[Ha Hrest]].
  - split; [exact Hy|constructor].
  - split; [exact Ha|now apply chain_next].
Qed.

(** Two chains that meet: one starts on the other. *)
Lemma on_chain_meet (a b x : Z) :
  on_chain fr a x -> on_chain fr b x -> on_chain fr a b \/ on_chain fr b a.
Proof.
  intros Ha. revert b. induction Ha as [|y Hay IH Hy]; intros b Hb.
  - now right.
  - remember (fr y) as x eqn:Ex. destruct Hb as [|y' Hby' Hy'].
    + left. subst. now apply chain_next.
    + assert (y' = y) by (apply Hinj; congruence). subst y'.
      now apply IH.
Qed.

Lemma db_frw_loop_eq (fuel : nat) (fw : Z) (crossed : Z -> Z)
      (lines : list string) (n_entries : Z) :
  db_frw_loop fuel fr fw crossed lines n_entries
  = if fw =? 0 then Ret (crossed, lines, n_entries)
    else match fuel with
         | O => OutOfFuel
         | S fuel' =>
             db_frw_loop fuel' fr (fr fw) (upd crossed fw 1)
               (if crossed fw =? 0 then lines
                else lines ++ [">>>> error: forward references cross <<<<"%string])
               (size_t (n_entries + 1))
         end.
Proof. destruct fuel; reflexivity. Qed.

Lemma positions_from_fresh (n : nat) :
  forall lo x, x < lo -> ~ In x (positions_from lo n).
Proof.
  intros lo x Hx Hin. apply in_positions_from in Hin. lia.
Qed.

Lemma positions_from_nodup (n : nat) : forall lo, NoDup (positions_from lo n).
Proof.
  induction n as [|n IH]; intros lo; cbn [positions_from]; constructor.
  - apply positions_from_fresh. lia.
  - apply IH.
Qed.

(** Crossing out one more position of [l] adds it to the positions that
    [h] counts, if [h] holds of it. *)
Lemma filter_length_mark (h : Z -> bool) (crossed : Z -> Z) (fw : Z)
      (l : list Z) :
  NoDup l -> crossed fw = 0 ->
  List.length (filter (fun x => negb (upd crossed fw 1 x =? 0) && h x) l)
  = Nat.add
      (List.length (filter (fun x => negb (crossed x =? 0) && h x) l))
      (if In_dec Z.eq_dec fw l then (if h fw then 1%nat else 0%nat)
       else 0%nat).
Proof.
  intros Hnd Hfree. induction Hnd as [|y l Hy Hnd IH]; [reflexivity|].
  cbn [filter]. destruct (Z.eq_dec y fw) as [->|Hne].
  - rewrite upd_same, Hfree. change (negb (1 =? 0)) with true.
    change (negb (0 =? 0)) with false. cbn [andb].
    destruct (In_dec Z.eq_dec fw (fw :: l)) as [_|Hn];
      [|exfalso; apply Hn; now left].
    destruct (In_dec Z.eq_dec fw l) as [Hin|_]; [contradiction|].
    rewrite Nat.add_0_r in IH.
    destruct (h fw); cbn [List.length]; rewrite IH; lia.
  - rewrite upd_other by exact Hne.
    assert (Hsame : (if In_dec Z.eq_dec fw (y :: l)
                     then (if h fw then 1%nat else 0%nat) else 0%nat)
                    = (if In_dec Z.eq_dec fw l
                       then (if h fw then 1%nat else 0%nat) else 0%nat)).
    { destruct (In_dec Z.eq_dec fw (y :: l)) as [Hin|Hn];
        destruct (In_dec Z.eq_dec fw l) as [Hin'|Hn']; try reflexivity.
      - destruct Hin as [E|Hin]; [congruence|contradiction].
      - exfalso. apply Hn. now right. }
    rewrite Hsame.
    destruct (negb (crossed y =? 0) && h y); cbn [List.length];
      rewrite IH; lia.
Qed.

Lemma count_positions_mark (h : Z -> bool) (crossed : Z -> Z) (fw : Z) :
  1 <= fw < len -> crossed fw = 0 ->
  count_positions (fun x => negb (upd crossed fw 1 x =? 0) && h x) len
  = count_positions (fun x => negb (crossed x =? 0) && h x) len
    + (if h fw then 1 else 0).
Proof.
  intros Hfw Hfree. unfold count_positions.
  rewrite (filter_length_mark h crossed fw) by
      (try apply positions_from_nodup; assumption).
  destruct (In_dec Z.eq_dec fw (positions_from 1 (Z.to_nat (len - 1))))
    as [_|Hn].
  - destruct (h fw); lia.
  - exfalso. apply Hn. apply in_positions_from. lia.
Qed.

Lemma count_links_mark (crossed : Z -> Z) (fw : Z) :
  1 <= fw < len -> crossed fw = 0 ->
  count_positions (is_link fr (upd crossed fw 1)) len
  = count_positions (is_link fr crossed) len
    + (if fr fw =? 0 then 0 else 1).
Proof.
  intros Hfw Hfree.
  pose proof (count_positions_mark (fun x => negb (fr x =? 0)) crossed fw
                                   Hfw Hfree) as H.
  cbv beta in H. unfold is_link. rewrite H.
  destruct (fr fw =? 0); reflexivity.
Qed.

Lemma count_ends_mark (crossed : Z -> Z) (fw : Z) :
  1 <= fw < len -> crossed fw = 0 ->
  count_positions (is_end fr (upd crossed fw 1)) len
  = count_positions (is_end fr crossed) len
    + (if fr fw =? 0 then 1 else 0).
Proof.
  intros Hfw Hfree.
  exact (count_positions_mark (fun x => fr x =? 0) crossed fw Hfw Hfree).
Qed.

Lemma count_positions_bounds (f : Z -> bool) :
  0 <= count_positions f len <= Z.max 0 (len - 1).
Proof.
  unfold count_positions.
  pose proof (filter_length_le f (positions_from 1 (Z.to_nat (len - 1)))) as H.
  assert (Hl : forall n lo, List.length (positions_from lo n) = n)
    by (induction n as [|n IH]; intros lo; cbn [positions_from List.length];
        [reflexivity|now rewrite IH]).
  rewrite Hl in H. lia.
Qed.

Hypothesis Hlen : len < 2 ^ 62.

(** The walk of [db_frw_chain] from [fw] on, when no position of the chain
    of [fw] is crossed out yet: it ends, writes nothing, and crosses out
    the positions of that chain and no other; one of them is the end of
    the chain, and the others are counted as the length of the chain. *)
Lemma db_frw_loop_marks (fuel : nat) :
  forall (fw : Z) (crossed : Z -> Z) (lines : list string) (n_entries : Z),
    1 <= fw < len ->
    len - fw <= Z.of_nat fuel ->
    0 <= n_entries <= fw ->
    (forall x, on_chain fr fw x -> crossed x = 0) ->
    exists crossed' links,
      db_frw_loop fuel fr fw crossed lines n_entries
      = Ret (crossed', lines, n_entries + 1 + links)
      /\ (forall x, on_chain fr fw x -> crossed' x = 1)
      /\ (forall x, crossed' x = crossed x \/ on_chain fr fw x)
      /\ 0 <= links
      /\ count_positions (is_link fr crossed') len
         = count_positions (is_link fr crossed) len + links
      /\ count_positions (is_end fr crossed') len
         = count_positions (is_end fr crossed) len + 1.
Proof.
  induction fuel as [|fuel IH];
    intros fw crossed lines n_entries Hfw Hfuel Hcount Hfree; [lia|].
  rewrite db_frw_loop_eq.
  assert (E : (fw =? 0) = false) by (apply Z.eqb_neq; lia).
  pose proof (Hfree fw (chain_start _ _)) as Hfw0.
  rewrite E, Hfw0, Z.eqb_refl, size_t_small by lia.
  pose proof (count_links_mark crossed fw Hfw Hfw0) as Hlinks.
  pose proof (count_ends_mark crossed fw Hfw Hfw0) as Hends.
  destruct (Z.eq_dec (fr fw) 0) as [Hend|Hnext].
  - rewrite Hend, db_frw_loop_eq, Z.eqb_refl.
    rewrite Hend, Z.eqb_refl in Hlinks, Hends.
    exists (upd crossed fw 1), 0.
    split; [now rewrite Z.add_0_r|]. split; [|split; [|split; [lia|]]].
    + intros x Hx. destruct (on_chain_first _ _ Hx) as [<-|[Hne _]];
        [apply upd_same|contradiction].
    + intros x. destruct (Z.eq_dec x fw) as [->|Hne];
        [right; constructor|left; now apply upd_other].
    + split; [rewrite Hlinks; lia|exact Hends].
  - destruct (Hup fw Hnext) as [Hlt Hlen'].
    apply Z.eqb_neq in Hnext. rewrite Hnext in Hlinks, Hends.
    apply Z.eqb_neq in Hnext.
    destruct (IH (fr fw) (upd crossed fw 1) lines (n_entries + 1)
                 ltac:(lia) ltac:(lia) ltac:(lia))
      as (crossed' & links & Hrun & Hmark & Hother & Hl0 & Hl & He).
    { intros x Hx. pose proof (on_chain_le _ _ Hx).
      rewrite upd_other by lia. apply Hfree.
      apply (on_chain_trans fw (fr fw) x); [|exact Hx].
      apply chain_next; [constructor|exact Hnext]. }
    exists crossed', (links + 1).
    split; [rewrite Hrun; do 2 f_equal; lia|].
    split; [|split; [|split; [lia|split; lia]]].
    + intros x Hx. destruct (on_chain_first _ _ Hx) as [<-|[_ Hrest]];
        [|now apply Hmark].
      destruct (Hother fw) as [Heq|Hback].
      * rewrite Heq. apply upd_same.
      * pose proof (on_chain_le _ _ Hback). lia.
    + intros x. destruct (Hother x) as [Heq|Hx].
      * destruct (Z.eq_dec x fw) as [->|Hne]; [right; constructor|].
        left. rewrite Heq. now apply upd_other.
      * right. apply (on_chain_trans fw (fr fw) x); [|exact Hx].
        apply chain_next; [constructor|exact Hnext].
Qed.

Variable st : hash_state.
Hypothesis Hfr : forward_reference st = fr.
Hypothesis Hn : n_forward_references st = len.

Lemma db_check_loop_eq (fuel : nat) (n : Z) (chk : db_check) :
  db_check_loop fuel st len n chk
  = if n <? len then
      match fuel with
      | O => OutOfFuel
      | S fuel' =>
          if negb (forward_reference st n =? 0) && (crossed_out chk n =? 0) then
            r <- db_frw_chain st n (crossed_out chk) (complaints chk) ;;
            let '(crossed', lines', chain_length) := r in
            db_check_loop fuel' st len (size_t (n + 1))
                          (mk_db_check crossed' lines'
                                       (size_t (n_frw_chains chk + 1))
                                       (size_t (tot_frwc_len chk + chain_length)))
          else db_check_loop fuel' st len (size_t (n + 1)) chk
      end
    else Ret chk.
Proof. destruct fuel; reflexivity. Qed.

Lemma db_check_loop_passes (fuel : nat) :
  forall (n : Z) (chk : db_check),
    1 <= n <= len ->
    len - n <= Z.of_nat fuel ->
    crossed_below fr len n chk ->
    exists chk',
      db_check_loop fuel st len n chk = Ret chk'
      /\ crossed_below fr len len chk'.
Proof.
  induction fuel as [|fuel IH]; intros n chk Hrange Hfuel Hinv;
    rewrite db_check_loop_eq.
  - assert (E : (n <? len) = false) by (apply Z.ltb_ge; lia).
    rewrite E. exists chk. split; [reflexivity|].
    replace len with n at 2 by lia. exact Hinv.
  - destruct (n <? len) eqn:E.
    2:{ apply Z.ltb_ge in E. exists chk. split; [reflexivity|].
        replace len with n at 2 by lia. exact Hinv. }
    apply Z.ltb_lt in E. rewrite size_t_small by lia.
    destruct Hinv as (Hquiet & Hfrom & Hall & Htot & Hchains).
    rewrite Hfr.
    destruct (negb (fr n =? 0) && (crossed_out chk n =? 0)) eqn:Hstart.
    + (* a new chain starts at n *)
      apply andb_true_iff in Hstart. destruct Hstart as [Hnz Hfree].
      apply negb_true_iff, Z.eqb_neq in Hnz. apply Z.eqb_eq in Hfree.
      assert (Hclean : forall x, on_chain fr n x -> crossed_out chk x = 0).
      { intros x Hx.
        destruct (Z.eq_dec (crossed_out chk x) 0) as [H0|Hc]; [exact H0|].
        exfalso. destruct (Hfrom x Hc) as (a & Ha & Hfa & Hax).
        destruct (on_chain_meet a n x Hax Hx) as [Han|Hna].
        - apply (Hall a n Ha Hfa Han). exact Hfree.
        - pose proof (on_chain_le _ _ Hna). lia. }
      destruct (db_frw_loop_marks (Z.to_nat len) n (crossed_out chk)
                  (complaints chk) 0 ltac:(lia) ltac:(lia) ltac:(lia) Hclean)
        as (crossed' & links & Hrun & Hmark & Hother & Hl0 & Hl & He).
      unfold db_frw_chain. rewrite Hfr, Hn.
      assert (E0 : (fr n =? 0) = false) by now apply Z.eqb_neq.
      rewrite E0, Hrun. cbn [bind].
      pose proof (count_positions_bounds (is_link fr crossed')).
      pose proof (count_positions_bounds (is_end fr crossed')).
      pose proof (count_positions_bounds (is_link fr (crossed_out chk))).
      pose proof (count_positions_bounds (is_end fr (crossed_out chk))).
      replace (0 + 1 + links - 1) with links by lia.
      rewrite !size_t_small by lia.
      apply IH; [lia|lia|].
      unfold crossed_below. cbn [crossed_out tot_frwc_len n_frw_chains complaints].
      rewrite (size_t_small links) by lia.
      rewrite (size_t_small (tot_frwc_len chk + links)) by lia.
      split; [exact Hquiet|].
      split; [|split; [|split; lia]].
      * intros x Hc. destruct (Hother x) as [Heq|Hx].
        -- rewrite Heq in Hc. destruct (Hfrom x Hc) as (a & Ha & Hrest).
           exists a. split; [lia|exact Hrest].
        -- exists n. split; [lia|]. split; [exact Hnz|exact Hx].
      * intros a x Ha Hfa Hax.
        destruct (Z.eq_dec a n) as [->|Hne].
        -- rewrite (Hmark x Hax). lia.
        -- pose proof (Hall a x ltac:(lia) Hfa Hax) as Hc.
           destruct (Hother x) as [Heq|Hx]; [now rewrite Heq|].
           rewrite (Hmark x Hx). lia.
    + (* nothing starts at n *)
      apply IH; [lia|lia|].
      split; [exact Hquiet|]. split; [|split; [|split; assumption]].
      * intros x Hc. destruct (Hfrom x Hc) as (a & Ha & Hrest).
        exists a. split; [lia|exact Hrest].
      * intros a x Ha Hfa Hax.
        destruct (Z.eq_dec a n) as [->|Hne]; [|apply (Hall a x); [lia|assumption..]].
        assert (Hc : crossed_out chk n <> 0).
        { apply andb_false_iff in Hstart. destruct Hstart as [H|H].
          - apply negb_false_iff, Z.eqb_eq in H. contradiction.
          - now apply Z.eqb_neq in H. }
        destruct (Hfrom n Hc) as (a' & Ha' & Hfa' & Han).
        apply (Hall a' x Ha' Hfa'). now apply (on_chain_trans a' n x).
Qed.

(** The check finds no fault: it returns and has written none of its
    error lines; the positions it has crossed out are those of the
    chains; the total chain length is the number of forward references
    that are not 0, and the number of chains is the number of chain
    ends. *)
Lemma db_forward_reference_check_passes :
  1 <= len ->
  exists chk,
    db_forward_reference_check st len = Ret chk
    /\ complaints chk = []
    /\ (forall x, crossed_out chk x <> 0
                  <-> exists a, 1 <= a < len /\ fr a <> 0 /\ on_chain fr a x)
    /\ tot_frwc_len chk = count_positions (fun x => negb (fr x =? 0)) len
    /\ n_frw_chains chk = count_positions (is_end fr (crossed_out chk)) len.
Proof.
  intros Hlen1. unfold db_forward_reference_check. rewrite Hfr.
  assert (H0 : (fr 0 =? 0) = true).
  { apply Z.eqb_eq. destruct (Z.eq_dec (fr 0) 0) as [E|Hne]; [exact E|].
    destruct (Hup 0 Hne). lia. }
  rewrite H0.
  assert (Hzero : forall h : Z -> bool,
             count_positions (fun x => negb (0 =? 0) && h x) len = 0).
  { intros h. unfold count_positions.
    rewrite (filter_none (fun x => negb (0 =? 0) && h x)); [reflexivity|].
    intros x _. reflexivity. }
  destruct (db_check_loop_passes (Z.to_nat len) 1
              (mk_db_check (fun _ => 0) [] 0 0) ltac:(lia) ltac:(lia))
    as (chk & Hrun & Hquiet & Hfrom & Hall & Htot & Hchains).
  { split; [reflexivity|]. split; [|split; [|split]].
    - intros x Hx. cbn [crossed_out] in Hx. contradiction.
    - intros a x Ha. lia.
    - symmetry. apply (Hzero (fun x => negb (fr x =? 0))).
    - symmetry. apply (Hzero (fun x => fr x =? 0)). }
  exists chk. split; [exact Hrun|]. split; [exact Hquiet|].
  split; [|split; [|exact Hchains]].
  - intros x. split; [apply Hfrom|].
    intros (a & Ha & Hfa & Hax). exact (Hall a x Ha Hfa Hax).
  - rewrite Htot. unfold count_positions. do 2 f_equal.
    apply filter_ext_in. intros x Hx. apply in_positions_from in Hx.
    unfold is_link. destruct (fr x =? 0) eqn:Hfx; [apply andb_false_r|].
    apply Z.eqb_neq in Hfx.
    pose proof (Hall x x ltac:(lia) Hfx (chain_start _ _)) as Hc.
    apply Z.eqb_neq in Hc. rewrite Hc. reflexivity.
Qed.

End DebugCheck.

Section DebugCheckOfTable.
Import Hash HashDebug.
Context {TI : TokenInterface}.

Variable try_calloc : Z -> bool.
Variable inp : input.
Variable size : Z.

(** X10.  [db_forward_reference_check], run on the table that the two
    sweeps have built, returns without any of its error lines: no chain
    crosses another, no chain start has the forward reference 0, and
    [forward_reference[0]] is 0.  The positions it crosses out are those
    on the chains; the total chain length it reports is the number of
    forward references that are not 0, and the number of chains is the
    number of chain ends.
    Stated for the inputs of [well_formed]: the texts in order and
    [1 <= Min_Run_Size <= 46684427], where every sample position lies
    inside the window. *)
Theorem built_table_passes_db_check :
  well_formed inp ->
  table_size try_calloc (Token_Array_Length inp) = Ret size ->
  exists st chk,
    Make_Forward_References try_calloc inp = Ret st
    /\ db_forward_reference_check st (Token_Array_Length inp) = Ret chk
    /\ complaints chk = []
    /\ (forall x,
           crossed_out chk x <> 0
           <-> exists a, 1 <= a < Token_Array_Length inp
                         /\ forward_reference st a <> 0
                         /\ on_chain (forward_reference st) a x)
    /\ tot_frwc_len chk
       = count_positions (fun x => negb (forward_reference st x =? 0))
                         (Token_Array_Length inp)
    /\ n_frw_chains chk
       = count_positions (is_end (forward_reference st) (crossed_out chk))
                         (Token_Array_Length inp).
Proof.
  intros Hwf Hsize.
  destruct (forward_references_built try_calloc inp size Hwf Hsize)
    as (st & Hrun & _ & _ & Hn & Hlinks).
  pose proof (threaded_range inp Hwf) as Hrange.
  assert (Hmrs : 1 <= Min_Run_Size inp) by (destruct Hwf as (_ & H & _); lia).
  exists st.
  destruct (db_forward_reference_check_passes
              (forward_reference st) (Token_Array_Length inp))
    with (st := st) as (chk & Hchk);
    try reflexivity; try assumption.
  - intros p Hne.
    destruct (Hlinks p) as [[Hq _]|(_ & Hdp & Hdq & Hlt & _)]; [contradiction|].
    destruct (Hrange _ Hdp), (Hrange _ Hdq). lia.
  - intros a b. apply (forward_references_injective inp st); assumption.
  - apply (length_below_2_62 inp Hwf).
  - destruct Hwf as (Hord & _). pose proof (texts_in_order_le _ _ _ Hord). lia.
  - exists chk. split; [exact Hrun|exact Hchk].
Qed.

End DebugCheckOfTable.

(** ** The two sweeps compared *)

Section SweepsCompared.
Import Hash HashDebug.
Context {TI : TokenInterface}.

(** When the forward references [fr1] link each position of [D] to the
    next one with its hash code, a later position of [D] with the hash
    code of [p] is on the chain of [p]. *)
Lemma on_chain_of_links (inp : input) (size : Z) (sp : list Z)
      (D : Z -> Prop) (fr1 : Z -> Z) :
  (forall p, links_to_next D (same_bucket inp size sp) p (fr1 p)) ->
  forall (n : nat) (p q : Z),
    q - p <= Z.of_nat n ->
    D p -> D q -> p < q ->
    same_bucket inp size sp p q = true ->
    on_chain fr1 p q.
Proof.
  intros Hfr1. induction n as [|n IH]; intros p q Hn Hp Hq Hlt He; [lia|].
  destruct (Hfr1 p) as [[_ [H|H]]|(Hne & _ & Hd1 & Hlt1 & He1 & Hbetween)].
  - contradiction.
  - rewrite (H q Hq Hlt) in He. discriminate He.
  - assert (Hstep : on_chain fr1 p (fr1 p))
      by (apply chain_next; [apply chain_start|exact Hne]).
    destruct (Z.lt_trichotomy q (fr1 p)) as [Hlow|[Heq|Hhigh]].
    + rewrite (Hbetween q Hq Hlt Hlow) in He. discriminate He.
    + rewrite Heq. exact Hstep.
    + apply (on_chain_trans fr1 p (fr1 p) q Hstep).
      apply IH; [lia|exact Hd1|exact Hq|exact Hhigh|].
      rewrite <- (same_bucket_trans inp size sp p (fr1 p) q He1). exact He.
Qed.

Variable try_calloc : Z -> bool.
Variable inp : input.
Variable size : Z.

(** The loop of the second sweep, run on a table [fr2] in which every
    forward reference that is not 0 leads to a window with the secondary
    hash code of its own: no entry changes. *)
Lemma for_clean_keeps (fr2 : Z -> Z) (fuel : nat) :
  1 <= Min_Run_Size inp <= INT_MAX ->
  Token_Array_Length inp < 2 ^ 62 ->
  (forall p, fr2 p <> 0 ->
             hash2_at inp (sample_positions (Min_Run_Size inp)) (fr2 p)
             = hash2_at inp (sample_positions (Min_Run_Size inp)) p) ->
  forall (i : Z) (st : hash_state),
    0 <= i <= Token_Array_Length inp ->
    Token_Array_Length inp - i <= Z.of_nat fuel ->
    sample_pos st = sample_positions (Min_Run_Size inp) ->
    (forall p, forward_reference st p = fr2 p) ->
    exists st',
      for_clean fuel inp i st = Ret st'
      /\ (forall p, forward_reference st' p = fr2 p)
      /\ n_forward_references st' = n_forward_references st
      /\ last_index_table_size st' = last_index_table_size st
      /\ sample_pos st' = sample_pos st.
Proof.
  intros Hmrs Hlen Hh2.
  assert (Hint : INT_MAX = 2147483647) by reflexivity.
  induction fuel as [|fuel IH]; intros i st Hi Hfuel Hsp Hfr;
    rewrite for_clean_eq; rewrite size_t_small by lia.
  - assert (E : (i + Min_Run_Size inp <? Token_Array_Length inp) = false)
      by (apply Z.ltb_ge; lia).
    rewrite E. exists st. repeat split; try reflexivity. exact Hfr.
  - destruct (i + Min_Run_Size inp <? Token_Array_Length inp) eqn:E.
    2:{ exists st. repeat split; try reflexivity. exact Hfr. }
    apply Z.ltb_lt in E.
    assert (Hfound :
      first_with_hash2 (Z.to_nat (Token_Array_Length inp)) inp st
                       (hash2_at inp (sample_pos st) i) i = Ret (fr2 i)).
    { rewrite first_with_hash2_eq, Hfr, Hsp.
      destruct (fr2 i =? 0) eqn:E0; [reflexivity|].
      apply Z.eqb_neq in E0. rewrite (Hh2 i E0), Z.eqb_refl. reflexivity. }
    rewrite Hfound. cbn [bind]. rewrite size_t_small by lia.
    destruct (IH (i + 1) (set_forward_reference st i (fr2 i)))
      as (st' & Hrun & Hfr' & Hn' & Hs' & Hsp'); [lia|lia|exact Hsp| |].
    + intros p. cbn [forward_reference set_forward_reference]. unfold upd.
      destruct (p =? i) eqn:Hpi; [|apply Hfr].
      apply Z.eqb_eq in Hpi. now subst p.
    + exists st'. split; [exact Hrun|]. split; [exact Hfr'|].
      split; [exact Hn'|]. split; [exact Hs'|exact Hsp'].
Qed.

Hypothesis Hwf : well_formed inp.
Hypothesis Hsize : table_size try_calloc (Token_Array_Length inp) = Ret size.

(** The two sweeps, with the table after each. *)
Lemma two_sweeps :
  exists st1 st2,
    make_forward_references_hash1
      try_calloc inp
      (mk_hash_state (fun _ => 0) (Token_Array_Length inp)
                     (last_index initial_state)
                     (last_index_table_size initial_state)
                     (sample_pos initial_state)) = Ret st1
    /\ clean_forward_references_hash2 inp st1 = Ret st2
    /\ Make_Forward_References try_calloc inp = Ret st2
    /\ sample_pos st2 = sample_positions (Min_Run_Size inp)
    /\ (forall p,
           links_to_next (fun r => threaded inp r = true)
                         (same_bucket inp size
                                      (sample_positions (Min_Run_Size inp)))
                         p (forward_reference st1 p))
    /\ (forall p,
           links_to_next
             (fun r => threaded inp r = true)
             (fun a b =>
                same_bucket inp size (sample_positions (Min_Run_Size inp)) a b
                && same_hash2 inp (sample_positions (Min_Run_Size inp)) a b)
             p (forward_reference st2 p)).
Proof.
  destruct (first_sweep_threads try_calloc inp size Hwf Hsize
              (fun _ => 0) (last_index initial_state)
              (last_index_table_size initial_state) (sample_pos initial_state)
              (fun _ => eq_refl))
    as (st1 & Hrun1 & Hs1 & Hsp1 & Hn1 & _ & Hfr1).
  pose proof (threaded_range inp Hwf) as Hrange.
  pose proof (length_below_2_62 inp Hwf) as Hlen.
  destruct Hwf as (Hord & Hsmall & _).
  assert (Hmrs : 1 <= Min_Run_Size inp <= INT_MAX) by (unfold INT_MAX; lia).
  destruct (for_clean_cleans inp size (sample_positions (Min_Run_Size inp))
              (fun r => threaded inp r = true) (forward_reference st1)
              Hmrs Hlen Hrange Hfr1
              (Z.to_nat (Token_Array_Length inp)) 0 st1)
    as (st2 & Hrun2 & Hs2 & Hsp2 & Hn2 & Hlinks).
  - pose proof (texts_in_order_le _ _ _ Hord). lia.
  - lia.
  - split; [exact Hs1|]. split; [exact Hsp1|]. split; [exact Hn1|].
    split; [|intros p _; reflexivity].
    intros p Hp. destruct (Hfr1 p) as [[Hq _]|(_ & Hd & _)].
    + rewrite Hq. left. split; [reflexivity|]. left. intros Hd.
      destruct (Hrange p Hd). lia.
    + destruct (Hrange p Hd). lia.
  - exists st1, st2. split; [exact Hrun1|]. split; [exact Hrun2|].
    split.
    { unfold Make_Forward_References. rewrite Hrun1. cbn [bind]. exact Hrun2. }
    split; [exact Hsp2|]. split; [exact Hfr1|exact Hlinks].
Qed.

(** X18.  The second sweep only short-circuits: a forward reference that
    is 0 after the first sweep is 0 after the second, and one that is
    not 0 after the second sweep leads to a position on the chain that
    the first sweep has made for its position.
    Stated for the inputs of [well_formed]: the texts in order and
    [1 <= Min_Run_Size <= 46684427], where every sample position lies
    inside the window. *)
Theorem second_sweep_short_circuits :
  exists st1 st2,
    make_forward_references_hash1
      try_calloc inp
      (mk_hash_state (fun _ => 0) (Token_Array_Length inp)
                     (last_index initial_state)
                     (last_index_table_size initial_state)
                     (sample_pos initial_state)) = Ret st1
    /\ clean_forward_references_hash2 inp st1 = Ret st2
    /\ Make_Forward_References try_calloc inp = Ret st2
    /\ forall p,
        (forward_reference st1 p = 0 -> forward_reference st2 p = 0)
        /\ (forward_reference st2 p <> 0 ->
            forward_reference st1 p <> 0
            /\ on_chain (forward_reference st1) (forward_reference st1 p)
                        (forward_reference st2 p)).
Proof.
  destruct two_sweeps as (st1 & st2 & Hrun1 & Hrun2 & Hrun & _ & Hfr1 & Hfr2).
  exists st1, st2. split; [exact Hrun1|]. split; [exact Hrun2|].
  split; [exact Hrun|]. intros p.
  assert (Hon : forward_reference st2 p <> 0 ->
                forward_reference st1 p <> 0
                /\ on_chain (forward_reference st1) (forward_reference st1 p)
                            (forward_reference st2 p)).
  { intros Hne.
    destruct (Hfr2 p) as [[Hq _]|(_ & Hdp & Hdq & Hlt & He & _)];
      [contradiction|].
    apply andb_true_iff in He. destruct He as [He _].
    pose proof (on_chain_of_links inp size _ _ _ Hfr1
                  (Z.to_nat (forward_reference st2 p - p)) p
                  (forward_reference st2 p) ltac:(lia) Hdp Hdq Hlt He) as Hc.
    destruct (on_chain_first _ _ _ Hc) as [Heq|[H1 H2]]; [lia|].
    split; assumption. }
  split; [|exact Hon].
  intros H1.
  destruct (Z.eq_dec (forward_reference st2 p) 0) as [E|Hne]; [exact E|].
  destruct (Hon Hne) as [H _]. contradiction.
Qed.

(** X19.  Run once more on the table it has left,
    [clean_forward_references_hash2] returns and changes no forward
    reference.
    Stated for the inputs of [well_formed]: the texts in order and
    [1 <= Min_Run_Size <= 46684427], where every sample position lies
    inside the window. *)
Theorem second_sweep_is_idempotent :
  exists st2 st3,
    Make_Forward_References try_calloc inp = Ret st2
    /\ clean_forward_references_hash2 inp st2 = Ret st3
    /\ (forall p, forward_reference st3 p = forward_reference st2 p)
    /\ n_forward_references st3 = n_forward_references st2.
Proof.
  destruct two_sweeps as (st1 & st2 & _ & _ & Hrun & Hsp & _ & Hfr2).
  pose proof (length_below_2_62 inp Hwf) as Hlen.
  destruct Hwf as (Hord & Hsmall & _).
  assert (Hmrs : 1 <= Min_Run_Size inp <= INT_MAX) by (unfold INT_MAX; lia).
  destruct (for_clean_keeps (forward_reference st2)
              (Z.to_nat (Token_Array_Length inp)) Hmrs Hlen)
    with (i := 0) (st := st2) as (st3 & Hrun3 & Hfr3 & Hn3 & _).
  - intros p Hne.
    destruct (Hfr2 p) as [[Hq _]|(_ & _ & _ & _ & He & _)]; [contradiction|].
    apply andb_true_iff in He. destruct He as [_ He].
    unfold same_hash2 in He. apply Z.eqb_eq in He. symmetry. exact He.
  - pose proof (texts_in_order_le _ _ _ Hord). lia.
  - lia.
  - exact Hsp.
  - reflexivity.
  - exists st2, st3. split; [exact Hrun|]. split; [exact Hrun3|].
    split; [exact Hfr3|exact Hn3].
Qed.

End SweepsCompared.

(** ** The theorems at concrete inputs *)

Section HashWitnesses.
Import Hash HashDebug Examples MoreExamples.

Lemma forward_references_in_range_witness :
  exists st,
    Make_Forward_References plenty two_texts = Ret st
    /\ n_forward_references st = Token_Array_Length two_texts
    /\ (forall p,
           forward_reference st p <> 0 ->
           1 <= p < forward_reference st p
           /\ forward_reference st p + Min_Run_Size two_texts
              <= Token_Array_Length two_texts)
    /\ (forall p,
           Token_Array_Length two_texts <= p + Min_Run_Size two_texts ->
           forward_reference st p = 0)
    /\ (forall i,
           1 <= i < Token_Array_Length two_texts ->
           exists v,
             Forward_Reference st i = Ret v
             /\ (v = 0 \/ i < v < Token_Array_Length two_texts)).
Proof.
  apply (forward_references_in_range plenty two_texts 14051).
  - unfold well_formed, INT_MAX. cbn. lia.
  - reflexivity.
Defined.

Lemma sample_positions_span_window_witness :
  nth 0 (sample_positions 24) 0 = 0
  /\ nth 23 (sample_positions 24) 0 = 24 - 1
  /\ (forall n m : nat,
         (n <= m < 24)%nat ->
         nth n (sample_positions 24) 0 <= nth m (sample_positions 24) 0)
  /\ (forall n : nat,
         (n < 24)%nat -> 0 <= nth n (sample_positions 24) 0 < 24).
Proof. apply (sample_positions_span_window 24). lia. Defined.

Lemma equal_windows_are_chained_witness :
  exists st,
    Make_Forward_References plenty two_texts = Ret st
    /\ forall p q,
        threaded two_texts p = true -> threaded two_texts q = true -> p < q ->
        (forall k, 0 <= k < Min_Run_Size two_texts ->
                   Token2int (Token_Array two_texts (p + k))
                   = Token2int (Token_Array two_texts (q + k))) ->
        In q (chain (Z.to_nat (Token_Array_Length two_texts))
                    (forward_reference st) p).
Proof.
  apply (equal_windows_are_chained plenty two_texts 14051).
  - unfold well_formed, INT_MAX. cbn. lia.
  - cbn. lia.
  - reflexivity.
Defined.

Lemma nothing_to_thread_witness :
  exists st,
    Make_Forward_References plenty short_text = Ret st
    /\ forall p, forward_reference st p = 0.
Proof.
  apply (nothing_to_thread plenty short_text 14051).
  - unfold well_formed, INT_MAX. cbn. lia.
  - reflexivity.
  - right. intros txt [<-|[]]. cbn. lia.
Defined.

Lemma table_size_granted_witness :
  exists j k : nat,
    (j <= k < List.length prime)%nat
    /\ 14051 = nth j prime 0
    /\ plenty 14051 = true
    /\ 7 <= nth k prime 0
    /\ (forall i, (i < k)%nat -> nth i prime 0 < 7)
    /\ (forall i, (j < i <= k)%nat -> plenty (nth i prime 0) = false)
    /\ (plenty (nth k prime 0) = true -> 7 <= 14051).
Proof. apply (table_size_granted plenty 7 14051). reflexivity. Defined.

Lemma table_size_with_memory_witness :
  exists size,
    table_size plenty 7 = Ret size
    /\ In size prime
    /\ 7 <= size
    /\ (size = 14051 \/ size <= 2 * 7 + 67).
Proof.
  apply (table_size_with_memory plenty 7).
  - vm_compute. discriminate.
  - intros s _. reflexivity.
Defined.

Lemma table_size_out_of_memory_witness :
  exists k : nat,
    ideal_size prime 0 7 = Ret k
    /\ (k < List.length prime)%nat
    /\ 7 <= nth k prime 0
    /\ (forall i, (i < k)%nat -> nth i prime 0 < 7)
    /\ (table_size no_small_block 7 = Fatal "out of memory"
        <-> forall i, (i <= k)%nat -> no_small_block (nth i prime 0) = false)
    /\ (forall msg, table_size no_small_block 7 = Fatal msg ->
                    msg = "out of memory"%string).
Proof.
  apply (table_size_out_of_memory no_small_block 7).
  vm_compute. discriminate.
Defined.

Lemma Make_Forward_References_out_of_memory_witness :
  Make_Forward_References no_small_block two_texts = Fatal "out of memory".
Proof.
  apply (Make_Forward_References_out_of_memory no_small_block two_texts 0).
  - reflexivity.
  - intros i Hi. replace i with 0%nat by lia. reflexivity.
Defined.

Lemma first_sweep_links_same_hash_code_witness :
  exists st1,
    make_forward_references_hash1
      plenty two_texts
      (mk_hash_state (fun _ => 0) (Token_Array_Length two_texts)
                     (last_index initial_state)
                     (last_index_table_size initial_state)
                     (sample_pos initial_state)) = Ret st1
    /\ (forall p,
           links_to_next (fun r => threaded two_texts r = true)
                         (same_bucket two_texts 14051
                                      (sample_positions (Min_Run_Size two_texts)))
                         p (forward_reference st1 p))
    /\ (forall h,
           (last_index st1 h = 0
            /\ forall r, threaded two_texts r = true ->
                         bucket two_texts 14051
                                (sample_positions (Min_Run_Size two_texts)) r
                         <> h)
           \/ (threaded two_texts (last_index st1 h) = true
               /\ bucket two_texts 14051
                         (sample_positions (Min_Run_Size two_texts))
                         (last_index st1 h) = h
               /\ forall r, threaded two_texts r = true ->
                            bucket two_texts 14051
                                   (sample_positions (Min_Run_Size two_texts)) r
                            = h ->
                            r <= last_index st1 h)).
Proof.
  apply (first_sweep_links_same_hash_code plenty two_texts 14051).
  - unfold well_formed, INT_MAX. cbn. lia.
  - reflexivity.
Defined.

Lemma built_table_passes_db_check_witness :
  exists st chk,
    Make_Forward_References plenty two_texts = Ret st
    /\ db_forward_reference_check st (Token_Array_Length two_texts) = Ret chk
    /\ complaints chk = []
    /\ (forall x,
           crossed_out chk x <> 0
           <-> exists a, 1 <= a < Token_Array_Length two_texts
                         /\ forward_reference st a <> 0
                         /\ on_chain (forward_reference st) a x)
    /\ tot_frwc_len chk
       = count_positions (fun x => negb (forward_reference st x =? 0))
                         (Token_Array_Length two_texts)
    /\ n_frw_chains chk
       = count_positions (is_end (forward_reference st) (crossed_out chk))
                         (Token_Array_Length two_texts).
Proof.
  apply (built_table_passes_db_check plenty two_texts 14051).
  - unfold well_formed, INT_MAX. cbn. lia.
  - reflexivity.
Defined.

Lemma second_sweep_short_circuits_witness :
  exists st1 st2,
    make_forward_references_hash1
      plenty two_texts
      (mk_hash_state (fun _ => 0) (Token_Array_Length two_texts)
                     (last_index initial_state)
                     (last_index_table_size initial_state)
                     (sample_pos initial_state)) = Ret st1
    /\ clean_forward_references_hash2 two_texts st1 = Ret st2
    /\ Make_Forward_References plenty two_texts = Ret st2
    /\ forall p,
        (forward_reference st1 p = 0 -> forward_reference st2 p = 0)
        /\ (forward_reference st2 p <> 0 ->
            forward_reference st1 p <> 0
            /\ on_chain (forward_reference st1) (forward_reference st1 p)
                        (forward_reference st2 p)).
Proof.
  apply (second_sweep_short_circuits plenty two_texts 14051).
  - unfold well_formed, INT_MAX. cbn. lia.
  - reflexivity.
Defined.

Lemma second_sweep_is_idempotent_witness :
  exists st2 st3,
    Make_Forward_References plenty two_texts = Ret st2
    /\ clean_forward_references_hash2 two_texts st2 = Ret st3
    /\ (forall p, forward_reference st3 p = forward_reference st2 p)
    /\ n_forward_references st3 = n_forward_references st2.
Proof.
  apply (second_sweep_is_idempotent plenty two_texts 14051).
  - unfold well_formed, INT_MAX. cbn. lia.
  - reflexivity.
Defined.

End HashWitnesses.

Section SimWitnesses.
Import Sim MoreExamples.

Lemma main_starts_with_checked_parameters_witness :
  match min_run_string percent_options with
  | Some str => Min_Run_Size percent_parameters = atoi str
                /\ Min_Run_Size percent_parameters <> 0
  | None => Min_Run_Size percent_parameters = 24
  end
  /\ match page_width_string percent_options with
     | Some str => Page_Width percent_parameters = atoi str
                   /\ 0 < Page_Width percent_parameters
     | None => Page_Width percent_parameters = 80
     end
  /\ 1 <= Threshold_Percentage percent_parameters <= 100
  /\ (List.length (filter (fun c => is_set_option c percent_options)
                          ["d"; "n"; "p"; "P"; "T"]%char) <= 1)%nat
  /\ is_set_option "v" percent_options = false
  /\ (is_set_option "t" percent_options = true ->
      is_set_option "p" percent_options = true
      \/ is_set_option "P" percent_options = true)
  /\ (is_set_option "P" percent_options = true
      \/ is_set_option "p" percent_options = true ->
      is_set_option "p" (final_options percent_parameters) = true
      /\ is_set_option "e" (final_options percent_parameters) = true
      /\ is_set_option "s" (final_options percent_parameters) = true)
  /\ (forall c, is_set_option c percent_options = true ->
                is_set_option c (final_options percent_parameters) = true)
  /\ (is_set_option "i" percent_options = true -> 2 = 0)
  /\ (output_name percent_options <> None -> true = true).
Proof.
  apply (main_starts_with_checked_parameters 24 80 percent_options 2 true
                                             percent_parameters).
  reflexivity.
Defined.

Lemma main_shows_version_first_witness :
  main 24 80 version_options 0 true = Ret Version_Shown.
Proof.
  apply (main_shows_version_first 24 80 version_options 0 true).
  - reflexivity.
  - cbn. lia.
  - intros H. vm_compute in H. discriminate H.
Defined.

Lemma main_reports_option_conflicts_first_witness :
  (exists first second,
      In first ["d"; "n"; "p"; "P"; "T"]%char
      /\ In second ["d"; "n"; "p"; "P"; "T"]%char
      /\ is_set_option first conflicting_options = true
      /\ is_set_option second conflicting_options = true
      /\ main 24 80 conflicting_options 0 true
         = Fatal ("options -" ++ String first " and -"
                              ++ String second " are incompatible"))
  /\ main 24 80 threshold_only_options 0 true
     = Fatal "option -t requires -p or -P".
Proof.
  split.
  - apply (proj1 (main_reports_option_conflicts_first
                    24 80 conflicting_options 0 true)).
    cbn. lia.
  - apply (proj2 (main_reports_option_conflicts_first
                    24 80 threshold_only_options 0 true)).
    + cbn. lia.
    + reflexivity.
    + reflexivity.
    + reflexivity.
Defined.

End SimWitnesses.
